(** * Event locations of GDB: a shallow embedding of gdb/location.c

    The file follows gdb/location.c from top to bottom: the location
    hierarchy and its cached string form, the rendering of explicit
    locations, the quote-aware scanner, the two option lexers, the
    explicit-location parser and the top-level dispatcher.

    Conventions of the embedding.

    - A [const char *] is the list of characters read from that pointer
      on.  The terminating NUL is implicit: reading at the end of the
      list yields NUL, and a NUL inside the list ends the C string there,
      exactly as the C code would see it.
    - [p + n] is [skipn n p]; a pointer difference is a number of
      characters; a pointer that may be null is an [option].
    - Functions that take [const char **inp] return the new value of
      [*inp] next to their result.
    - [error (...)] is the outcome [Raise]; [strlen] applied to a null
      pointer is the outcome [Segv]; a read behind the terminating NUL of
      a string is the outcome [Overrun].
    - Loops that are not structural run on fuel; the outcome [Timeout]
      stands for fuel used up, and is shown not to occur.

    Behind the definitions for gdb/location.c stand those for
    gdb/python/py-progspace.c, the Python objects of program spaces, with
    conventions of their own. *)

From Stdlib Require Import List Ascii String ZArith Lia Bool Arith.
From Stdlib Require Import DecimalString HexadecimalString FunctionalExtensionality.
Import ListNotations.



(** ** Characters and C strings *)

Definition cstring := list ascii.
Definition std_string := list ascii.

Definition cs (s : string) : cstring := list_ascii_of_string s.

Definition NUL : ascii := Ascii.zero.

(** The double-quote character. *)
Definition DQUOTE : ascii := Eval vm_compute in ascii_of_nat 34.

Definition is_nul (c : ascii) : bool := Ascii.eqb c NUL.

Definition chr_eq (a b : ascii) : bool := Ascii.eqb a b.

(** [*p] and [p[i]]. *)
Definition peek (p : cstring) : ascii := hd NUL p.
Definition at_ (p : cstring) (i : nat) : ascii := nth i p NUL.

(** <ctype.h> in the "C" locale. *)
Definition isspace (c : ascii) : bool :=
  let n := nat_of_ascii c in ((9 <=? n) && (n <=? 13)) || (n =? 32).

Definition isdigit (c : ascii) : bool :=
  let n := nat_of_ascii c in (48 <=? n) && (n <=? 57).

Definition isalpha (c : ascii) : bool :=
  let n := nat_of_ascii c in
  ((65 <=? n) && (n <=? 90)) || ((97 <=? n) && (n <=? 122)).

Definition isalnum (c : ascii) : bool := isalpha c || isdigit c.

(** <string.h>. *)
Fixpoint strlen (s : cstring) : nat :=
  match s with
  | [] => 0
  | c :: r => if is_nul c then 0 else S (strlen r)
  end.

(** [strchr (s, c) != NULL]. *)
Fixpoint strchr (s : cstring) (c : ascii) : bool :=
  match s with
  | [] => is_nul c
  | x :: r =>
      if is_nul x then is_nul c
      else if chr_eq x c then true
      else strchr r c
  end.

(** [strncmp (a, b, n) == 0]. *)
Fixpoint strncmp_eq (a b : cstring) (n : nat) : bool :=
  match n with
  | 0 => true
  | S n' =>
      if chr_eq (peek a) (peek b)
      then (if is_nul (peek a) then true else strncmp_eq (tl a) (tl b) n')
      else false
  end.

(** [startswith (s, pattern)] of gdbsupport: [strncmp (s, pattern,
    strlen (pattern)) == 0]. *)
Definition startswith (s pattern : cstring) : bool :=
  strncmp_eq s pattern (strlen pattern).

(** [savestring (p, n)]: a fresh copy of the [n] characters at [p]. *)
Definition savestring (p : cstring) (n : nat) : cstring := firstn n p.

(** ** Types declared in location.h, symtab.h, linespec.h, defs.h *)

(** Modelled from the spec: [symbol_name_match_type] is declared in
    symtab.h, not in location.c.  The spec names the enumerators FULL and
    WILD; location.c only ever tests for FULL, so the remaining
    enumerators of the declaration are kept as well. *)
Inductive symbol_name_match_type : Type :=
| WILD
| FULL
| SEARCH_NAME
| EXPRESSION.

Definition is_FULL (m : symbol_name_match_type) : bool :=
  match m with FULL => true | _ => false end.

Inductive offset_relative_sign : Type :=
| LINE_OFFSET_NONE
| LINE_OFFSET_PLUS
| LINE_OFFSET_MINUS
| LINE_OFFSET_UNKNOWN.

Definition is_UNKNOWN (s : offset_relative_sign) : bool :=
  match s with LINE_OFFSET_UNKNOWN => true | _ => false end.

(** [struct line_offset].  The [int] member [offset] is held as an
    integer; location.c stores and prints it and never computes with
    it. *)
Record line_offset : Type := mk_line_offset {
  offset : Z;
  sign : offset_relative_sign
}.

Record linespec_location : Type := mk_linespec_location {
  match_type : symbol_name_match_type;
  spec_string : option cstring
}.

Record explicit_location : Type := mk_explicit_location {
  source_filename : option cstring;
  function_name : option cstring;
  func_name_match_type : symbol_name_match_type;
  label_name : option cstring;
  line_offset_of : line_offset
}.

Inductive event_location_type : Type :=
| LINESPEC_LOCATION
| ADDRESS_LOCATION
| EXPLICIT_LOCATION
| PROBE_LOCATION.

(** The only members of [language_defn] that location.c reads is
    [la_language]; it compares it with [language_cplus] and
    [language_ada]. *)
Inductive language : Type :=
| language_unknown
| language_c
| language_objc
| language_cplus
| language_d
| language_go
| language_fortran
| language_m2
| language_asm
| language_pascal
| language_opencl
| language_rust
| language_minimal
| language_ada.

Definition is_cplus (l : language) : bool :=
  match l with language_cplus => true | _ => false end.

Definition is_ada (l : language) : bool :=
  match l with language_ada => true | _ => false end.

Definition CORE_ADDR := Z.

Record explicit_completion_info : Type := mk_completion_info {
  last_option : option cstring;
  quoted_arg_start : option cstring;
  quoted_arg_end : option cstring;
  saw_explicit_location_option : bool
}.

(** [CP_OPERATOR_STR] and [CP_OPERATOR_LEN] of cp-support.h. *)
Definition CP_OPERATOR_STR : cstring := cs "operator".
Definition CP_OPERATOR_LEN : nat := 8.

(** ** Outcomes: normal return, [error], a null dereference, a read behind
    the end of a string, no more fuel *)

Inductive gdb_error : Type :=
| UnmatchedQuote (at_text : cstring)
| InvalidExplicitLocationArgument (opt : cstring)
| MissingArgument (opt : cstring)
| SourceFilenameRequires
| CollaboratorError (what : cstring).

Inductive outcome (A : Type) : Type :=
| Ret (a : A)
| Raise (e : gdb_error)
| Segv
| Overrun
| Timeout.

Arguments Ret {A} a.
Arguments Raise {A} e.
Arguments Segv {A}.
Arguments Overrun {A}.
Arguments Timeout {A}.

Definition bind {A B : Type} (m : outcome A) (k : A -> outcome B) : outcome B :=
  match m with
  | Ret a => k a
  | Raise e => Raise e
  | Segv => Segv
  | Overrun => Overrun
  | Timeout => Timeout
  end.

Notation "x <- m ;; k" := (bind m (fun x => k))
  (at level 61, m at next level, right associativity).

(** ** The collaborators of location.c

    location.c calls into linespec.c, probe.c, cp-support.c, ada-lang.c and
    utils.c.  What these functions compute is a parameter of the
    development: every theorem below holds for all of them, or says which
    of their values it needs. *)

Record collaborators : Type := mk_collaborators {
  (** [get_gdb_linespec_parser_quote_characters ()] *)
  quote_characters : cstring;
  (** [linespec_lexer_lex_keyword (p) != NULL] *)
  lex_keyword : cstring -> bool;
  (** [find_toplevel_char (s, c)], as an offset from [s] *)
  find_toplevel_char : cstring -> ascii -> option nat;
  (** [is_ada_operator (s)] *)
  is_ada_operator : cstring -> bool;
  (** [linespec_parse_line_offset (s)] *)
  linespec_parse_line_offset : cstring -> outcome line_offset;
  (** [probe_linespec_to_static_ops (&cs) != NULL] *)
  probe_linespec_to_static_ops : cstring -> bool;
  (** [linespec_expression_to_pc (&arg)]: the address and how far [arg]
      moved *)
  linespec_expression_to_pc : cstring -> outcome (CORE_ADDR * nat);
  (** [linespec_lex_to_end (&s)]: how far [s] moved *)
  linespec_lex_to_end : cstring -> outcome nat;
  (** [core_addr_to_string (addr)] *)
  core_addr_to_string : CORE_ADDR -> cstring
}.

(** Modelled from the spec: [skip_spaces] is defined in gdbsupport, not in
    location.c; it advances over the whitespace in front of the next
    token. *)
Fixpoint skip_spaces (p : cstring) : cstring :=
  match p with
  | [] => []
  | c :: r => if isspace c then skip_spaces r else p
  end.

(** Modelled from the spec: [remove_trailing_whitespace (start, s)] is
    defined in cli/cli-utils.c, not in location.c; it walks [s] back over
    whitespace, never before [start] ("the exact trimmed substring").
    The result is the offset of the returned pointer from [start], as is
    [n] for [s]. *)
Fixpoint remove_trailing_whitespace (start : cstring) (n : nat) : nat :=
  match n with
  | 0 => 0
  | S k => if isspace (at_ start k) then remove_trailing_whitespace start k else n
  end.

(** ** The location hierarchy *)

Inductive event_location_data : Type :=
| probe_data
| linespec_data (l : linespec_location)
| address_data (address : CORE_ADDR)
| explicit_data (explicit_loc : explicit_location).

(** [struct event_location]: the cached string and the members of the
    derived class; [type] is fixed by the derived class. *)
Record event_location : Type := mk_event_location {
  as_string : std_string;
  data : event_location_data
}.

Definition type_of (l : event_location) : event_location_type :=
  match data l with
  | probe_data => PROBE_LOCATION
  | linespec_data _ => LINESPEC_LOCATION
  | address_data _ => ADDRESS_LOCATION
  | explicit_data _ => EXPLICIT_LOCATION
  end.

Definition std_empty (s : std_string) : bool :=
  match s with [] => true | _ => false end.

(** [std::string] built from a C string, and from its first [n]
    characters. *)
Definition std_string_of (p : cstring) : std_string := firstn (strlen p) p.
Definition std_string_of_n (p : cstring) (n : nat) : std_string := firstn n p.

Definition initialize_explicit_location : explicit_location :=
  {| source_filename := None;
     function_name := None;
     func_name_match_type := WILD;
     label_name := None;
     line_offset_of := {| offset := 0%Z; sign := LINE_OFFSET_UNKNOWN |} |}.

(** [event_location_explicit::copy_loc] *)
Definition copy_loc (loc : option explicit_location) : explicit_location :=
  match loc with
  | None => initialize_explicit_location
  | Some l =>
      {| source_filename := source_filename l;
         function_name := function_name l;
         func_name_match_type := func_name_match_type l;
         label_name := label_name l;
         line_offset_of := line_offset_of l |}
  end.

Definition new_explicit_location (loc : option explicit_location) : event_location :=
  {| as_string := []; data := explicit_data (copy_loc loc) |}.

Definition new_probe_location (probe : std_string) : event_location :=
  {| as_string := probe; data := probe_data |}.

Definition new_address_location (addr : CORE_ADDR) (addr_string : option cstring)
  (addr_string_len : nat) : event_location :=
  {| as_string := match addr_string with
                  | Some p => std_string_of_n p addr_string_len
                  | None => []
                  end;
     data := address_data addr |}.

(** [empty_p] of the four classes. *)
Definition explicit_empty_p (e : explicit_location) : bool :=
  match source_filename e, function_name e, label_name e with
  | None, None, None => is_UNKNOWN (sign (line_offset_of e))
  | _, _, _ => false
  end.

Definition event_location_empty_p (l : event_location) : bool :=
  match data l with
  | probe_data => false
  | linespec_data _ => false
  | address_data _ => false
  | explicit_data e => explicit_empty_p e
  end.

(** ** Rendering of explicit locations *)

(** [printf ("%d", n)]. *)
Definition print_int (n : Z) : cstring :=
  cs (DecimalString.NilZero.string_of_int (Z.to_int n)).

Definition sign_prefix (s : offset_relative_sign) : cstring :=
  match s with
  | LINE_OFFSET_NONE => []
  | LINE_OFFSET_PLUS => cs "+"
  | _ => cs "-"
  end.

(** [string_file::puts] and [string_file::putc]: [puts] appends the C
    string, that is, the characters before its NUL. *)
Definition puts (buf : std_string) (s : cstring) : std_string :=
  buf ++ std_string_of s.

Definition putc (buf : std_string) (c : ascii) : std_string := buf ++ [c].

(** [string_file::printf] with the format [%s%d]. *)
Definition printf_sd (buf : std_string) (s : cstring) (d : Z) : std_string :=
  buf ++ std_string_of s ++ print_int d.

(** [explicit_to_string_internal].  [buf] is the [string_file], threaded
    with [need_space] through the four [if] blocks. *)
Definition explicit_to_string_internal (as_linespec : bool)
  (explicit_loc : explicit_location) : std_string :=
  let space : ascii := if as_linespec then ":"%char else " "%char in
  let buf : std_string := [] in
  let need_space := false in
  let '(buf, need_space) :=
    match source_filename explicit_loc with
    | Some src =>
        let buf := if negb as_linespec then puts buf (cs "-source ") else buf in
        (puts buf src, true)
    | None => (buf, need_space)
    end in
  let '(buf, need_space) :=
    match function_name explicit_loc with
    | Some fn =>
        let buf := if need_space then putc buf space else buf in
        let buf := if is_FULL (func_name_match_type explicit_loc)
                   then puts buf (cs "-qualified ") else buf in
        let buf := if negb as_linespec then puts buf (cs "-function ") else buf in
        (puts buf fn, true)
    | None => (buf, need_space)
    end in
  let '(buf, need_space) :=
    match label_name explicit_loc with
    | Some lbl =>
        let buf := if need_space then putc buf space else buf in
        let buf := if negb as_linespec then puts buf (cs "-label ") else buf in
        (puts buf lbl, true)
    | None => (buf, need_space)
    end in
  let buf :=
    if negb (is_UNKNOWN (sign (line_offset_of explicit_loc))) then
      let buf := if need_space then putc buf space else buf in
      let buf := if negb as_linespec then puts buf (cs "-line ") else buf in
      printf_sd buf (sign_prefix (sign (line_offset_of explicit_loc)))
        (offset (line_offset_of explicit_loc))
    else buf in
  buf.

Definition explicit_location_to_string (e : explicit_location) : std_string :=
  explicit_to_string_internal false e.

Definition explicit_location_to_linespec (e : explicit_location) : std_string :=
  explicit_to_string_internal true e.

(** ** The cached string form *)

Section Rendering.

Variable env : collaborators.

(** [compute_string] of the four classes.  The probe class returns
    [std::move (as_string)]; [to_string] assigns the result back to
    [as_string], so the member holds the same characters afterwards. *)
Definition compute_string (l : event_location) : std_string :=
  match data l with
  | probe_data => as_string l
  | linespec_data ls =>
      match spec_string ls with
      | Some s =>
          if is_FULL (match_type ls)
          then cs "-qualified " ++ std_string_of s
          else std_string_of s
      | None => []
      end
  | address_data a => cs "*" ++ std_string_of (core_addr_to_string env a)
  | explicit_data e => explicit_location_to_string e
  end.

(** What a call of [to_string] leaves behind: the pointer it returns, the
    object with its [mutable] cache, and how many times the call ran
    [compute_string]. *)
Record to_string_result : Type := mk_to_string_result {
  returned : option cstring;
  object : event_location;
  compute_string_calls : nat
}.

(** [event_location::to_string].  [c_str ()] of the cache is the cache
    itself read as a C string. *)
Definition to_string (l : event_location) : to_string_result :=
  let '(l, calls) :=
    if std_empty (as_string l)
    then ({| as_string := compute_string l; data := data l |}, 1)
    else (l, 0) in
  if std_empty (as_string l)
  then {| returned := None; object := l; compute_string_calls := calls |}
  else {| returned := Some (as_string l); object := l;
          compute_string_calls := calls |}.

(** [n] calls of [to_string] in a row on one object: the pointers they
    returned, the object at the end, the calls of [compute_string] in
    total. *)
Fixpoint to_string_repeatedly (n : nat) (l : event_location)
  : list (option cstring) * event_location * nat :=
  match n with
  | 0 => ([], l, 0)
  | S k =>
      let r := to_string l in
      let '(rs, l', calls) := to_string_repeatedly k (object r) in
      (returned r :: rs, l', compute_string_calls r + calls)
  end.

(** [event_location_to_string], the rendering used by callers. *)
Definition event_location_to_string (l : event_location) : option cstring :=
  returned (to_string l).

End Rendering.

(** ** The quote-aware scanner *)

(** [find_end_quote (s, end_quote_char)]: the offset from [s] of the
    returned pointer, [None] for a null result.  The first argument is the
    local [nested_quote_char]. *)
Fixpoint find_end_quote_from (nested_quote_char : ascii) (s : cstring)
  (end_quote_char : ascii) : option nat :=
  match s with
  | [] => None
  | c :: r =>
      if is_nul c then None
      else if negb (is_nul nested_quote_char) then
        if chr_eq c nested_quote_char
        then option_map S (find_end_quote_from NUL r end_quote_char)
        else if chr_eq c "\"%char && negb (is_nul (peek r))
        then match r with
             | [] => None
             | _ :: r' =>
                 option_map (fun n => S (S n))
                   (find_end_quote_from nested_quote_char r' end_quote_char)
             end
        else option_map S (find_end_quote_from nested_quote_char r end_quote_char)
      else if chr_eq c end_quote_char then Some 0
      else if chr_eq c DQUOTE || chr_eq c "'"%char
      then option_map S (find_end_quote_from c r end_quote_char)
      else option_map S (find_end_quote_from nested_quote_char r end_quote_char)
  end.

Definition find_end_quote (s : cstring) (end_quote_char : ascii) : option nat :=
  find_end_quote_from NUL s end_quote_char.

(** ** The lexers of explicit locations *)

Definition set_quoted_arg_start (ci : option explicit_completion_info)
  (p : option cstring) : option explicit_completion_info :=
  option_map (fun c => {| last_option := last_option c;
                          quoted_arg_start := p;
                          quoted_arg_end := quoted_arg_end c;
                          saw_explicit_location_option :=
                            saw_explicit_location_option c |}) ci.

Definition set_quoted_arg_end (ci : option explicit_completion_info)
  (p : option cstring) : option explicit_completion_info :=
  option_map (fun c => {| last_option := last_option c;
                          quoted_arg_start := quoted_arg_start c;
                          quoted_arg_end := p;
                          saw_explicit_location_option :=
                            saw_explicit_location_option c |}) ci.

Definition set_last_option (ci : option explicit_completion_info)
  (p : option cstring) : option explicit_completion_info :=
  option_map (fun c => {| last_option := p;
                          quoted_arg_start := quoted_arg_start c;
                          quoted_arg_end := quoted_arg_end c;
                          saw_explicit_location_option :=
                            saw_explicit_location_option c |}) ci.

Definition set_saw_explicit_location_option
  (ci : option explicit_completion_info) : option explicit_completion_info :=
  option_map (fun c => {| last_option := last_option c;
                          quoted_arg_start := quoted_arg_start c;
                          quoted_arg_end := quoted_arg_end c;
                          saw_explicit_location_option := true |}) ci.

Definition is_null {A : Type} (p : option A) : bool :=
  match p with None => true | Some _ => false end.

(** What a lexer leaves behind: the token (null when nothing was lexed),
    the new [*inp], the completion info. *)
Definition lexed : Type :=
  (option cstring * cstring * option explicit_completion_info)%type.

(** The loop of [explicit_location_lex_one] for input that starts with a
    sign: it stops at NUL, at a comma and at whitespace.  The result is
    the number of increments of the cursor. *)
Fixpoint span_to_space_or_comma (p : cstring) : nat :=
  match p with
  | [] => 0
  | c :: r =>
      if is_nul c || chr_eq c ","%char || isspace c then 0
      else S (span_to_space_or_comma r)
  end.

(** The loop of [explicit_location_lex_one] over a run of digits. *)
Fixpoint span_digits (p : cstring) : nat :=
  match p with
  | [] => 0
  | c :: r => if isdigit c then S (span_digits r) else 0
  end.

(** [while (end > start && end[-1] == ' ') end--;] on offsets from
    [start]. *)
Fixpoint trim_trailing_blanks (start : cstring) (n : nat) : nat :=
  match n with
  | 0 => 0
  | S k => if chr_eq (at_ start k) " "%char then trim_trailing_blanks start k else n
  end.

(** [while (p > start && isspace (p[-1])) p--;] on offsets from [start]. *)
Fixpoint back_over_spaces (start : cstring) (n : nat) : nat :=
  match n with
  | 0 => 0
  | S k => if isspace (at_ start k) then back_over_spaces start k else n
  end.

(** [is_cp_operator (start, comma)]; [comma] is an offset from [start]. *)
Definition is_cp_operator (start : cstring) (comma : option nat) : bool :=
  match comma with
  | None => false
  | Some k =>
      if CP_OPERATOR_LEN <=? k then
        let p := back_over_spaces start k in
        if CP_OPERATOR_LEN <=? p then
          let p := p - CP_OPERATOR_LEN in
          strncmp_eq (skipn p start) CP_OPERATOR_STR CP_OPERATOR_LEN
          && ((p =? 0)
              || negb (isalnum (at_ start (p - 1))
                       || chr_eq (at_ start (p - 1)) "_"%char))
        else false
      else false
  end.

(** [first_of (first, new_tok)] on offsets into one string. *)
Definition first_of (first new_tok : option nat) : option nat :=
  match first with
  | None => new_tok
  | Some f =>
      match new_tok with
      | Some n => if n <? f then Some n else Some f
      | None => Some f
      end
  end.

Section Lexers.

Variable env : collaborators.

(** The last loop of [explicit_location_lex_one], as the number of
    characters [*inp] moved.  In C++ the body steps over the word
    [operator] and, without a look at it, over the character behind the
    word.  When that character is the NUL that terminates the string,
    [*inp] is left behind the string and the test of the loop reads
    there. *)
Fixpoint symbol_span (fuel : nat) (language : language) (p : cstring)
  : outcome nat :=
  match fuel with
  | 0 => Timeout
  | S fuel' =>
      if negb (is_nul (peek p))
         && negb (chr_eq (peek p) ","%char)
         && negb (isspace (peek p) || lex_keyword env (tl p))
      then
        if is_cplus language && startswith p CP_OPERATOR_STR
        then
          match skipn CP_OPERATOR_LEN p with
          | [] => Overrun
          | _ :: behind =>
              n <- symbol_span fuel' language behind ;;
              Ret (CP_OPERATOR_LEN + 1 + n)
          end
        else
          n <- symbol_span fuel' language (tl p) ;;
          Ret (1 + n)
      else Ret 0
  end.

(** [explicit_location_lex_one (inp, language, completion_info)] *)
Definition explicit_location_lex_one (inp : cstring) (language : language)
  (completion_info : option explicit_completion_info) : outcome lexed :=
  let start := inp in
  if is_nul (peek start) then Ret (None, inp, completion_info)
  else if strchr (quote_characters env) (peek start) then
    let completion_info := set_quoted_arg_start completion_info (Some start) in
    match find_end_quote (tl start) (peek start) with
    | None =>
        if is_null completion_info then Raise (UnmatchedQuote start)
        else
          let inp := skipn (strlen start) start in
          Ret (Some (savestring (tl start) (strlen start - 1)), inp,
               completion_info)
    | Some e =>
        let completion_info :=
          set_quoted_arg_end completion_info (Some (skipn (S e) start)) in
        let inp := skipn (S (S e)) start in
        Ret (Some (savestring (tl start) (S (S e) - 2)), inp, completion_info)
    end
  else
    let finish (n : nat) : outcome lexed :=
      if 0 <? n
      then Ret (Some (savestring start n), skipn n start, completion_info)
      else Ret (None, skipn n start, completion_info) in
    if chr_eq (peek start) "-"%char || chr_eq (peek start) "+"%char
    then finish (span_to_space_or_comma start)
    else
      let d := span_digits start in
      let c := at_ start d in
      if is_nul c || isspace c || chr_eq c ","%char
      then Ret (Some (savestring start d), skipn d start, completion_info)
      else
        n <- symbol_span (S (List.length start)) language start ;;
        finish n.

(** [skip_op_false_positives (start, found)].  [s0] is the string both
    pointers point into, [start] and [found] are offsets from it. *)
Fixpoint skip_op_false_positives_from (fuel : nat) (s0 : cstring)
  (start : nat) (found : option nat) : outcome (option nat) :=
  match found with
  | None => Ret None
  | Some f =>
      if is_cp_operator (skipn start s0) (Some (f - start)) then
        match fuel with
        | 0 => Timeout
        | S fuel' =>
            let start' :=
              if chr_eq (at_ s0 f) "-"%char && chr_eq (at_ s0 (f + 1)) "-"%char
              then f + 2 else f + 1 in
            let found' :=
              option_map (fun k => start' + k)
                (find_toplevel_char env (skipn start' s0) (at_ s0 f)) in
            skip_op_false_positives_from fuel' s0 start' found'
        end
      else Ret (Some f)
  end.

Definition skip_op_false_positives (start : cstring) (found : option nat)
  : outcome (option nat) :=
  skip_op_false_positives_from (S (List.length start)) start 0 found.

(** The loop of [explicit_location_lex_one_function] that looks for a
    space in front of a linespec keyword; [ws] is an offset from
    [start]. *)
Fixpoint space_before_keyword (fuel : nat) (start : cstring) (ws : option nat)
  : outcome (option nat) :=
  match ws with
  | None => Ret None
  | Some w =>
      if negb (lex_keyword env (skipn (w + 1) start)) then
        match fuel with
        | 0 => Timeout
        | S fuel' =>
            let s := w + 1 in
            space_before_keyword fuel' start
              (option_map (fun k => s + k)
                 (find_toplevel_char env (skipn s start) " "%char))
        end
      else Ret (Some w)
  end.

(** The second half of [explicit_location_lex_one_function]: where the
    function name that starts at [start] ends, as an offset from
    [start]. *)
Definition function_name_end (start : cstring) : outcome nat :=
  let comma := find_toplevel_char env start ","%char in
  let hyphen :=
    if chr_eq (peek start) "-"%char
    then option_map S (find_toplevel_char env (tl start) "-"%char)
    else find_toplevel_char env start "-"%char in
  comma <- skip_op_false_positives start comma ;;
  hyphen <- skip_op_false_positives start hyphen ;;
  let end_ := first_of hyphen comma in
  ws <- space_before_keyword (S (List.length start)) start
          (find_toplevel_char env start " "%char) ;;
  let end_ :=
    match ws with
    | Some w => first_of end_ (Some (w + 1))
    | None => end_
    end in
  let end_ :=
    match end_ with
    | Some e => e
    | None => strlen start
    end in
  Ret (trim_trailing_blanks start end_).

(** The test in front of the quoted branch of
    [explicit_location_lex_one_function]. *)
Definition lexes_as_quoted (language : language) (start : cstring) : bool :=
  strchr (quote_characters env) (peek start)
  && negb (is_ada language && chr_eq (peek start) DQUOTE
           && is_ada_operator env start).

(** [explicit_location_lex_one_function (inp, language, completion_info)] *)
Definition explicit_location_lex_one_function (inp : cstring)
  (language : language) (completion_info : option explicit_completion_info)
  : outcome lexed :=
  let start := inp in
  if is_nul (peek start) then Ret (None, inp, completion_info)
  else if lexes_as_quoted language start then
    let quote_char := peek start in
    let completion_info :=
      set_quoted_arg_start completion_info (Some start) in
    match find_toplevel_char env (tl start) quote_char with
    | None =>
        if is_null completion_info then Raise (UnmatchedQuote start)
        else
          let inp := skipn (strlen start) start in
          Ret (Some (savestring (tl start) (strlen start - 1)), inp,
               completion_info)
    | Some e =>
        let completion_info :=
          set_quoted_arg_end completion_info (Some (skipn (S e) start)) in
        let inp := skipn (S (S e)) start in
        Ret (Some (savestring (tl start) (S (S e) - 2)), inp,
             completion_info)
    end
  else
    end_ <- function_name_end start ;;
    let inp := skipn end_ start in
    if 0 <? end_
    then Ret (Some (savestring start end_), inp, completion_info)
    else Ret (None, inp, completion_info).

End Lexers.

(** ** The explicit-location parser *)

Definition set_source_filename (l : explicit_location) (v : option cstring)
  : explicit_location :=
  {| source_filename := v;
     function_name := function_name l;
     func_name_match_type := func_name_match_type l;
     label_name := label_name l;
     line_offset_of := line_offset_of l |}.

Definition set_function_name (l : explicit_location) (v : option cstring)
  : explicit_location :=
  {| source_filename := source_filename l;
     function_name := v;
     func_name_match_type := func_name_match_type l;
     label_name := label_name l;
     line_offset_of := line_offset_of l |}.

Definition set_func_name_match_type (l : explicit_location)
  (v : symbol_name_match_type) : explicit_location :=
  {| source_filename := source_filename l;
     function_name := function_name l;
     func_name_match_type := v;
     label_name := label_name l;
     line_offset_of := line_offset_of l |}.

Definition set_label_name (l : explicit_location) (v : option cstring)
  : explicit_location :=
  {| source_filename := source_filename l;
     function_name := function_name l;
     func_name_match_type := func_name_match_type l;
     label_name := v;
     line_offset_of := line_offset_of l |}.

Definition set_line_offset (l : explicit_location) (v : line_offset)
  : explicit_location :=
  {| source_filename := source_filename l;
     function_name := function_name l;
     func_name_match_type := func_name_match_type l;
     label_name := label_name l;
     line_offset_of := v |}.

(** The variables that live across the rounds of the option loop:
    [location->explicit_loc], [*argp], [*completion_info]. *)
Record parser_state : Type := mk_parser_state {
  location : explicit_location;
  argp : cstring;
  completion : option explicit_completion_info
}.

(** How one round of the loop ends: at its closing brace or [continue],
    or with [break]. *)
Inductive round_end : Type :=
| Continue (st : parser_state)
| Break (st : parser_state).

Section Parser.

Variable env : collaborators.

(** The end of a round: the last [skip_spaces] and the missing-argument
    check. *)
Definition round_tail (opt : cstring) (location : explicit_location)
  (argp : cstring) (completion_info : option explicit_completion_info)
  (need_oarg have_oarg : bool) : outcome round_end :=
  let argp := skip_spaces argp in
  if need_oarg && negb have_oarg && is_null completion_info
  then Raise (MissingArgument opt)
  else Ret (Continue (mk_parser_state location argp completion_info)).

(** The second half of the body of the [while] loop: the dispatch on the
    option token.  [opt] is the token, [argp] the cursor behind it, [start]
    the cursor in front of it. *)
Definition round_on_option (language : language)
  (location : explicit_location) (start : cstring)
  (completion_info : option explicit_completion_info) (opt argp : cstring)
  : outcome round_end :=
  let len := strlen opt in
  let argp := skip_spaces argp in
  if strncmp_eq opt (cs "-source") len then
    r <- explicit_location_lex_one env argp language completion_info ;;
    let '(oarg, argp, completion_info) := r in
    let completion_info :=
      set_saw_explicit_location_option completion_info in
    round_tail opt (set_source_filename location oarg) argp
      completion_info true (negb (is_null oarg))
  else if strncmp_eq opt (cs "-function") len then
    r <- explicit_location_lex_one_function env argp language
           completion_info ;;
    let '(oarg, argp, completion_info) := r in
    let completion_info :=
      set_saw_explicit_location_option completion_info in
    round_tail opt (set_function_name location oarg) argp
      completion_info true (negb (is_null oarg))
  else if strncmp_eq opt (cs "-qualified") len then
    round_tail opt (set_func_name_match_type location FULL) argp
      completion_info false false
  else if strncmp_eq opt (cs "-line") len then
    r <- explicit_location_lex_one env argp language None ;;
    let '(oarg, argp, _) := r in
    let completion_info :=
      set_saw_explicit_location_option completion_info in
    let argp := skip_spaces argp in
    match oarg with
    | Some arg =>
        lo <- linespec_parse_line_offset env arg ;;
        Ret (Continue (mk_parser_state (set_line_offset location lo)
                         argp completion_info))
    | None => round_tail opt location argp completion_info true false
    end
  else if strncmp_eq opt (cs "-label") len then
    r <- explicit_location_lex_one env argp language completion_info ;;
    let '(oarg, argp, completion_info) := r in
    let completion_info :=
      set_saw_explicit_location_option completion_info in
    round_tail opt (set_label_name location oarg) argp
      completion_info true (negb (is_null oarg))
  else if chr_eq (at_ opt 0) "-"%char && negb (isdigit (at_ opt 1)) then
    if is_null completion_info
    then Raise (InvalidExplicitLocationArgument opt)
    else round_tail opt location argp completion_info false false
  else
    Ret (Break (mk_parser_state location start completion_info)).

(** The body of the [while] loop of [string_to_explicit_location]. *)
Definition explicit_location_round (language : language) (st : parser_state)
  : outcome round_end :=
  let location := location st in
  let argp := argp st in
  let completion_info :=
    set_quoted_arg_end (set_quoted_arg_start (completion st) None) None in
  if lex_keyword env argp
  then Ret (Break (mk_parser_state location argp completion_info))
  else
    let start := argp in
    let completion_info := set_last_option completion_info (Some start) in
    r <- explicit_location_lex_one env argp language None ;;
    let '(opt, argp, _) := r in
    match opt with
    | None => Segv
    | Some opt =>
        round_on_option language location start completion_info opt argp
    end.

(** The [while] loop of [string_to_explicit_location]. *)
Fixpoint explicit_location_loop (fuel : nat) (language : language)
  (st : parser_state) : outcome parser_state :=
  if negb (is_nul (peek (argp st))) && negb (chr_eq (peek (argp st)) ","%char)
  then
    match fuel with
    | 0 => Timeout
    | S fuel' =>
        r <- explicit_location_round language st ;;
        match r with
        | Continue st' => explicit_location_loop fuel' language st'
        | Break st' => Ret st'
        end
    end
  else Ret st.

(** The check in front of the loop. *)
Definition not_an_explicit_location (p : cstring) : bool :=
  negb (chr_eq (at_ p 0) "-"%char)
  || negb (isalpha (at_ p 1))
  || (chr_eq (at_ p 0) "-"%char && chr_eq (at_ p 1) "p"%char).

(** The check behind the loop. *)
Definition source_filename_alone (l : explicit_location) : bool :=
  negb (is_null (source_filename l))
  && is_null (function_name l)
  && is_null (label_name l)
  && is_UNKNOWN (sign (line_offset_of l)).

(** [string_to_explicit_location (argp, language, completion_info)]; the
    first argument is [*argp], which the result carries in its new
    value. *)
Definition string_to_explicit_location (arg : option cstring)
  (language : language) (completion_info : option explicit_completion_info)
  : outcome (option event_location * option cstring
             * option explicit_completion_info) :=
  match arg with
  | None => Ret (None, None, completion_info)
  | Some p =>
      if not_an_explicit_location p then Ret (None, arg, completion_info)
      else
        st <- explicit_location_loop (S (List.length p)) language
                (mk_parser_state (copy_loc None) p completion_info) ;;
        if source_filename_alone (location st) && is_null completion_info
        then Raise SourceFilenameRequires
        else Ret (Some (mk_event_location [] (explicit_data (location st))),
                  Some (argp st), completion st)
  end.

(** ** The top-level dispatcher *)

(** The constructor of [event_location_linespec]; the second component is
    the new [*linespec]. *)
Definition new_linespec_location (linespec : option cstring)
  (match_type : symbol_name_match_type)
  : outcome (event_location * option cstring) :=
  match linespec with
  | None =>
      Ret (mk_event_location []
             (linespec_data (mk_linespec_location match_type None)), None)
  | Some orig =>
      n <- linespec_lex_to_end env orig ;;
      let p := remove_trailing_whitespace orig n in
      let spec := if 0 <? p then Some (savestring orig p) else None in
      Ret (mk_event_location []
             (linespec_data (mk_linespec_location match_type spec)),
           Some (skipn n orig))
  end.

(** [string_to_event_location_basic (stringp, language, match_type)] *)
Definition string_to_event_location_basic (stringp : option cstring)
  (language : language) (match_type : symbol_name_match_type)
  : outcome (event_location * option cstring) :=
  match stringp with
  | Some s =>
      if probe_linespec_to_static_ops env s
      then Ret (new_probe_location (std_string_of s),
                Some (skipn (strlen s) s))
      else if chr_eq (peek s) "*"%char then
        r <- linespec_expression_to_pc env s ;;
        let '(addr, n) := r in
        Ret (new_address_location addr (Some s) n, Some (skipn n s))
      else new_linespec_location stringp match_type
  | None => new_linespec_location stringp match_type
  end.

(** [string_to_event_location (stringp, language, match_type)] *)
Definition string_to_event_location (stringp : option cstring)
  (language : language) (match_type : symbol_name_match_type)
  : outcome (event_location * option cstring) :=
  r <- string_to_explicit_location stringp language None ;;
  let '(location, arg, _) := r in
  match location with
  | Some location =>
      let stringp := arg in
      if negb (event_location_empty_p location)
      then Ret (location, stringp)
      else
        match data location with
        | explicit_data xloc =>
            string_to_event_location_basic stringp language
              (func_name_match_type xloc)
        | _ => Segv
        end
  | None => string_to_event_location_basic stringp language match_type
  end.

End Parser.

(** ** An instance of the collaborators

    A small instance, used to run the parser on concrete input.  On the
    inputs used below it answers as linespec.c, probe.c and utils.c do:
    the quote characters are the double and the single quote, [if]
    followed by whitespace is a linespec keyword, a probe specification
    starts with [-p] or [-probe] and whitespace, an address expression is
    a hexadecimal literal, a line offset is an optional sign and decimal
    digits, the linespec tokenizer runs up to a top-level comma, and
    [find_toplevel_char] finds the first occurrence outside quotes. *)

Definition sample_lex_keyword (p : cstring) : bool :=
  startswith p (cs "if") && isspace (at_ p 2).

Fixpoint atoi_from (acc : Z) (s : cstring) : Z :=
  match s with
  | [] => acc
  | c :: r =>
      if isdigit c
      then atoi_from (acc * 10 + (Z.of_nat (nat_of_ascii c) - 48))%Z r
      else acc
  end.

Definition sample_parse_line_offset (s : cstring) : outcome line_offset :=
  let '(sg, digits) :=
    if chr_eq (peek s) "+"%char then (LINE_OFFSET_PLUS, tl s)
    else if chr_eq (peek s) "-"%char then (LINE_OFFSET_MINUS, tl s)
    else (LINE_OFFSET_NONE, s) in
  if negb (is_nul (peek digits)) && negb (isdigit (peek digits))
  then Raise (CollaboratorError s)
  else Ret {| offset := atoi_from 0%Z digits; sign := sg |}.

Definition sample_probe (s : cstring) : bool :=
  startswith s (cs "-probe ") || startswith s (cs "-p ").

Definition hex_digit (c : ascii) : option Z :=
  let n := nat_of_ascii c in
  if isdigit c then Some (Z.of_nat n - 48)%Z
  else if (97 <=? n) && (n <=? 102) then Some (Z.of_nat n - 87)%Z
  else None.

Fixpoint hex_span (s : cstring) : nat :=
  match s with
  | [] => 0
  | c :: r => match hex_digit c with Some _ => S (hex_span r) | None => 0 end
  end.

Fixpoint hex_from (acc : Z) (s : cstring) : Z :=
  match s with
  | [] => acc
  | c :: r =>
      match hex_digit c with
      | Some d => hex_from (acc * 16 + d)%Z r
      | None => acc
      end
  end.

Definition sample_expression_to_pc (s : cstring) : outcome (CORE_ADDR * nat) :=
  if startswith s (cs "*0x") && (0 <? hex_span (skipn 3 s))
  then Ret (hex_from 0%Z (skipn 3 s), 3 + hex_span (skipn 3 s))
  else Raise (CollaboratorError s).

Definition sample_lex_to_end (s : cstring) : outcome nat :=
  Ret (match find_end_quote s ","%char with
       | Some k => k
       | None => strlen s
       end).

Definition sample_core_addr_to_string (a : CORE_ADDR) : cstring :=
  cs ("0x" ++ HexadecimalString.NilZero.string_of_uint (N.to_hex_uint (Z.to_N a))).

Definition sample_collaborators : collaborators :=
  {| quote_characters := [DQUOTE; "'"%char];
     lex_keyword := sample_lex_keyword;
     find_toplevel_char := find_end_quote;
     is_ada_operator := fun _ => false;
     linespec_parse_line_offset := sample_parse_line_offset;
     probe_linespec_to_static_ops := sample_probe;
     linespec_expression_to_pc := sample_expression_to_pc;
     linespec_lex_to_end := sample_lex_to_end;
     core_addr_to_string := sample_core_addr_to_string |}.

(** ** Fixing the answers of a collaborator on given arguments

    A hypothesis of the form [lex_keyword env p = false] for the strings
    [p] of a list lets the parser run by computation: the collaborator is
    replaced by a function that answers by table on the list and as the
    collaborator elsewhere, which is the same function. *)

Fixpoint cstring_eqb (a b : cstring) : bool :=
  match a, b with
  | [], [] => true
  | x :: a', y :: b' => Ascii.eqb x y && cstring_eqb a' b'
  | _, _ => false
  end.

Definition answer_on {B : Type} (dom : list cstring) (v : B)
  (f : cstring -> B) (p : cstring) : B :=
  if existsb (cstring_eqb p) dom then v else f p.

(** All the pointers [p], [p + 1], ... into a string. *)
Fixpoint tails (p : cstring) : list cstring :=
  match p with
  | [] => [[]]
  | _ :: r => p :: tails r
  end.

Definition with_quote_characters (env : collaborators) (q : cstring)
  : collaborators :=
  mk_collaborators q (lex_keyword env) (find_toplevel_char env)
    (is_ada_operator env) (linespec_parse_line_offset env)
    (probe_linespec_to_static_ops env) (linespec_expression_to_pc env)
    (linespec_lex_to_end env) (core_addr_to_string env).

Definition with_lex_keyword (env : collaborators) (f : cstring -> bool)
  : collaborators :=
  mk_collaborators (quote_characters env) f (find_toplevel_char env)
    (is_ada_operator env) (linespec_parse_line_offset env)
    (probe_linespec_to_static_ops env) (linespec_expression_to_pc env)
    (linespec_lex_to_end env) (core_addr_to_string env).

Definition with_parse_line_offset (env : collaborators)
  (f : cstring -> outcome line_offset) : collaborators :=
  mk_collaborators (quote_characters env) (lex_keyword env)
    (find_toplevel_char env) (is_ada_operator env) f
    (probe_linespec_to_static_ops env) (linespec_expression_to_pc env)
    (linespec_lex_to_end env) (core_addr_to_string env).

Definition with_probe (env : collaborators) (f : cstring -> bool)
  : collaborators :=
  mk_collaborators (quote_characters env) (lex_keyword env)
    (find_toplevel_char env) (is_ada_operator env)
    (linespec_parse_line_offset env) f (linespec_expression_to_pc env)
    (linespec_lex_to_end env) (core_addr_to_string env).

Definition with_lex_to_end (env : collaborators)
  (f : cstring -> outcome nat) : collaborators :=
  mk_collaborators (quote_characters env) (lex_keyword env)
    (find_toplevel_char env) (is_ada_operator env)
    (linespec_parse_line_offset env) (probe_linespec_to_static_ops env)
    (linespec_expression_to_pc env) f (core_addr_to_string env).

(** The quote characters of linespec.c. *)
Definition linespec_quote_characters : cstring := [DQUOTE; "'"%char].

(** ** Rendering in the words of the specification

    The fields that are present, in the order source, function, label,
    line, each with its flag name unless the rendering is the
    linespec-compatible one, joined by one separator. *)

Definition flag (as_linespec : bool) (name : string) : std_string :=
  if as_linespec then [] else cs name.

Definition present_fields (as_linespec : bool) (e : explicit_location)
  : list std_string :=
  match source_filename e with
  | Some src => [flag as_linespec "-source " ++ std_string_of src]
  | None => []
  end
  ++ match function_name e with
     | Some fn =>
         [(if is_FULL (func_name_match_type e) then cs "-qualified " else [])
          ++ flag as_linespec "-function " ++ std_string_of fn]
     | None => []
     end
  ++ match label_name e with
     | Some lbl => [flag as_linespec "-label " ++ std_string_of lbl]
     | None => []
     end
  ++ match sign (line_offset_of e) with
     | LINE_OFFSET_UNKNOWN => []
     | sg => [flag as_linespec "-line " ++ sign_prefix sg
              ++ print_int (offset (line_offset_of e))]
     end.

Fixpoint join (sep : ascii) (parts : list std_string) : std_string :=
  match parts with
  | [] => []
  | [x] => x
  | x :: rest => x ++ sep :: join sep rest
  end.

(** ** What [to_string] returns and how often it computes

    The pointer returned by every call of [to_string] on an object, and
    the number of calls of [compute_string] over [n] calls in a row, read
    off the definition of [to_string]: a non-empty cache is returned as it
    is; an empty cache is filled by [compute_string]; an empty result
    leaves the cache empty. *)

Definition rendering (env : collaborators) (l : event_location)
  : option cstring :=
  if negb (std_empty (as_string l)) then Some (as_string l)
  else if negb (std_empty (compute_string env l))
       then Some (compute_string env l)
       else None.

Definition computations (env : collaborators) (n : nat) (l : event_location)
  : nat :=
  if negb (std_empty (as_string l)) then 0
  else if negb (std_empty (compute_string env l)) then Nat.min n 1
  else n.

(** The location that [string_to_event_location] builds from the empty
    string: a linespec without spec string. *)
Definition empty_linespec_location : event_location :=
  mk_event_location [] (linespec_data (mk_linespec_location WILD None)).

(** ** Strict mode against completion mode

    Two parser states that differ in the completion info only: the first
    is a state of strict parsing, the second of parsing for completion. *)

Definition same_state (s s' : parser_state) : Prop :=
  location s = location s' /\ argp s = argp s'
  /\ completion s = None /\ completion s' <> None.

Definition same_end (r r' : round_end) : Prop :=
  match r, r' with
  | Continue s, Continue s' => same_state s s'
  | Break s, Break s' => same_state s s'
  | _, _ => False
  end.

(** ** Quoted tokens without closing quote

    What a lexer returns for such a token when completion is supported:
    the rest of the string behind the opening quote, with [*inp] at the
    end of the string. *)

Definition rest_as_token (inp : cstring)
  (ci : option explicit_completion_info) : lexed :=
  (Some (std_string_of (tl inp)), skipn (strlen inp) inp,
   set_quoted_arg_start ci (Some inp)).

(** A completion info as the completer hands it in. *)
Definition no_completion_info : explicit_completion_info :=
  mk_completion_info None None None false.

(** The explicit locations of the examples. *)
Definition foo_c : explicit_location :=
  set_source_filename initialize_explicit_location (Some (cs "foo.c")).

Definition foo_c_line_10 : explicit_location :=
  set_line_offset foo_c (mk_line_offset 10 LINE_OFFSET_NONE).

(** ** The spec string of a linespec location *)

(** A string without its trailing whitespace, and without whitespace at
    either end. *)
Definition strip_trailing (s : cstring) : cstring :=
  rev (skip_spaces (rev s)).

Definition strip (s : cstring) : cstring := strip_trailing (skip_spaces s).

(** A [char *] member: null for the empty string, the string otherwise. *)
Definition if_not_empty (s : cstring) : option cstring :=
  match s with [] => None | _ => Some s end.

(** The linespec location with the given members. *)
Definition linespec_location_of (m : symbol_name_match_type)
  (spec : option cstring) : event_location :=
  mk_event_location [] (linespec_data (mk_linespec_location m spec)).

(** C8 as stated, for one tokenizer and one input: the spec string is the
    text that the tokenizer consumed, without leading and trailing
    whitespace, and it is there if and only if that text is not empty. *)
Definition spec_string_is_stripped (env : collaborators) (input : cstring)
  (m : symbol_name_match_type) : Prop :=
  forall n : nat,
    linespec_lex_to_end env input = Ret n ->
    n <= List.length input ->
    new_linespec_location env (Some input) m
    = Ret (linespec_location_of m (if_not_empty (strip (firstn n input))),
           Some (skipn n input)).

(** ** Parses that agree on everything but the completion info

    Two outcomes of a parse are alike when both return, with results
    related by [R], or both fail in the same way.  Two failures are the
    same when they are the same error; the missing-argument error quotes
    the option as it was typed, which is not compared. *)

Definition same_failure (e e' : gdb_error) : Prop :=
  match e, e' with
  | MissingArgument _, MissingArgument _ => True
  | _, _ => e = e'
  end.

Definition alike {A : Type} (R : A -> A -> Prop) (o o' : outcome A) : Prop :=
  match o, o' with
  | Ret a, Ret a' => R a a'
  | Raise e, Raise e' => same_failure e e'
  | Segv, Segv => True
  | Overrun, Overrun => True
  | Timeout, Timeout => True
  | _, _ => False
  end.

Definition alike_lexed (r r' : lexed) : Prop :=
  fst (fst r) = fst (fst r') /\ snd (fst r) = snd (fst r')
  /\ is_null (snd r) = is_null (snd r').

Definition alike_state (s s' : parser_state) : Prop :=
  location s = location s' /\ argp s = argp s'
  /\ is_null (completion s) = is_null (completion s').

Definition alike_end (r r' : round_end) : Prop :=
  match r, r' with
  | Continue s, Continue s' => alike_state s s'
  | Break s, Break s' => alike_state s s'
  | _, _ => False
  end.

(** The location and the cursor of two parses are equal. *)
Definition same_location
  (r r' : option event_location * option cstring
          * option explicit_completion_info) : Prop :=
  fst (fst r) = fst (fst r') /\ snd (fst r) = snd (fst r').

(** ** What the parser needs from its collaborators to come to an end

    [find_toplevel_char] returns a pointer into the string it was given,
    and [linespec_parse_line_offset] returns or raises. *)

Definition well_behaved (env : collaborators) : Prop :=
  (forall (s : cstring) (c : ascii) (k : nat),
     find_toplevel_char env s c = Some k -> k < List.length s)
  /\ (forall s : cstring,
        linespec_parse_line_offset env s <> Timeout
        /\ linespec_parse_line_offset env s <> Segv).

(** An outcome of the code proper: it returned or it raised. *)
Definition finished {A : Type} (o : outcome A) : Prop :=
  match o with
  | Ret _ | Raise _ | Segv | Overrun => True
  | Timeout => False
  end.

(** ** Rendering a location and parsing the rendering again *)

(** The text holds no NUL: the list is the C string. *)
Definition no_nul (s : cstring) : Prop := Forall (fun c => is_nul c = false) s.

(** The linespec tokenizer leaves its cursor inside the string. *)
Definition tokenizer_inside (env : collaborators) : Prop :=
  forall (s : cstring) (n : nat),
    linespec_lex_to_end env s = Ret n -> n <= List.length s.


(** The option loop of the explicit-location parser stops in front of
    [s]: at the end of the string, at a comma, or with [break]. *)
Definition stops_option_loop (env : collaborators) (lang : language)
  (s : cstring) : Prop :=
  negb (is_nul (peek s)) && negb (chr_eq (peek s) ","%char) = false
  \/ forall (loc : explicit_location)
            (ci : option explicit_completion_info),
       exists st',
         explicit_location_round env lang (mk_parser_state loc s ci)
         = Ret (Break st')
         /\ location st' = loc /\ argp st' = s.


(** ** The rendering of an explicit location, option by option *)

(** The options that [explicit_location_to_string] writes. *)
Inductive rendered_option : Type :=
| RSource (s : cstring)
| RQualified
| RFunction (f : cstring)
| RLabel (l : cstring)
| RLine (lo : line_offset).

(** The text of a line offset, [%s%d]. *)
Definition line_offset_text (lo : line_offset) : cstring :=
  sign_prefix (sign lo) ++ print_int (offset lo).

Definition option_text (o : rendered_option) : cstring :=
  match o with
  | RSource s => cs "-source " ++ s
  | RQualified => cs "-qualified"
  | RFunction f => cs "-function " ++ f
  | RLabel l => cs "-label " ++ l
  | RLine lo => cs "-line " ++ line_offset_text lo
  end.


(** What follows an option in the rendering: nothing, or a blank and the
    options behind it. *)
Definition text_behind (behind : list rendered_option) : cstring :=
  match behind with
  | [] => []
  | _ => " "%char :: join " "%char (map option_text behind)
  end.

(** The option lexes back, in front of [tail], to what was rendered: the
    option is no linespec keyword, its argument is lexed as one token up
    to [tail], and the text of a line offset parses to that line
    offset. *)
Definition lexes_back (env : collaborators) (lang : language)
  (o : rendered_option) (tail : cstring) : Prop :=
  lex_keyword env (option_text o ++ tail) = false
  /\ match o with
     | RSource a | RLabel a =>
         isspace (peek (a ++ tail)) = false
         /\ explicit_location_lex_one env (a ++ tail) lang None
            = Ret (Some a, tail, None)
     | RFunction a =>
         isspace (peek (a ++ tail)) = false
         /\ explicit_location_lex_one_function env (a ++ tail) lang None
            = Ret (Some a, tail, None)
     | RQualified => True
     | RLine lo =>
         isspace (peek (line_offset_text lo ++ tail)) = false
         /\ explicit_location_lex_one env (line_offset_text lo ++ tail) lang
              None
            = Ret (Some (line_offset_text lo), tail, None)
         /\ linespec_parse_line_offset env (line_offset_text lo) = Ret lo
     end.

Fixpoint all_lex_back (env : collaborators) (lang : language)
  (options : list rendered_option) : Prop :=
  match options with
  | [] => True
  | o :: behind =>
      lexes_back env lang o (text_behind behind)
      /\ all_lex_back env lang behind
  end.

(** What the parser stores for a rendered option. *)
Definition store_option (loc : explicit_location) (o : rendered_option)
  : explicit_location :=
  match o with
  | RSource s => set_source_filename loc (Some s)
  | RQualified => set_func_name_match_type loc FULL
  | RFunction f => set_function_name loc (Some f)
  | RLabel l => set_label_name loc (Some l)
  | RLine lo => set_line_offset loc lo
  end.


(** ** Copies, accessors and the string setter of locations *)

(** [xstrdup (s)]: a fresh copy of the C string at [s]. *)
Definition xstrdup (s : cstring) : cstring := std_string_of s.

(** [clone] of the four classes, that is, their copy constructors: the
    base class copies [as_string]; the linespec class copies its member
    and duplicates the spec string; the address class copies the address;
    the explicit class runs [copy_loc]. *)
Definition clone (l : event_location) : event_location :=
  match data l with
  | probe_data => {| as_string := as_string l; data := probe_data |}
  | linespec_data ls =>
      {| as_string := as_string l;
         data := linespec_data
                   {| match_type := match_type ls;
                      spec_string := option_map xstrdup (spec_string ls) |} |}
  | address_data a => {| as_string := as_string l; data := address_data a |}
  | explicit_data e =>
      {| as_string := as_string l; data := explicit_data (copy_loc (Some e)) |}
  end.

Definition copy_event_location (src : event_location) : event_location :=
  clone src.

(** The accessors.  Each starts with a [gdb_assert] on the type of the
    location; [None] stands for the internal error of a failed
    assertion. *)
Definition get_linespec_location (location : event_location)
  : option linespec_location :=
  match data location with
  | linespec_data ls => Some ls
  | _ => None
  end.

Definition get_address_location (location : event_location)
  : option CORE_ADDR :=
  match data location with
  | address_data a => Some a
  | _ => None
  end.

Definition get_explicit_location (location : event_location)
  : option explicit_location :=
  match data location with
  | explicit_data e => Some e
  | _ => None
  end.

Definition get_explicit_location_const (location : event_location)
  : option explicit_location :=
  match data location with
  | explicit_data e => Some e
  | _ => None
  end.

(** The two accessors that return [location->to_string ()]. *)
Definition get_address_string_location (env : collaborators)
  (location : event_location) : option to_string_result :=
  match type_of location with
  | ADDRESS_LOCATION => Some (to_string env location)
  | _ => None
  end.

Definition get_probe_location (env : collaborators)
  (location : event_location) : option to_string_result :=
  match type_of location with
  | PROBE_LOCATION => Some (to_string env location)
  | _ => None
  end.

(** [set_event_location_string (location, string)] *)
Definition set_event_location_string (location : event_location)
  (string : std_string) : event_location :=
  {| as_string := string; data := data location |}.

(** ** Characters of unquoted tokens *)

(** A character that is no NUL, no whitespace and no comma. *)
Definition plain (c : ascii) : Prop :=
  is_nul c = false /\ isspace c = false /\ chr_eq c ","%char = false.

(** Where the scan of an unquoted token stops: at the end of the string,
    at a comma, at whitespace, or in front of a character that a linespec
    keyword follows. *)
Definition stops_token (env : collaborators) (q : cstring) : bool :=
  is_nul (peek q) || chr_eq (peek q) ","%char || isspace (peek q)
  || lex_keyword env (tl q).

(** [q] is [p + k] for a [k] that is no more than the length of the
    string at [p]: a pointer to one of its characters or to its
    terminating NUL. *)
Definition points_into (p q : cstring) : Prop :=
  exists k : nat, k <= List.length p /\ q = skipn k p.

(** The collaborators that return pointers return pointers into the
    string they were given. *)
Definition stay_inside (env : collaborators) : Prop :=
  (forall (s : cstring) (c : ascii) (k : nat),
     find_toplevel_char env s c = Some k -> k < List.length s)
  /\ (forall (s : cstring) (n : nat),
        linespec_lex_to_end env s = Ret n -> n <= List.length s)
  /\ (forall (s : cstring) (a : CORE_ADDR) (n : nat),
        linespec_expression_to_pc env s = Ret (a, n) -> n <= List.length s).

(** The string ends with the word [operator]. *)
Definition ends_with_operator (s : cstring) : Prop :=
  exists front : cstring, s = front ++ CP_OPERATOR_STR.

(** ** The errors of parsing for completion *)

(** An error that the parser raises when it is given a completion info:
    an unmatched quote, or what [linespec_parse_line_offset] raised. *)
Definition raised_for_completion (env : collaborators) (e : gdb_error)
  : Prop :=
  (exists t : cstring, e = UnmatchedQuote t)
  \/ (exists a : cstring, linespec_parse_line_offset env a = Raise e).

(** ** What basic resolution consumes *)

(** The string that [to_string] hands out, the empty string for null. *)
Definition string_or_empty (r : option cstring) : cstring :=
  match r with
  | Some s => s
  | None => []
  end.

(** A string of whitespace. *)
Definition blank (ws : cstring) : Prop := Forall (fun c => isspace c = true) ws.

(** ** The names of the options and their shortest abbreviations *)

(** The option names, in the order in which the loop tries them. *)
Definition option_names : list cstring :=
  [cs "-source"; cs "-function"; cs "-qualified"; cs "-line"; cs "-label"].

(** The option name that the loop takes a token for: the first one that
    starts with the token. *)
Definition dispatched_to (opt : cstring) : option cstring :=
  find (fun name => strncmp_eq opt name (strlen opt)) option_names.

(** The shortest token that the loop takes for each option, with the
    option it is taken for. *)
Definition shortest_abbreviations : list (cstring * cstring) :=
  [(cs "-s", cs "-source"); (cs "-f", cs "-function");
   (cs "-q", cs "-qualified"); (cs "-l", cs "-line");
   (cs "-la", cs "-label")].

(** The shortest token that the loop takes for the option that [o] was
    rendered from. *)
Definition shortest_abbreviation (o : rendered_option) : cstring :=
  match o with
  | RSource _ => cs "-s"
  | RQualified => cs "-q"
  | RFunction _ => cs "-f"
  | RLabel _ => cs "-la"
  | RLine _ => cs "-l"
  end.

(** Strict parsing takes the argument of the option [o] from the text
    [T] and leaves the cursor at [rest]: the lexer of the option returns
    the argument, and the text of a line offset parses to the line
    offset.  [-qualified] takes no argument. *)
Definition takes_argument (env : collaborators) (lang : language)
  (o : rendered_option) (T rest : cstring) : Prop :=
  match o with
  | RSource a | RLabel a =>
      explicit_location_lex_one env (skip_spaces T) lang None
      = Ret (Some a, rest, None)
  | RFunction a =>
      explicit_location_lex_one_function env (skip_spaces T) lang None
      = Ret (Some a, rest, None)
  | RQualified => rest = T
  | RLine lo =>
      exists a : cstring,
        explicit_location_lex_one env (skip_spaces T) lang None
        = Ret (Some a, rest, None)
        /\ linespec_parse_line_offset env a = Ret lo
  end.

(** ** The word [operator] in front of a delimiter *)

(** A character of an identifier. *)
Definition identifier_char (c : ascii) : bool :=
  isalnum c || chr_eq c "_"%char.

(** The text in front of a delimiter ends in the word [operator] and
    whitespace behind it, and the word does not continue an
    identifier. *)
Definition ends_in_operator (text : cstring) : Prop :=
  exists pre ws : cstring,
    text = pre ++ CP_OPERATOR_STR ++ ws
    /\ blank ws
    /\ (pre = [] \/ identifier_char (last pre NUL) = false).

(** ** An instance of the collaborators for Ada

    As the instance above, but the string that starts with a plus sign
    between double quotes is an operator. *)
Definition ada_collaborators : collaborators :=
  mk_collaborators (quote_characters sample_collaborators)
    (lex_keyword sample_collaborators)
    (find_toplevel_char sample_collaborators)
    (fun s => startswith s [DQUOTE; "+"%char; DQUOTE])
    (linespec_parse_line_offset sample_collaborators)
    (probe_linespec_to_static_ops sample_collaborators)
    (linespec_expression_to_pc sample_collaborators)
    (linespec_lex_to_end sample_collaborators)
    (core_addr_to_string sample_collaborators).

(** * Program spaces in Python: a shallow embedding of
      gdb/python/py-progspace.c

    Conventions of the embedding.

    - A [PyObject *] is an index into the store of Python objects; a
      pointer that may be null is an [option].  The store holds, for every
      object, its reference count and what the file needs of its contents:
      whether it is a list or a dictionary, the members of a
      [pspace_object].
    - An object whose reference count fell to zero stays in the store
      with the count zero.  [tp_dealloc] of [pspace_object] is
      [pspy_dealloc]; what Python does to deallocate a list or a
      dictionary is not part of the file and is not modelled.
    - The allocator of Python hands out [allocations_left] more objects
      and fails from then on.
    - A function that returns [NULL] or [-1] with the error indicator set
      returns [Raised]; a function that dereferences a null pointer, or
      takes for a [pspace_object] what is none, has no result
      ([None]). *)

Definition py_ref := nat.
Definition program_space := nat.
Definition objfile := nat.
Definition compunit_symtab := nat.
Definition block := nat.
Definition symtab_and_line := nat.

(** What a call into GDB inside [try] comes to: a value, or a
    [gdb_exception]. *)
Inductive gdb_try (A : Type) : Type :=
| Gdb_value (a : A)
| Gdb_exception.

Arguments Gdb_value {A} a.
Arguments Gdb_exception {A}.

(** [struct pspace_object], behind its [PyObject_HEAD]. *)
Record pspace_object : Type := mk_pspace_object {
  pspace : option program_space;
  dict : option py_ref;
  printers : option py_ref;
  frame_filters : option py_ref;
  frame_unwinders : option py_ref;
  type_printers : option py_ref;
  xmethods : option py_ref
}.

Inductive py_payload : Type :=
| Py_NoneType
| Py_Bool (b : bool)
| Py_Str (s : cstring)
| Py_List (items : list py_ref)
| Py_Dict
| Py_Pspace (members : pspace_object)
| Py_Foreign (what : nat).

Record py_cell : Type := mk_py_cell {
  ob_refcnt : nat;
  ob_payload : py_payload
}.

Inductive py_exception : Type :=
| PyExc_TypeError (msg : string)
| PyExc_RuntimeError (msg : string)
| PyExc_MemoryError
| Py_raised_by (callee : string).

Record py_world : Type := mk_py_world {
  heap : list py_cell;
  allocations_left : nat;
  (** [program_space_data (pspace, pspy_pspace_data_key)] *)
  program_space_data : list (program_space * py_ref)
}.

Inductive py_answer (A : Type) : Type :=
| Answer (a : A)
| Raised (e : py_exception).

Arguments Answer {A} a.
Arguments Raised {A} e.

Definition py_result (A : Type) : Type := option (py_answer A * py_world).

(** The singletons [Py_None], [Py_True] and [Py_False]. *)
Definition Py_None : py_ref := 0.
Definition Py_True : py_ref := 1.
Definition Py_False : py_ref := 2.

(** ** The store *)

Fixpoint store {A : Type} (l : list A) (n : nat) (x : A) : list A :=
  match l, n with
  | [], _ => []
  | _ :: r, 0 => x :: r
  | y :: r, S k => y :: store r k x
  end.

Definition with_heap (w : py_world) (h : list py_cell) : py_world :=
  {| heap := h;
     allocations_left := allocations_left w;
     program_space_data := program_space_data w |}.

Definition Py_INCREF (w : py_world) (o : py_ref) : py_world :=
  match nth_error (heap w) o with
  | Some c =>
      with_heap w (store (heap w) o (mk_py_cell (S (ob_refcnt c)) (ob_payload c)))
  | None => w
  end.

(** [Py_DECREF] on an object that is no [pspace_object]. *)
Definition Py_DECREF_plain (w : py_world) (o : py_ref) : py_world :=
  match nth_error (heap w) o with
  | Some c =>
      with_heap w (store (heap w) o (mk_py_cell (ob_refcnt c - 1) (ob_payload c)))
  | None => w
  end.

Definition Py_XDECREF_plain (w : py_world) (o : option py_ref) : py_world :=
  match o with
  | Some r => Py_DECREF_plain w r
  | None => w
  end.

(** [PyList_Check] and [PyDict_Check]. *)
Definition PyList_Check (w : py_world) (o : py_ref) : bool :=
  match nth_error (heap w) o with
  | Some {| ob_payload := Py_List _ |} => true
  | _ => false
  end.

Definition PyDict_Check (w : py_world) (o : py_ref) : bool :=
  match nth_error (heap w) o with
  | Some {| ob_payload := Py_Dict |} => true
  | _ => false
  end.

(** A new object with one reference, or null. *)
Definition py_new_object (w : py_world) (p : py_payload)
  : option py_ref * py_world :=
  match allocations_left w with
  | 0 => (None, w)
  | S k =>
      (Some (List.length (heap w)),
       {| heap := heap w ++ [mk_py_cell 1 p];
          allocations_left := k;
          program_space_data := program_space_data w |})
  end.

Definition PyDict_New (w : py_world) : option py_ref * py_world :=
  py_new_object w Py_Dict.

(** [PyList_New (0)] *)
Definition PyList_New (w : py_world) : option py_ref * py_world :=
  py_new_object w (Py_List []).

(** [Py_RETURN_NONE], [Py_RETURN_TRUE], [Py_RETURN_FALSE]. *)
Definition Py_RETURN (w : py_world) (singleton : py_ref) : py_result py_ref :=
  Some (Answer singleton, Py_INCREF w singleton).

(** ** The members of a [pspace_object] *)

(** The cast [(pspace_object * ) o] and a read of the members. *)
Definition members_of (w : py_world) (o : py_ref) : option pspace_object :=
  match nth_error (heap w) o with
  | Some {| ob_payload := Py_Pspace m |} => Some m
  | _ => None
  end.

Definition set_members (w : py_world) (o : py_ref) (m : pspace_object)
  : py_world :=
  match nth_error (heap w) o with
  | Some c => with_heap w (store (heap w) o (mk_py_cell (ob_refcnt c) (Py_Pspace m)))
  | None => w
  end.

Definition set_pspace (m : pspace_object) (v : option program_space)
  : pspace_object :=
  mk_pspace_object v (dict m) (printers m) (frame_filters m)
    (frame_unwinders m) (type_printers m) (xmethods m).

Definition set_dict (m : pspace_object) (v : option py_ref) : pspace_object :=
  mk_pspace_object (pspace m) v (printers m) (frame_filters m)
    (frame_unwinders m) (type_printers m) (xmethods m).

Definition set_printers (m : pspace_object) (v : option py_ref)
  : pspace_object :=
  mk_pspace_object (pspace m) (dict m) v (frame_filters m)
    (frame_unwinders m) (type_printers m) (xmethods m).

Definition set_frame_filters (m : pspace_object) (v : option py_ref)
  : pspace_object :=
  mk_pspace_object (pspace m) (dict m) (printers m) v
    (frame_unwinders m) (type_printers m) (xmethods m).

Definition set_frame_unwinders (m : pspace_object) (v : option py_ref)
  : pspace_object :=
  mk_pspace_object (pspace m) (dict m) (printers m) (frame_filters m)
    v (type_printers m) (xmethods m).

Definition set_type_printers (m : pspace_object) (v : option py_ref)
  : pspace_object :=
  mk_pspace_object (pspace m) (dict m) (printers m) (frame_filters m)
    (frame_unwinders m) v (xmethods m).

Definition set_xmethods (m : pspace_object) (v : option py_ref)
  : pspace_object :=
  mk_pspace_object (pspace m) (dict m) (printers m) (frame_filters m)
    (frame_unwinders m) (type_printers m) v.

(** An assignment [self->member = v]. *)
Definition assign (w : py_world) (self : py_ref)
  (set : pspace_object -> pspace_object) : py_world :=
  match members_of w self with
  | Some m => set_members w self (set m)
  | None => w
  end.

(** ** Allocation and deallocation of [pspace_object] *)

(** [pspy_dealloc (self)]; [tp_free] leaves the object in the store with
    no reference. *)
Definition pspy_dealloc (w : py_world) (ps_self : pspace_object) : py_world :=
  let w := Py_XDECREF_plain w (dict ps_self) in
  let w := Py_XDECREF_plain w (printers ps_self) in
  let w := Py_XDECREF_plain w (frame_filters ps_self) in
  let w := Py_XDECREF_plain w (frame_unwinders ps_self) in
  let w := Py_XDECREF_plain w (type_printers ps_self) in
  let w := Py_XDECREF_plain w (xmethods ps_self) in
  w.

(** [Py_DECREF]: the reference count goes down by one; at zero
    [tp_dealloc] runs, which is [pspy_dealloc] for a [pspace_object]. *)
Definition Py_DECREF (w : py_world) (o : py_ref) : py_world :=
  match nth_error (heap w) o with
  | Some c =>
      let w := Py_DECREF_plain w o in
      if ob_refcnt c - 1 =? 0 then
        match ob_payload c with
        | Py_Pspace m => pspy_dealloc w m
        | _ => w
        end
      else w
  | None => w
  end.

(** [pspy_initialize (self)]: the result is [true] for 1 and [false] for
    0.  Every member is assigned what the allocator returned, null
    included, before it is tested. *)
Definition pspy_initialize (w : py_world) (self : py_ref) : bool * py_world :=
  let w := assign w self (fun m => set_pspace m None) in
  let '(d, w) := PyDict_New w in
  let w := assign w self (fun m => set_dict m d) in
  match d with
  | None => (false, w)
  | Some _ =>
      let '(p, w) := PyList_New w in
      let w := assign w self (fun m => set_printers m p) in
      match p with
      | None => (false, w)
      | Some _ =>
          let '(f, w) := PyDict_New w in
          let w := assign w self (fun m => set_frame_filters m f) in
          match f with
          | None => (false, w)
          | Some _ =>
              let '(u, w) := PyList_New w in
              let w := assign w self (fun m => set_frame_unwinders m u) in
              match u with
              | None => (false, w)
              | Some _ =>
                  let '(t, w) := PyList_New w in
                  let w := assign w self (fun m => set_type_printers m t) in
                  match t with
                  | None => (false, w)
                  | Some _ =>
                      let '(x, w) := PyList_New w in
                      let w := assign w self (fun m => set_xmethods m x) in
                      match x with
                      | None => (false, w)
                      | Some _ => (true, w)
                      end
                  end
              end
          end
      end
  end.

(** The members of an object that [tp_alloc] returned: zero-filled. *)
Definition zero_filled : pspace_object :=
  mk_pspace_object None None None None None None None.

(** [pspy_new (type, args, keywords)].  The [gdbpy_ref] [self] releases
    its reference when the function returns without it. *)
Definition pspy_new (w : py_world) : py_result py_ref :=
  match py_new_object w (Py_Pspace zero_filled) with
  | (Some self, w) =>
      match pspy_initialize w self with
      | (false, w) => Some (Raised PyExc_MemoryError, Py_DECREF w self)
      | (true, w) => Some (Answer self, w)
      end
  | (None, w) => Some (Raised PyExc_MemoryError, w)
  end.

(** ** The attributes *)

(** The getters: [Py_INCREF (self->member); return self->member;]. *)
Definition get_member (field : pspace_object -> option py_ref) (w : py_world)
  (o : py_ref) : py_result py_ref :=
  match members_of w o with
  | Some self =>
      match field self with
      | Some r => Some (Answer r, Py_INCREF w r)
      | None => None
      end
  | None => None
  end.

Definition pspy_get_xmethods := get_member xmethods.

(** [pspy_set_printers (o, value, ignore)].  [tmp] takes over the
    reference that the member held and releases it when the function
    returns. *)
Definition pspy_set_printers (w : py_world) (o : py_ref)
  (value : option py_ref) : py_result unit :=
  match members_of w o with
  | None => None
  | Some self =>
      match value with
      | None =>
          Some (Raised (PyExc_TypeError
                          "cannot delete the pretty_printers attribute"), w)
      | Some value =>
          if negb (PyList_Check w value) then
            Some (Raised (PyExc_TypeError
                            "the pretty_printers attribute must be a list"), w)
          else
            let tmp := printers self in
            let w := Py_INCREF w value in
            let w := assign w o (fun m => set_printers m (Some value)) in
            Some (Answer tt, Py_XDECREF_plain w tmp)
      end
  end.

(** [pspy_set_frame_filters (o, frame, ignore)] *)
Definition pspy_set_frame_filters (w : py_world) (o : py_ref)
  (frame : option py_ref) : py_result unit :=
  match members_of w o with
  | None => None
  | Some self =>
      match frame with
      | None =>
          Some (Raised (PyExc_TypeError
                          "cannot delete the frame filter attribute"), w)
      | Some frame =>
          if negb (PyDict_Check w frame) then
            Some (Raised (PyExc_TypeError
                            "the frame filter attribute must be a dictionary"),
                  w)
          else
            let tmp := frame_filters self in
            let w := Py_INCREF w frame in
            let w := assign w o (fun m => set_frame_filters m (Some frame)) in
            Some (Answer tt, Py_XDECREF_plain w tmp)
      end
  end.

(** [pspy_set_frame_unwinders (o, unwinders, ignore)] *)
Definition pspy_set_frame_unwinders (w : py_world) (o : py_ref)
  (unwinders : option py_ref) : py_result unit :=
  match members_of w o with
  | None => None
  | Some self =>
      match unwinders with
      | None =>
          Some (Raised (PyExc_TypeError
                          "cannot delete the frame unwinders list"), w)
      | Some unwinders =>
          if negb (PyList_Check w unwinders) then
            Some (Raised (PyExc_TypeError
                            "the frame unwinders attribute must be a list"), w)
          else
            let tmp := frame_unwinders self in
            let w := Py_INCREF w unwinders in
            let w :=
              assign w o (fun m => set_frame_unwinders m (Some unwinders)) in
            Some (Answer tt, Py_XDECREF_plain w tmp)
      end
  end.

(** [pspy_set_type_printers (o, value, ignore)] *)
Definition pspy_set_type_printers (w : py_world) (o : py_ref)
  (value : option py_ref) : py_result unit :=
  match members_of w o with
  | None => None
  | Some self =>
      match value with
      | None =>
          Some (Raised (PyExc_TypeError
                          "cannot delete the type_printers attribute"), w)
      | Some value =>
          if negb (PyList_Check w value) then
            Some (Raised (PyExc_TypeError
                            "the type_printers attribute must be a list"), w)
          else
            let tmp := type_printers self in
            let w := Py_INCREF w value in
            let w := assign w o (fun m => set_type_printers m (Some value)) in
            Some (Answer tt, Py_XDECREF_plain w tmp)
      end
  end.

(** ** The side of GDB

    What the file asks of GDB proper: the objfiles of a program space and
    their names, the shared library, the compilation unit, the block and
    the line at an address, and the Python objects of an objfile, a block
    and a line.  The functions that read the current program space take
    the program space that [set_current_program_space] made current. *)
Record gdb_side : Type := mk_gdb_side {
  (** [pspace->symfile_object_file] *)
  symfile_object_file : program_space -> option objfile;
  (** [objfile_name (objfile)] *)
  objfile_name : objfile -> cstring;
  (** [pspace->objfiles ()] *)
  objfiles : program_space -> list objfile;
  (** [solib_name_from_address (pspace, pc)] *)
  solib_name_from_address : program_space -> Z -> option cstring;
  (** [objfile_to_objfile_object (objf)]: a new reference, or null *)
  objfile_to_objfile_object : py_world -> objfile -> option py_ref * py_world;
  (** [find_pc_compunit_symtab (pc)] *)
  find_pc_compunit_symtab :
    program_space -> Z -> gdb_try (option compunit_symtab);
  (** [COMPUNIT_OBJFILE (cust)] *)
  COMPUNIT_OBJFILE : compunit_symtab -> option objfile;
  (** [block_for_pc (pc)] *)
  block_for_pc : program_space -> Z -> gdb_try (option block);
  (** [block_to_block_object (block, objfile)] *)
  block_to_block_object :
    py_world -> block -> objfile -> option py_ref * py_world;
  (** [find_pc_line (pc, 0)] *)
  find_pc_line : program_space -> Z -> gdb_try symtab_and_line;
  (** [symtab_and_line_to_sal_object (sal)] *)
  symtab_and_line_to_sal_object :
    py_world -> symtab_and_line -> option py_ref * py_world
}.

(** [host_string_to_python_string (s)]: a new string object, or null. *)
Definition host_string_to_python_string (w : py_world) (s : cstring)
  : py_result py_ref :=
  match py_new_object w (Py_Str (std_string_of s)) with
  | (Some r, w) => Some (Answer r, w)
  | (None, w) => Some (Raised PyExc_MemoryError, w)
  end.

(** [pspy_get_filename (self, closure)] *)
Definition pspy_get_filename (gdb : gdb_side) (w : py_world) (self : py_ref)
  : py_result py_ref :=
  match members_of w self with
  | None => None
  | Some obj =>
      match pspace obj with
      | Some ps =>
          match symfile_object_file gdb ps with
          | Some objfile =>
              host_string_to_python_string w (objfile_name gdb objfile)
          | None => Py_RETURN w Py_None
          end
      | None => Py_RETURN w Py_None
      end
  end.

(** ** The methods *)

(** The error of [PSPY_REQUIRE_VALID]. *)
Definition no_longer_exists : py_exception :=
  PyExc_RuntimeError "Program space no longer exists.".

(** [PyList_Append (list, item)]: the list holds a new reference to the
    item.  The list grows without a new object, so that the call does not
    fail here. *)
Definition PyList_Append (w : py_world) (list_ item : py_ref) : py_world :=
  match nth_error (heap w) list_ with
  | Some {| ob_refcnt := n; ob_payload := Py_List items |} =>
      Py_INCREF
        (with_heap w (store (heap w) list_ (mk_py_cell n (Py_List (items ++ [item])))))
        item
  | _ => w
  end.

(** The loop of [pspy_get_objfiles] over the objfiles.  The [gdbpy_ref]
    [item] releases its reference at the end of every round, the
    [gdbpy_ref] [list] when the function returns without the list. *)
Fixpoint append_objfiles (gdb : gdb_side) (w : py_world) (list_ : py_ref)
  (objfs : list objfile) : py_result py_ref :=
  match objfs with
  | [] => Some (Answer list_, w)
  | objf :: rest =>
      match objfile_to_objfile_object gdb w objf with
      | (None, w) =>
          Some (Raised (Py_raised_by "objfile_to_objfile_object"),
                Py_DECREF_plain w list_)
      | (Some item, w) =>
          let w := PyList_Append w list_ item in
          let w := Py_DECREF_plain w item in
          append_objfiles gdb w list_ rest
      end
  end.

(** [pspy_get_objfiles (self_, args)] *)
Definition pspy_get_objfiles (gdb : gdb_side) (w : py_world) (self_ : py_ref)
  : py_result py_ref :=
  match members_of w self_ with
  | None => None
  | Some self =>
      match pspace self with
      | None => Some (Raised no_longer_exists, w)
      | Some ps =>
          match PyList_New w with
          | (None, w) => Some (Raised PyExc_MemoryError, w)
          | (Some list_, w) => append_objfiles gdb w list_ (objfiles gdb ps)
          end
      end
  end.

(** [pspy_solib_name (o, args)]; [args] is what [PyArg_ParseTuple] reads
    from the tuple, [None] when it fails. *)
Definition pspy_solib_name (gdb : gdb_side) (w : py_world) (o : py_ref)
  (args : option Z) : py_result py_ref :=
  match members_of w o with
  | None => None
  | Some self =>
      match pspace self with
      | None => Some (Raised no_longer_exists, w)
      | Some ps =>
          match args with
          | None => Some (Raised (Py_raised_by "PyArg_ParseTuple"), w)
          | Some pc =>
              match solib_name_from_address gdb ps pc with
              | None => Py_RETURN w Py_None
              | Some soname => host_string_to_python_string w soname
              end
          end
      end
  end.

(** What [GDB_PY_HANDLE_EXCEPTION] returns. *)
Definition gdb_exception_raised : py_exception :=
  Py_raised_by "GDB_PY_HANDLE_EXCEPTION".

(** A pointer to a Python object made elsewhere, as a result. *)
Definition returned_object (who : string) (r : option py_ref * py_world)
  : py_result py_ref :=
  match r with
  | (Some o, w) => Some (Answer o, w)
  | (None, w) => Some (Raised (Py_raised_by who), w)
  end.

(** [pspy_block_for_pc (o, args)] *)
Definition pspy_block_for_pc (gdb : gdb_side) (w : py_world) (o : py_ref)
  (args : option Z) : py_result py_ref :=
  match members_of w o with
  | None => None
  | Some self =>
      match pspace self with
      | None => Some (Raised no_longer_exists, w)
      | Some ps =>
          match args with
          | None => Some (Raised (Py_raised_by "PyArg_ParseTuple"), w)
          | Some pc =>
              match find_pc_compunit_symtab gdb ps pc with
              | Gdb_exception => Some (Raised gdb_exception_raised, w)
              | Gdb_value None => Py_RETURN w Py_None
              | Gdb_value (Some cust) =>
                  match COMPUNIT_OBJFILE gdb cust with
                  | None => Py_RETURN w Py_None
                  | Some objf =>
                      match block_for_pc gdb ps pc with
                      | Gdb_exception => Some (Raised gdb_exception_raised, w)
                      | Gdb_value (Some b) =>
                          returned_object "block_to_block_object"
                            (block_to_block_object gdb w b objf)
                      | Gdb_value None => Py_RETURN w Py_None
                      end
                  end
              end
          end
      end
  end.

(** [pspy_find_pc_line (o, args)] *)
Definition pspy_find_pc_line (gdb : gdb_side) (w : py_world) (o : py_ref)
  (args : option Z) : py_result py_ref :=
  match members_of w o with
  | None => None
  | Some self =>
      match pspace self with
      | None => Some (Raised no_longer_exists, w)
      | Some ps =>
          match args with
          | None => Some (Raised (Py_raised_by "PyArg_ParseTuple"), w)
          | Some pc_llu =>
              match find_pc_line gdb ps pc_llu with
              | Gdb_exception => Some (Raised gdb_exception_raised, w)
              | Gdb_value sal =>
                  returned_object "symtab_and_line_to_sal_object"
                    (symtab_and_line_to_sal_object gdb w sal)
              end
          end
      end
  end.

(** [pspy_is_valid (o, args)] *)
Definition pspy_is_valid (w : py_world) (o : py_ref) : py_result py_ref :=
  match members_of w o with
  | None => None
  | Some self =>
      match pspace self with
      | None => Py_RETURN w Py_False
      | Some _ => Py_RETURN w Py_True
      end
  end.

(** ** Program spaces and their objects *)

(** [py_free_pspace (pspace, datum)]: the [gdbpy_ref] [object] takes over
    the reference that the program space held and releases it at the
    end. *)
Definition py_free_pspace (w : py_world) (datum : py_ref) : option py_world :=
  match members_of w datum with
  | None => None
  | Some _ =>
      let w := assign w datum (fun m => set_pspace m None) in
      Some (Py_DECREF w datum)
  end.

Fixpoint lookup_data (d : list (program_space * py_ref)) (ps : program_space)
  : option py_ref :=
  match d with
  | [] => None
  | (p, r) :: rest => if p =? ps then Some r else lookup_data rest ps
  end.

(** [set_program_space_data (pspace, pspy_pspace_data_key, object)] *)
Definition set_program_space_data (w : py_world) (ps : program_space)
  (r : py_ref) : py_world :=
  {| heap := heap w;
     allocations_left := allocations_left w;
     program_space_data := (ps, r) :: program_space_data w |}.

(** [pspace_to_pspace_object (pspace)].  [PyObject_New] initializes the
    header of the new object and nothing else: [uninitialized] is what
    the memory of the members holds. *)
Definition pspace_to_pspace_object (w : py_world) (ps : program_space)
  (uninitialized : pspace_object) : py_result py_ref :=
  match lookup_data (program_space_data w) ps with
  | Some result => Some (Answer result, Py_INCREF w result)
  | None =>
      match py_new_object w (Py_Pspace uninitialized) with
      | (None, w) => Some (Raised PyExc_MemoryError, w)
      | (Some object, w) =>
          match pspy_initialize w object with
          | (false, w) => Some (Raised PyExc_MemoryError, Py_DECREF w object)
          | (true, w) =>
              let w := assign w object (fun m => set_pspace m (Some ps)) in
              let w := set_program_space_data w ps object in
              Some (Answer object, Py_INCREF w object)
          end
      end
  end.

(** ** Statements about the attributes *)

(** The contract of a setter, for the member it sets and the check it
    runs: it raises [TypeError] and touches nothing when the value is
    null or fails the check; otherwise it returns 0 with the member set
    to the value. *)
Definition setter_contract
  (setter : py_world -> py_ref -> option py_ref -> py_result unit)
  (check : py_world -> py_ref -> bool)
  (set : pspace_object -> option py_ref -> pspace_object)
  (w : py_world) (o : py_ref) (m : pspace_object) (value : option py_ref)
  : Prop :=
  match setter w o value with
  | Some (Raised (PyExc_TypeError _), w') =>
      w' = w
      /\ (value = None \/ exists v, value = Some v /\ check w v = false)
  | Some (Answer _, w') =>
      exists v, value = Some v /\ check w v = true
                /\ members_of w' o = Some (set m (Some v))
                /\ check w' v = true
  | _ => False
  end.

(** The reference count of an object, zero for what is no object. *)
Definition refcnt (w : py_world) (o : py_ref) : nat :=
  match nth_error (heap w) o with
  | Some c => ob_refcnt c
  | None => 0
  end.

(** The member holds a pointer to the object [k]. *)
Definition holds (member : option py_ref) (k : py_ref) : bool :=
  match member with
  | Some r => r =? k
  | None => false
  end.


(** The members that [pspy_initialize] leaves when all its allocations
    succeed on a store of [n] objects, the last of which is the object
    itself: a dictionary, a list, a dictionary and three lists. *)
Definition initialized_members (n : nat) : pspace_object :=
  {| pspace := None;
     dict := Some n;
     printers := Some (n + 1);
     frame_filters := Some (n + 2);
     frame_unwinders := Some (n + 3);
     type_printers := Some (n + 4);
     xmethods := Some (n + 5) |}.

Definition initialized_objects : list py_cell :=
  [mk_py_cell 1 Py_Dict; mk_py_cell 1 (Py_List []); mk_py_cell 1 Py_Dict;
   mk_py_cell 1 (Py_List []); mk_py_cell 1 (Py_List []);
   mk_py_cell 1 (Py_List [])].

(** One, when the member holds a pointer to the object [k]. *)
Definition released (member : option py_ref) (k : py_ref) : nat :=
  if holds member k then 1 else 0.

(** * Theorems *)

(** ** Rendering of explicit locations *)

(** C7.  Explicit rendering order: [explicit_to_string_internal] emits the
    fields that are present in the order source filename, function name,
    label name, line offset.  In the explicit form they are joined by one
    space and each carries its flag name, with [-qualified] in front of
    [-function] when the match type is FULL; in the linespec form they
    are joined by a colon and carry none of the flag names [-source],
    [-function], [-label], [-line]. *)
Theorem explicit_rendering_order (as_linespec : bool) (e : explicit_location) :
  explicit_to_string_internal as_linespec e
  = join (if as_linespec then ":"%char else " "%char)
         (present_fields as_linespec e)
  /\ explicit_location_to_string e = join " "%char (present_fields false e)
  /\ explicit_location_to_linespec e = join ":"%char (present_fields true e).
Proof.
  assert (H : forall b, explicit_to_string_internal b e
    = join (if b then ":"%char else " "%char) (present_fields b e)).
  { intros b.
    unfold explicit_to_string_internal, present_fields, flag, puts, putc,
      printf_sd.
    destruct e as [src fn mt lbl [off sg]];
      cbn [source_filename function_name func_name_match_type label_name
           line_offset_of sign offset].
    change (std_string_of (cs "-source ")) with (cs "-source ").
    change (std_string_of (cs "-function ")) with (cs "-function ").
    change (std_string_of (cs "-qualified ")) with (cs "-qualified ").
    change (std_string_of (cs "-label ")) with (cs "-label ").
    change (std_string_of (cs "-line ")) with (cs "-line ").
    destruct src as [src|], fn as [fn|], lbl as [lbl|], sg, mt, b;
      cbn [negb is_FULL is_UNKNOWN app join sign_prefix];
      repeat rewrite <- app_assoc; cbn [app]; reflexivity. }
  split; [apply H|]. split; [apply (H false) | apply (H true)].
Qed.

(** ** The cached string form *)

Lemma to_string_cached (env : collaborators) (l : event_location) :
  std_empty (as_string l) = false ->
  to_string env l = mk_to_string_result (Some (as_string l)) l 0.
Proof.
  intros H. unfold to_string. rewrite H. rewrite H. reflexivity.
Qed.

Lemma to_string_repeatedly_cached (env : collaborators) (n : nat)
  (l : event_location) :
  std_empty (as_string l) = false ->
  to_string_repeatedly env n l = (repeat (Some (as_string l)) n, l, 0).
Proof.
  intros H. induction n as [|n IH]; [reflexivity|].
  cbn [to_string_repeatedly]. rewrite (to_string_cached env l H).
  cbn [object returned compute_string_calls]. rewrite IH. reflexivity.
Qed.

Lemma compute_string_cache_irrelevant (env : collaborators)
  (l : event_location) (s : std_string) :
  std_empty (as_string l) = true -> std_empty s = true ->
  compute_string env (mk_event_location s (data l)) = compute_string env l.
Proof.
  intros H1 H2. destruct l as [a d]. cbn in *.
  destruct a; [|discriminate]. destruct s; [|discriminate]. reflexivity.
Qed.

(** C6, as the code has it.  Over any number of calls of [to_string] on
    one object, every call returns the same pointer; [compute_string]
    never runs when the cache is set, runs once (in the first call) when
    it computes a non-empty string, and runs in every call when it
    computes the empty string, which is never cached. *)
Theorem to_string_memoization (env : collaborators) (n : nat)
  (l : event_location) :
  let '(results, _, calls) := to_string_repeatedly env n l in
  results = repeat (rendering env l) n /\ calls = computations env n l.
Proof.
  unfold rendering, computations.
  destruct (std_empty (as_string l)) eqn:Hc; cbn [negb].
  2:{ rewrite (to_string_repeatedly_cached env n l Hc). split; reflexivity. }
  destruct (std_empty (compute_string env l)) eqn:Hs; cbn [negb].
  - revert l Hc Hs.
    induction n as [|n IH]; intros l Hc Hs; [split; reflexivity|].
    cbn [to_string_repeatedly]. unfold to_string. rewrite Hc.
    cbn [as_string]. rewrite Hs.
    cbn [object returned compute_string_calls].
    assert (Hc' : std_empty (as_string (mk_event_location
                     (compute_string env l) (data l))) = true) by exact Hs.
    assert (Hs' : std_empty (compute_string env (mk_event_location
                     (compute_string env l) (data l))) = true).
    { rewrite compute_string_cache_irrelevant; assumption. }
    specialize (IH _ Hc' Hs').
    destruct (to_string_repeatedly env n _) as [[rs l'] calls].
    destruct IH as [IH1 IH2]. subst. split; reflexivity.
  - destruct n as [|n]; [split; reflexivity|].
    cbn [to_string_repeatedly]. unfold to_string. rewrite Hc.
    cbn [as_string]. rewrite Hs.
    cbn [object returned compute_string_calls].
    rewrite to_string_repeatedly_cached by exact Hs.
    cbn [as_string]. split; [reflexivity|]. destruct n; reflexivity.
Qed.

(** C6 as stated fails: the linespec location built from the empty string
    computes the empty string, and two calls of [to_string] on it run
    [compute_string] twice. *)
Lemma to_string_recomputes_empty :
  string_to_event_location sample_collaborators (Some []) language_c WILD
  = Ret (empty_linespec_location, Some [])
  /\ compute_string sample_collaborators empty_linespec_location = []
  /\ ~ (snd (to_string_repeatedly sample_collaborators 2
               empty_linespec_location) <= 1).
Proof.
  split; [reflexivity|]. split; [reflexivity|]. vm_compute. lia.
Qed.

(** ** The explicit-location parser: strict mode and completion mode *)

Lemma lex_one_strict_completion env inp lang tok rest ci0 c :
  explicit_location_lex_one env inp lang None = Ret (tok, rest, ci0) ->
  ci0 = None /\
  exists c', explicit_location_lex_one env inp lang (Some c) = Ret (tok, rest, Some c').
Proof.
  unfold explicit_location_lex_one.
  destruct (is_nul (peek inp)).
  { intros H; inversion H; subst. split; [reflexivity|]. eauto. }
  destruct (strchr (quote_characters env) (peek inp)).
  { destruct (find_end_quote (tl inp) (peek inp)); cbn.
    - intros H; inversion H; subst. split; [reflexivity|]. eauto.
    - discriminate. }
  destruct (chr_eq (peek inp) "-" || chr_eq (peek inp) "+").
  { destruct (0 <? _); intros H; inversion H; subst; split; eauto. }
  destruct (is_nul _ || isspace _ || chr_eq _ ","%char).
  { intros H; inversion H; subst; split; eauto. }
  destruct (symbol_span env _ lang inp); cbn [bind]; try discriminate.
  destruct (0 <? _); intros H; inversion H; subst; split; eauto.
Qed.

Lemma lex_one_function_strict_completion env inp lang tok rest ci0 c :
  explicit_location_lex_one_function env inp lang None = Ret (tok, rest, ci0) ->
  ci0 = None /\
  exists c', explicit_location_lex_one_function env inp lang (Some c)
             = Ret (tok, rest, Some c').
Proof.
  unfold explicit_location_lex_one_function.
  destruct (is_nul (peek inp)).
  { intros H; inversion H; subst. split; [reflexivity|]. eauto. }
  destruct (lexes_as_quoted env lang inp).
  { destruct (find_toplevel_char env (tl inp) (peek inp)); cbn.
    - intros H; inversion H; subst. split; [reflexivity|]. eauto.
    - discriminate. }
  destruct (function_name_end env inp); cbn [bind]; try discriminate.
  destruct (0 <? _); intros H; inversion H; subst; split; eauto.
Qed.

Lemma round_strict_completion env lang loc a r c :
  explicit_location_round env lang (mk_parser_state loc a None) = Ret r ->
  exists r', explicit_location_round env lang (mk_parser_state loc a (Some c)) = Ret r'
             /\ same_end r r'.
Proof.
  unfold explicit_location_round. cbn [location argp completion].
  destruct (lex_keyword env a).
  { intros H; inversion H; subst. eexists; split; [reflexivity|].
    cbn. repeat split; discriminate. }
  destruct (explicit_location_lex_one env a lang None) as [[[opt a1] ci1]| | | |];
    cbn [bind]; try discriminate.
  destruct opt as [opt|]; [|discriminate]. unfold round_on_option.
  cbn [set_quoted_arg_start set_quoted_arg_end set_last_option option_map].
  set (c0 := {| last_option := Some a; quoted_arg_start := None;
                quoted_arg_end := None;
                saw_explicit_location_option := saw_explicit_location_option c |}).
  cbn [last_option quoted_arg_start quoted_arg_end saw_explicit_location_option].
  fold c0.
  destruct (strncmp_eq opt (cs "-source") (strlen opt)).
  { destruct (explicit_location_lex_one env (skip_spaces a1) lang None)
      as [[[oarg a2] ci2]| | | |] eqn:E; cbn [bind]; try discriminate.
    destruct (lex_one_strict_completion _ _ _ _ _ _ c0 E) as [-> [c' E']].
    rewrite E'. cbn [bind]. unfold round_tail.
    destruct oarg; cbn; [|discriminate].
    intros H; inversion H; subst. eexists; split; [reflexivity|].
    cbn. repeat split; discriminate. }
  destruct (strncmp_eq opt (cs "-function") (strlen opt)).
  { destruct (explicit_location_lex_one_function env (skip_spaces a1) lang None)
      as [[[oarg a2] ci2]| | | |] eqn:E; cbn [bind]; try discriminate.
    destruct (lex_one_function_strict_completion _ _ _ _ _ _ c0 E) as [-> [c' E']].
    rewrite E'. cbn [bind]. unfold round_tail.
    destruct oarg; cbn; [|discriminate].
    intros H; inversion H; subst. eexists; split; [reflexivity|].
    cbn. repeat split; discriminate. }
  destruct (strncmp_eq opt (cs "-qualified") (strlen opt)).
  { unfold round_tail. cbn.
    intros H; inversion H; subst. eexists; split; [reflexivity|].
    cbn. repeat split; discriminate. }
  destruct (strncmp_eq opt (cs "-line") (strlen opt)).
  { destruct (explicit_location_lex_one env (skip_spaces a1) lang None)
      as [[[oarg a2] ci2]| | | |] eqn:E; cbn [bind]; try discriminate.
    destruct oarg as [arg|].
    - destruct (linespec_parse_line_offset env arg); cbn [bind]; try discriminate.
      intros H; inversion H; subst. eexists; split; [reflexivity|].
      cbn. repeat split; discriminate.
    - unfold round_tail; cbn. discriminate. }
  destruct (strncmp_eq opt (cs "-label") (strlen opt)).
  { destruct (explicit_location_lex_one env (skip_spaces a1) lang None)
      as [[[oarg a2] ci2]| | | |] eqn:E; cbn [bind]; try discriminate.
    destruct (lex_one_strict_completion _ _ _ _ _ _ c0 E) as [-> [c' E']].
    rewrite E'. cbn [bind]. unfold round_tail.
    destruct oarg; cbn; [|discriminate].
    intros H; inversion H; subst. eexists; split; [reflexivity|].
    cbn. repeat split; discriminate. }
  destruct (chr_eq (at_ opt 0) "-" && negb (isdigit (at_ opt 1))).
  { cbn. discriminate. }
  intros H; inversion H; subst. eexists; split; [reflexivity|].
  cbn. repeat split; discriminate.
Qed.

Lemma loop_strict_completion env lang fuel :
  forall st st' out,
  location st = location st' -> argp st = argp st' ->
  completion st = None -> completion st' <> None ->
  explicit_location_loop env fuel lang st = Ret out ->
  exists out', explicit_location_loop env fuel lang st' = Ret out'
               /\ same_state out out'.
Proof.
  induction fuel as [|fuel IH]; intros st st' out Hl Ha Hc Hc'; cbn [explicit_location_loop];
    rewrite <- Ha.
  - destruct (negb _ && negb _); [discriminate|].
    intros H; inversion H; subst. eexists; split; [reflexivity|].
    repeat split; assumption.
  - destruct (negb _ && negb _).
    2:{ intros H; inversion H; subst. eexists; split; [reflexivity|].
        repeat split; assumption. }
    destruct st as [loc a ci], st' as [loc' a' ci']. cbn in Hl, Ha, Hc, Hc'. subst.
    destruct ci' as [c|]; [|congruence].
    destruct (explicit_location_round env lang (mk_parser_state loc' a' None))
      as [r| | | |] eqn:E; cbn [bind]; try discriminate.
    destruct (round_strict_completion _ _ _ _ _ c E) as [r' [E' S]].
    rewrite E'. cbn [bind].
    destruct r as [s1|s1], r' as [s2|s2]; cbn in S; try contradiction.
    + destruct S as (S1 & S2 & S3 & S4). apply IH; assumption.
    + intros H; inversion H; subst. eexists; split; [reflexivity|]. exact S.
Qed.

(** ** The entry of the explicit-location parser *)

(** C3.  Entry guard: [string_to_explicit_location] returns no location,
    and leaves the cursor where it was, unless the input starts with a
    hyphen followed by a letter; and it does so too for every input that
    starts with [-p], which is reserved for probes. *)
Theorem explicit_location_entry_guard (env : collaborators) (input : cstring)
  (lang : language) (ci : option explicit_completion_info) :
  ~ (at_ input 0 = "-"%char /\ isalpha (at_ input 1) = true)
  \/ firstn 2 input = cs "-p" ->
  string_to_explicit_location env (Some input) lang ci
  = Ret (None, Some input, ci).
Proof.
  intros H. unfold string_to_explicit_location.
  assert (G : not_an_explicit_location input = true);
    [|rewrite G; reflexivity].
  unfold not_an_explicit_location, chr_eq.
  destruct H as [H|H].
  - destruct (Ascii.eqb (at_ input 0) "-") eqn:E0; [|reflexivity].
    destruct (isalpha (at_ input 1)) eqn:E1; [|reflexivity].
    exfalso. apply H. apply Ascii.eqb_eq in E0. split; [exact E0|reflexivity].
  - destruct input as [|a [|b r]]; try discriminate.
    cbn in H. inversion H; subst. reflexivity.
Qed.

(** C3 on [-probe foo] and on [main]. *)
Lemma entry_guard_witness :
  string_to_explicit_location sample_collaborators (Some (cs "-probe foo"))
    language_c None = Ret (None, Some (cs "-probe foo"), None)
  /\ string_to_explicit_location sample_collaborators (Some (cs "main"))
    language_c None = Ret (None, Some (cs "main"), None).
Proof.
  split.
  - apply (explicit_location_entry_guard sample_collaborators (cs "-probe foo")
             language_c None).
    right. reflexivity.
  - apply (explicit_location_entry_guard sample_collaborators (cs "main")
             language_c None).
    left. vm_compute. intros [H _]. discriminate H.
Defined.

(** ** Quoted tokens without closing quote *)

Lemma strlen_cons (c : ascii) (r : cstring) :
  is_nul c = false -> strlen (c :: r) = S (strlen r).
Proof. intros H. cbn. rewrite H. reflexivity. Qed.

Lemma peek_skipn_strlen (p : cstring) : is_nul (peek (skipn (strlen p) p)) = true.
Proof.
  induction p as [|c r IH]; [reflexivity|].
  cbn [strlen]. destruct (is_nul c) eqn:E; [exact E|exact IH].
Qed.

(** C5.  Unmatched quote: when the option-value lexer, or the function-name
    lexer, starts on a quoted token that has no closing quote, it raises
    the unmatched-quote error if and only if it was called without
    completion info; with completion info it raises nothing, returns the
    rest of the string behind the opening quote as the token, and leaves
    the cursor at the end of the string. *)
Theorem unmatched_quote_handling (env : collaborators) (inp : cstring)
  (lang : language) (ci : option explicit_completion_info) :
  is_nul (peek inp) = false ->
  (strchr (quote_characters env) (peek inp) = true ->
   find_end_quote (tl inp) (peek inp) = None ->
   explicit_location_lex_one env inp lang ci
   = if is_null ci then Raise (UnmatchedQuote inp)
     else Ret (rest_as_token inp ci))
  /\ (lexes_as_quoted env lang inp = true ->
      find_toplevel_char env (tl inp) (peek inp) = None ->
      explicit_location_lex_one_function env inp lang ci
      = if is_null ci then Raise (UnmatchedQuote inp)
        else Ret (rest_as_token inp ci))
  /\ is_nul (peek (skipn (strlen inp) inp)) = true.
Proof.
  intros Hn.
  assert (L : savestring (tl inp) (strlen inp - 1) = std_string_of (tl inp)).
  { destruct inp as [|c r]; [reflexivity|]. cbn in Hn.
    rewrite (strlen_cons c r Hn). cbn [tl]. unfold savestring, std_string_of.
    f_equal. lia. }
  split; [|split; [|apply peek_skipn_strlen]].
  - intros Hq He. unfold explicit_location_lex_one. rewrite Hn, Hq, He.
    destruct ci; cbn [is_null set_quoted_arg_start option_map]; [|reflexivity].
    unfold rest_as_token. rewrite L. reflexivity.
  - intros Hq He. unfold explicit_location_lex_one_function. rewrite Hn, Hq, He.
    destruct ci; cbn [is_null set_quoted_arg_start option_map]; [|reflexivity].
    unfold rest_as_token. rewrite L. reflexivity.
Qed.

(** C5 on a single-quoted token that is never closed. *)
Lemma unmatched_quote_witness :
  explicit_location_lex_one sample_collaborators (cs "'foo bar") language_c None
  = Raise (UnmatchedQuote (cs "'foo bar"))
  /\ explicit_location_lex_one_function sample_collaborators (cs "'foo bar")
       language_c (Some no_completion_info)
     = Ret (Some (cs "foo bar"), [],
            Some (mk_completion_info None (Some (cs "'foo bar")) None false)).
Proof.
  split.
  - apply (proj1 (unmatched_quote_handling sample_collaborators (cs "'foo bar")
                    language_c None eq_refl)); reflexivity.
  - apply (proj1 (proj2 (unmatched_quote_handling sample_collaborators
                    (cs "'foo bar") language_c (Some no_completion_info) eq_refl)));
      reflexivity.
Defined.

(** ** Running the parser under assumptions on the collaborators *)

Lemma cstring_eqb_eq (a b : cstring) : cstring_eqb a b = true -> a = b.
Proof.
  revert b. induction a as [|x a IH]; intros [|y b]; cbn; try discriminate.
  - reflexivity.
  - intros H. apply andb_true_iff in H. destruct H as [H1 H2].
    apply Ascii.eqb_eq in H1. subst. f_equal. apply IH. exact H2.
Qed.

Lemma answer_on_same {B : Type} (dom : list cstring) (v : B)
  (f : cstring -> B) :
  Forall (fun p => f p = v) dom -> answer_on dom v f = f.
Proof.
  intros H. apply functional_extensionality. intros p. unfold answer_on.
  destruct (existsb (cstring_eqb p) dom) eqn:E; [|reflexivity].
  apply existsb_exists in E. destruct E as [q [Hin Hq]].
  apply cstring_eqb_eq in Hq. subst q.
  rewrite Forall_forall in H. symmetry. apply H. exact Hin.
Qed.

Lemma with_quote_characters_same (env : collaborators) (q : cstring) :
  quote_characters env = q -> with_quote_characters env q = env.
Proof. intros <-. destruct env; reflexivity. Qed.

Lemma with_lex_keyword_same (env : collaborators) (dom : list cstring)
  (v : bool) :
  Forall (fun p => lex_keyword env p = v) dom ->
  with_lex_keyword env (answer_on dom v (lex_keyword env)) = env.
Proof.
  intros H. rewrite (answer_on_same dom v (lex_keyword env) H).
  destruct env; reflexivity.
Qed.

Lemma with_parse_line_offset_same (env : collaborators) (dom : list cstring)
  (v : outcome line_offset) :
  Forall (fun p => linespec_parse_line_offset env p = v) dom ->
  with_parse_line_offset env
    (answer_on dom v (linespec_parse_line_offset env)) = env.
Proof.
  intros H. rewrite (answer_on_same dom v _ H). destruct env; reflexivity.
Qed.

Lemma with_probe_same (env : collaborators) (dom : list cstring) (v : bool) :
  Forall (fun p => probe_linespec_to_static_ops env p = v) dom ->
  with_probe env (answer_on dom v (probe_linespec_to_static_ops env)) = env.
Proof.
  intros H. rewrite (answer_on_same dom v _ H). destruct env; reflexivity.
Qed.

Lemma with_lex_to_end_same (env : collaborators) (dom : list cstring)
  (v : outcome nat) :
  Forall (fun p => linespec_lex_to_end env p = v) dom ->
  with_lex_to_end env (answer_on dom v (linespec_lex_to_end env)) = env.
Proof.
  intros H. rewrite (answer_on_same dom v _ H). destruct env; reflexivity.
Qed.

(** Replaces [env] in the goal by an environment that answers by table
    where the hypotheses [Hq] (quote characters) and [Hkw] (keywords)
    speak. *)
Ltac fix_lexical env Hq Hkw :=
  rewrite <- (with_quote_characters_same env _ Hq);
  rewrite <- (with_lex_keyword_same (with_quote_characters env _) _ _ Hkw).

(** ** Validation behind the option loop *)

(** C4.  Incomplete explicit location: when the option loop of a strict
    parse ends with a source filename and neither function name, label
    name nor known line offset, [string_to_explicit_location] raises the
    source-filename error; called on the same input with completion info
    it raises nothing and returns the location built so far.  So
    [-source foo.c] alone fails in strict mode, and [-source foo.c -line
    10] succeeds, whenever no linespec keyword starts inside the input and
    the quote characters are those of linespec.c. *)
Theorem incomplete_explicit_location (env : collaborators) (lang : language) :
  (forall (input : cstring) (st : parser_state) (c : explicit_completion_info),
     not_an_explicit_location input = false ->
     explicit_location_loop env (S (List.length input)) lang
       (mk_parser_state (copy_loc None) input None) = Ret st ->
     source_filename_alone (location st) = true ->
     string_to_explicit_location env (Some input) lang None
     = Raise SourceFilenameRequires
     /\ exists c',
          string_to_explicit_location env (Some input) lang (Some c)
          = Ret (Some (mk_event_location [] (explicit_data (location st))),
                 Some (argp st), Some c'))
  /\ (quote_characters env = linespec_quote_characters ->
      Forall (fun p => lex_keyword env p = false) (tails (cs "-source foo.c")) ->
      string_to_explicit_location env (Some (cs "-source foo.c")) lang None
      = Raise SourceFilenameRequires)
  /\ (quote_characters env = linespec_quote_characters ->
      Forall (fun p => lex_keyword env p = false)
        (tails (cs "-source foo.c -line 10")) ->
      linespec_parse_line_offset env (cs "10")
      = Ret (mk_line_offset 10 LINE_OFFSET_NONE) ->
      string_to_explicit_location env (Some (cs "-source foo.c -line 10"))
        lang None
      = Ret (Some (mk_event_location [] (explicit_data foo_c_line_10)),
             Some [], None)).
Proof.
  split; [|split].
  - intros input st c Hg Hl Hs. unfold string_to_explicit_location.
    rewrite Hg, Hl. cbn [bind]. rewrite Hs. split; [reflexivity|].
    destruct (loop_strict_completion env lang (S (List.length input))
                (mk_parser_state (copy_loc None) input None)
                (mk_parser_state (copy_loc None) input (Some c)) st
                eq_refl eq_refl eq_refl ltac:(discriminate) Hl)
      as [out' [Hl' (S1 & S2 & S3 & S4)]].
    rewrite Hl'. cbn [bind]. rewrite <- S1, <- S2.
    destruct (completion out') as [c'|] eqn:Ec; [|congruence].
    exists c'. rewrite andb_false_r. reflexivity.
  - intros Hq Hkw. fix_lexical env Hq Hkw.
    destruct lang; vm_compute; reflexivity.
  - intros Hq Hkw Hlo. fix_lexical env Hq Hkw.
    assert (Hlo' : Forall (fun p =>
      linespec_parse_line_offset
        (with_lex_keyword (with_quote_characters env linespec_quote_characters)
           (answer_on (tails (cs "-source foo.c -line 10")) false
              (lex_keyword
                 (with_quote_characters env linespec_quote_characters)))) p
      = Ret (mk_line_offset 10 LINE_OFFSET_NONE)) [cs "10"]).
    { constructor; [exact Hlo|constructor]. }
    rewrite <- (with_parse_line_offset_same _ _ _ Hlo').
    destruct lang; vm_compute; reflexivity.
Qed.

(** C4 on [-source foo.c] and [-source foo.c -line 10]. *)
Lemma incomplete_explicit_location_witness :
  (string_to_explicit_location sample_collaborators (Some (cs "-source foo.c"))
     language_c None = Raise SourceFilenameRequires
   /\ exists c',
        string_to_explicit_location sample_collaborators
          (Some (cs "-source foo.c")) language_c (Some no_completion_info)
        = Ret (Some (mk_event_location [] (explicit_data foo_c)),
               Some [], Some c'))
  /\ string_to_explicit_location sample_collaborators
       (Some (cs "-source foo.c -line 10")) language_c None
     = Ret (Some (mk_event_location [] (explicit_data foo_c_line_10)),
            Some [], None).
Proof.
  split.
  - apply (proj1 (incomplete_explicit_location sample_collaborators language_c)
             (cs "-source foo.c")
             (mk_parser_state foo_c [] None) no_completion_info);
      vm_compute; reflexivity.
  - apply (proj2 (proj2 (incomplete_explicit_location sample_collaborators
                           language_c))).
    + reflexivity.
    + vm_compute. repeat constructor.
    + reflexivity.
Defined.

(** ** The option token of the loop *)

(** C10 fails on the code.  After [-line 3] the cursor is at [xif 1]: not
    a keyword, so the loop goes on; [explicit_location_lex_one] finds the
    keyword [if] behind the first character, lexes nothing and returns
    null; [strlen] is then applied to the null option token.  This holds
    for every collaborator that takes [if 1] for a keyword, and takes
    neither [xif 1] nor the whole input for one. *)
Theorem option_token_null_dereference (env : collaborators) (lang : language)
  (lo : line_offset) :
  quote_characters env = linespec_quote_characters ->
  Forall (fun p => lex_keyword env p = false)
    [cs "-line 3 xif 1"; cs "xif 1"] ->
  lex_keyword env (cs "if 1") = true ->
  linespec_parse_line_offset env (cs "3") = Ret lo ->
  explicit_location_lex_one env (cs "xif 1") lang None
  = Ret (None, cs "xif 1", None)
  /\ string_to_explicit_location env (Some (cs "-line 3 xif 1")) lang None
     = Segv.
Proof.
  intros Hq Hkw Hif Hlo. fix_lexical env Hq Hkw.
  match goal with |- context [explicit_location_lex_one ?e _ _ _] =>
    assert (Hif' : Forall (fun p => lex_keyword e p = true) [cs "if 1"])
      by (constructor; [exact Hif|constructor]);
    rewrite <- (with_lex_keyword_same e _ _ Hif')
  end.
  match goal with |- context [explicit_location_lex_one ?e _ _ _] =>
    assert (Hlo' : Forall (fun p => linespec_parse_line_offset e p = Ret lo)
                     [cs "3"])
      by (constructor; [exact Hlo|constructor]);
    rewrite <- (with_parse_line_offset_same e _ _ Hlo')
  end.
  split; destruct lang; vm_compute; reflexivity.
Qed.

(** C10 on the keyword recogniser of the instance. *)
Lemma option_token_null_dereference_witness :
  string_to_explicit_location sample_collaborators (Some (cs "-line 3 xif 1"))
    language_c None = Segv.
Proof.
  apply (proj2 (option_token_null_dereference sample_collaborators language_c
                  (mk_line_offset 3 LINE_OFFSET_NONE) eq_refl
                  ltac:(repeat constructor) eq_refl eq_refl)).
Defined.

(** ** The dispatcher *)

Lemma explicit_location_is_explicit (env : collaborators) (arg : option cstring)
  (lang : language) (ci ci' : option explicit_completion_info)
  (loc : event_location) (rest : option cstring) :
  string_to_explicit_location env arg lang ci = Ret (Some loc, rest, ci') ->
  exists xloc, loc = mk_event_location [] (explicit_data xloc).
Proof.
  unfold string_to_explicit_location. destruct arg as [p|]; [|discriminate].
  destruct (not_an_explicit_location p); [discriminate|].
  destruct (explicit_location_loop env _ lang _) as [st| | | |]; cbn [bind];
    try discriminate.
  destruct (_ && _); [discriminate|].
  intros H; inversion H; subst. eauto.
Qed.

(** C2.  Empty-explicit fallback: when the explicit-location parser
    succeeds with an empty explicit location, [string_to_event_location]
    returns what basic resolution returns from the cursor that the
    explicit parser left, with the match type that the explicit location
    captured.  So [-qualified myfunc] yields the linespec location for
    [myfunc] with match type FULL, whenever no linespec keyword starts
    inside the input, [myfunc] is not a probe specification and the
    linespec tokenizer consumes [myfunc]. *)
Theorem empty_explicit_fallback (env : collaborators) (lang : language)
  (m : symbol_name_match_type) :
  (forall (input : option cstring) (loc : event_location)
          (rest : option cstring) (ci : option explicit_completion_info),
     string_to_explicit_location env input lang None = Ret (Some loc, rest, ci) ->
     event_location_empty_p loc = true ->
     exists xloc,
       data loc = explicit_data xloc
       /\ string_to_event_location env input lang m
          = string_to_event_location_basic env rest lang
              (func_name_match_type xloc))
  /\ (quote_characters env = linespec_quote_characters ->
      Forall (fun p => lex_keyword env p = false)
        (tails (cs "-qualified myfunc")) ->
      probe_linespec_to_static_ops env (cs "myfunc") = false ->
      linespec_lex_to_end env (cs "myfunc") = Ret 6 ->
      string_to_event_location env (Some (cs "-qualified myfunc")) lang m
      = Ret (linespec_location_of FULL (Some (cs "myfunc")), Some [])).
Proof.
  split.
  - intros input loc rest ci H He.
    destruct (explicit_location_is_explicit _ _ _ _ _ _ _ H) as [xloc ->].
    exists xloc. split; [reflexivity|].
    unfold string_to_event_location. rewrite H. cbn [bind].
    rewrite He. reflexivity.
  - intros Hq Hkw Hp Hl. fix_lexical env Hq Hkw.
    match goal with |- context [string_to_event_location ?e _ _ _] =>
      assert (Hp' : Forall (fun p => probe_linespec_to_static_ops e p = false)
                      [cs "myfunc"])
        by (constructor; [exact Hp|constructor]);
      rewrite <- (with_probe_same e _ _ Hp')
    end.
    match goal with |- context [string_to_event_location ?e _ _ _] =>
      assert (Hl' : Forall (fun p => linespec_lex_to_end e p = Ret 6)
                      [cs "myfunc"])
        by (constructor; [exact Hl|constructor]);
      rewrite <- (with_lex_to_end_same e _ _ Hl')
    end.
    destruct lang; vm_compute; reflexivity.
Qed.

(** C2 on [-qualified myfunc]. *)
Lemma empty_explicit_fallback_witness :
  string_to_event_location sample_collaborators (Some (cs "-qualified myfunc"))
    language_c WILD
  = Ret (linespec_location_of FULL (Some (cs "myfunc")), Some []).
Proof.
  apply (proj2 (empty_explicit_fallback sample_collaborators language_c WILD)).
  - reflexivity.
  - vm_compute. repeat constructor.
  - reflexivity.
  - reflexivity.
Defined.

(** ** The spec string of a linespec location *)

Lemma firstn_snoc (s : cstring) (k : nat) :
  k < List.length s -> firstn (S k) s = firstn k s ++ [at_ s k].
Proof.
  revert k. induction s as [|c r IH]; intros k Hk; cbn in Hk; [lia|].
  destruct k as [|k]; [reflexivity|].
  cbn [firstn app]. f_equal. apply IH. lia.
Qed.

Lemma remove_trailing_whitespace_le (s : cstring) (n : nat) :
  remove_trailing_whitespace s n <= n.
Proof.
  induction n as [|k IH]; cbn; [lia|]. destruct (isspace (at_ s k)); lia.
Qed.

Lemma remove_trailing_whitespace_strip (s : cstring) (n : nat) :
  n <= List.length s ->
  firstn (remove_trailing_whitespace s n) s = strip_trailing (firstn n s).
Proof.
  unfold strip_trailing. induction n as [|k IH]; intros Hn; [reflexivity|].
  cbn [remove_trailing_whitespace]. rewrite (firstn_snoc s k) by lia.
  rewrite rev_app_distr. cbn [rev app skip_spaces].
  destruct (isspace (at_ s k)).
  - apply IH. lia.
  - cbn [rev]. rewrite rev_involutive. rewrite <- (firstn_snoc s k) by lia.
    reflexivity.
Qed.

Lemma firstn_empty_iff (s : cstring) (p : nat) :
  p <= List.length s -> (0 <? p) = negb (std_empty (firstn p s)).
Proof.
  destruct p as [|p]; [reflexivity|]. destruct s; cbn; [lia|reflexivity].
Qed.

(** C8, as the code has it.  The spec string of a linespec location built
    from a non-null input is the text that the linespec tokenizer
    consumed, from the first character of the input on (leading
    whitespace is kept), without its trailing whitespace; it is there if
    and only if that text is not empty. *)
Theorem linespec_spec_string (env : collaborators) (input : cstring)
  (m : symbol_name_match_type) (n : nat) :
  linespec_lex_to_end env input = Ret n ->
  n <= List.length input ->
  new_linespec_location env (Some input) m
  = Ret (linespec_location_of m (if_not_empty (strip_trailing (firstn n input))),
         Some (skipn n input)).
Proof.
  intros Hl Hn. unfold new_linespec_location. rewrite Hl. cbn [bind].
  unfold linespec_location_of, savestring. do 4 f_equal.
  pose proof (remove_trailing_whitespace_le input n) as Hle.
  rewrite (firstn_empty_iff input) by lia.
  rewrite remove_trailing_whitespace_strip by exact Hn.
  destruct (strip_trailing (firstn n input)); reflexivity.
Qed.

(** C8 on [foo] between blanks. *)
Lemma linespec_spec_string_witness :
  new_linespec_location sample_collaborators (Some (cs "  foo  ")) WILD
  = Ret (linespec_location_of WILD (Some (cs "  foo")), Some []).
Proof.
  apply (linespec_spec_string sample_collaborators (cs "  foo  ") WILD 7).
  - reflexivity.
  - vm_compute. lia.
Defined.

(** C8 as stated fails: with two blanks in front of [foo] the spec string
    keeps the blanks. *)
Lemma spec_string_keeps_leading_whitespace :
  new_linespec_location sample_collaborators (Some (cs "  foo")) WILD
  = Ret (linespec_location_of WILD (Some (cs "  foo")), Some [])
  /\ ~ spec_string_is_stripped sample_collaborators (cs "  foo") WILD.
Proof.
  split; [reflexivity|]. intros H.
  specialize (H 5 eq_refl ltac:(vm_compute; lia)). vm_compute in H.
  discriminate H.
Qed.

(** ** Every round of the option loop moves the cursor *)

Lemma peek_not_nul (p : cstring) :
  is_nul (peek p) = false -> exists c r, p = c :: r.
Proof. destruct p as [|c r]; [discriminate|]. eauto. Qed.

Lemma length_skipn_le (k : nat) (p : cstring) :
  List.length (skipn k p) <= List.length p.
Proof. rewrite length_skipn. lia. Qed.

Lemma length_skipn_lt (k : nat) (p : cstring) :
  0 < k -> p <> [] -> List.length (skipn k p) < List.length p.
Proof.
  intros Hk Hp. rewrite length_skipn. destruct p; [congruence|].
  cbn [List.length]. lia.
Qed.

Lemma length_skip_spaces (p : cstring) :
  List.length (skip_spaces p) <= List.length p.
Proof.
  induction p as [|c r IH]; cbn; [lia|]. destruct (isspace c); cbn; lia.
Qed.

Lemma length_skip_spaces_lt (p : cstring) :
  is_nul (peek p) = false -> isspace (peek p) = true ->
  List.length (skip_spaces p) < List.length p.
Proof.
  intros Hn Hs. destruct (peek_not_nul p Hn) as [c [r ->]]. cbn in Hs.
  cbn. rewrite Hs. pose proof (length_skip_spaces r). lia.
Qed.

Lemma at_0 (p : cstring) : at_ p 0 = peek p.
Proof. destruct p; reflexivity. Qed.

Lemma strlen_pos (p : cstring) : is_nul (peek p) = false -> 0 < strlen p.
Proof.
  intros Hn. destruct (peek_not_nul p Hn) as [c [r ->]]. cbn in *.
  rewrite Hn. lia.
Qed.

Local Opaque skipn.

Lemma lex_one_rest (env : collaborators) (inp : cstring) (lang : language)
  (ci ci' : option explicit_completion_info) (tok : option cstring)
  (rest : cstring) :
  explicit_location_lex_one env inp lang ci = Ret (tok, rest, ci') ->
  List.length rest <= List.length inp.
Proof.
  unfold explicit_location_lex_one.
  destruct (is_nul (peek inp)); [intros H; injection H as _ <- _; lia|].
  destruct (strchr _ _).
  { destruct (find_end_quote _ _).
    - intros H; injection H as ? ? ?; subst. apply length_skipn_le.
    - destruct (is_null _); [discriminate|].
      intros H; injection H as ? ? ?; subst. apply length_skipn_le. }
  destruct (chr_eq _ _ || chr_eq _ _).
  { destruct (0 <? _); intros H; injection H as ? ? ?; subst; apply length_skipn_le. }
  destruct (is_nul _ || isspace _ || chr_eq _ _).
  { intros H; injection H as ? ? ?; subst; apply length_skipn_le. }
  destruct (symbol_span env _ lang inp); cbn [bind]; try discriminate.
  destruct (0 <? _); intros H; injection H as ? ? ?; subst; apply length_skipn_le.
Qed.

Lemma lex_one_function_rest (env : collaborators) (inp : cstring)
  (lang : language) (ci ci' : option explicit_completion_info)
  (tok : option cstring) (rest : cstring) :
  explicit_location_lex_one_function env inp lang ci = Ret (tok, rest, ci') ->
  List.length rest <= List.length inp.
Proof.
  unfold explicit_location_lex_one_function.
  destruct (is_nul (peek inp)); [intros H; injection H as _ <- _; lia|].
  destruct (lexes_as_quoted _ _ _).
  { destruct (find_toplevel_char _ _ _).
    - intros H; injection H as ? ? ?; subst. apply length_skipn_le.
    - destruct (is_null _); [discriminate|].
      intros H; injection H as ? ? ?; subst. apply length_skipn_le. }
  destruct (function_name_end env inp); cbn [bind]; try discriminate.
  destruct (0 <? _); intros H; injection H as ? ? ?; subst; apply length_skipn_le.
Qed.

(** A token was lexed: the cursor moved, unless the cursor is at
    whitespace or at a comma, where the token is the empty string. *)
Lemma lex_one_progress (env : collaborators) (inp : cstring) (lang : language)
  (ci ci' : option explicit_completion_info) (tok rest : cstring) :
  is_nul (peek inp) = false ->
  explicit_location_lex_one env inp lang ci = Ret (Some tok, rest, ci') ->
  List.length rest < List.length inp
  \/ ((isspace (peek inp) = true \/ chr_eq (peek inp) ","%char = true)
      /\ tok = [] /\ rest = inp).
Proof.
  intros Hn. unfold explicit_location_lex_one. rewrite Hn.
  assert (Hne : inp <> []) by (destruct inp; [discriminate|congruence]).
  destruct (strchr _ _).
  { destruct (find_end_quote _ _).
    - intros H; injection H as ? ? ?; subst. left. apply length_skipn_lt; [lia|exact Hne].
    - destruct (is_null _); [discriminate|].
      intros H; injection H as ? ? ?; subst. left.
      apply length_skipn_lt; [apply strlen_pos; exact Hn|exact Hne]. }
  destruct (chr_eq _ _ || chr_eq _ _).
  { destruct (0 <? _) eqn:E; intros H; [|discriminate H].
    injection H as ? ? ?; subst. left.
    apply Nat.ltb_lt in E. apply length_skipn_lt; assumption. }
  destruct (span_digits inp) as [|d] eqn:Ed.
  - rewrite (at_0 inp). rewrite Hn. cbn [orb].
    destruct (isspace (peek inp) || chr_eq (peek inp) ",") eqn:E.
    + intros H; injection H as ? ? ?; subst. right. split; [|split; reflexivity].
      apply orb_true_iff in E. exact E.
    + destruct (symbol_span env _ lang inp); cbn [bind]; try discriminate.
      destruct (0 <? _) eqn:E'; intros H; [|discriminate H].
      injection H as ? ? ?; subst. left.
      apply Nat.ltb_lt in E'. apply length_skipn_lt; assumption.
  - destruct (is_nul _ || isspace _ || chr_eq _ _).
    + intros H; injection H as ? ? ?; subst. left. apply length_skipn_lt; [lia|exact Hne].
    + destruct (symbol_span env _ lang inp); cbn [bind]; try discriminate.
      destruct (0 <? _) eqn:E'; intros H; [|discriminate H].
      injection H as ? ? ?; subst. left.
      apply Nat.ltb_lt in E'. apply length_skipn_lt; assumption.
Qed.

Local Transparent skipn.

Lemma strncmp_eq_0 (a b : cstring) : strncmp_eq a b 0 = true.
Proof. reflexivity. Qed.

Lemma round_tail_continue (opt : cstring) (loc : explicit_location)
  (a : cstring) (ci : option explicit_completion_info) (need have : bool)
  (st' : parser_state) :
  round_tail opt loc a ci need have = Ret (Continue st') ->
  List.length (argp st') <= List.length a.
Proof.
  unfold round_tail. destruct (_ && _); [discriminate|].
  intros H; inversion H; subst. cbn. apply length_skip_spaces.
Qed.

Lemma round_progress (env : collaborators) (lang : language)
  (st st' : parser_state) :
  is_nul (peek (argp st)) = false ->
  chr_eq (peek (argp st)) ","%char = false ->
  explicit_location_round env lang st = Ret (Continue st') ->
  List.length (argp st') < List.length (argp st).
Proof.
  destruct st as [loc a ci]. cbn [argp]. intros Hn Hc.
  unfold explicit_location_round. cbn [location argp completion].
  destruct (lex_keyword env a); [discriminate|].
  destruct (explicit_location_lex_one env a lang None) as [[[opt a1] ci1]| | | |]
    eqn:E; cbn [bind]; try discriminate.
  destruct opt as [opt|]; [|discriminate]. unfold round_on_option.
  pose proof (length_skip_spaces a1) as Hs.
  assert (Hlt : List.length (skip_spaces a1) < List.length a).
  { destruct (lex_one_progress _ _ _ _ _ _ _ Hn E) as [H|[[H|H] [_ ->]]].
    - lia.
    - apply length_skip_spaces_lt; assumption.
    - congruence. }
  clear E Hs.
  destruct (strncmp_eq opt (cs "-source") (strlen opt)).
  { destruct (explicit_location_lex_one env (skip_spaces a1) lang _)
      as [[[oarg a2] ci2]| | | |] eqn:E2; cbn [bind]; try discriminate.
    intros H. apply round_tail_continue in H.
    apply lex_one_rest in E2. lia. }
  destruct (strncmp_eq opt (cs "-function") (strlen opt)).
  { destruct (explicit_location_lex_one_function env (skip_spaces a1) lang _)
      as [[[oarg a2] ci2]| | | |] eqn:E2; cbn [bind]; try discriminate.
    intros H. apply round_tail_continue in H.
    apply lex_one_function_rest in E2. lia. }
  destruct (strncmp_eq opt (cs "-qualified") (strlen opt)).
  { intros H. apply round_tail_continue in H. lia. }
  destruct (strncmp_eq opt (cs "-line") (strlen opt)).
  { destruct (explicit_location_lex_one env (skip_spaces a1) lang _)
      as [[[oarg a2] ci2]| | | |] eqn:E2; cbn [bind]; try discriminate.
    apply lex_one_rest in E2. pose proof (length_skip_spaces a2).
    destruct oarg as [arg|].
    - destruct (linespec_parse_line_offset env arg); cbn [bind];
        try discriminate.
      intros H'; inversion H'; subst. cbn. lia.
    - intros H'. apply round_tail_continue in H'. lia. }
  destruct (strncmp_eq opt (cs "-label") (strlen opt)).
  { destruct (explicit_location_lex_one env (skip_spaces a1) lang _)
      as [[[oarg a2] ci2]| | | |] eqn:E2; cbn [bind]; try discriminate.
    intros H. apply round_tail_continue in H.
    apply lex_one_rest in E2. lia. }
  destruct (chr_eq (at_ opt 0) "-" && negb (isdigit (at_ opt 1))).
  { destruct (is_null _); [discriminate|].
    intros H. apply round_tail_continue in H. lia. }
  discriminate.
Qed.

(** The loop never needs more fuel than the cursor has characters in front
    of it. *)
Lemma explicit_location_loop_fuel (env : collaborators) (lang : language)
  (f1 : nat) :
  forall (f2 : nat) (st : parser_state),
    List.length (argp st) < f1 -> List.length (argp st) < f2 ->
    explicit_location_loop env f1 lang st = explicit_location_loop env f2 lang st.
Proof.
  induction f1 as [|f1 IH]; intros f2 st H1 H2; [lia|].
  destruct f2 as [|f2]; [lia|]. cbn [explicit_location_loop].
  destruct (negb (is_nul (peek (argp st)))) eqn:E1; [|reflexivity].
  destruct (negb (chr_eq (peek (argp st)) ",")) eqn:E2; [|reflexivity].
  cbn [andb].
  destruct (explicit_location_round env lang st) as [[st'|st']| | | |] eqn:E;
    cbn [bind]; try reflexivity.
  apply negb_true_iff in E1, E2.
  pose proof (round_progress env lang st st' E1 E2 E). apply IH; lia.
Qed.

(** ** The contents of the completion info do not steer the parser *)

Lemma same_failure_refl (e : gdb_error) : same_failure e e.
Proof. destruct e; reflexivity. Qed.

Ltac alike_done :=
  solve [ cbn in *; try discriminate; try contradiction;
          unfold alike_lexed, alike_state in *; cbn in *;
          repeat split; auto using same_failure_refl; try congruence ].

Lemma lex_one_alike (env : collaborators) (inp : cstring) (lang : language)
  (ci ci' : option explicit_completion_info) :
  is_null ci = is_null ci' ->
  alike alike_lexed (explicit_location_lex_one env inp lang ci)
    (explicit_location_lex_one env inp lang ci').
Proof.
  intros H. unfold explicit_location_lex_one.
  destruct (is_nul (peek inp)); [alike_done|].
  destruct (strchr _ _).
  { destruct (find_end_quote _ _); destruct ci, ci'; alike_done. }
  destruct (chr_eq _ _ || chr_eq _ _).
  { destruct (0 <? _); alike_done. }
  destruct (is_nul _ || isspace _ || chr_eq _ _); [alike_done|].
  destruct (symbol_span env _ lang inp); cbn [bind]; try alike_done.
  destruct (0 <? _); alike_done.
Qed.

Lemma lex_one_function_alike (env : collaborators) (inp : cstring)
  (lang : language) (ci ci' : option explicit_completion_info) :
  is_null ci = is_null ci' ->
  alike alike_lexed (explicit_location_lex_one_function env inp lang ci)
    (explicit_location_lex_one_function env inp lang ci').
Proof.
  intros H. unfold explicit_location_lex_one_function.
  destruct (is_nul (peek inp)); [alike_done|].
  destruct (lexes_as_quoted _ _ _).
  { destruct (find_toplevel_char _ _ _); destruct ci, ci'; alike_done. }
  destruct (function_name_end env inp) as [e|e| | |]; cbn [bind];
    try alike_done.
  destruct (0 <? _); alike_done.
Qed.

Lemma round_tail_alike (opt opt' : cstring) (loc : explicit_location)
  (a : cstring) (ci ci' : option explicit_completion_info) (need have : bool) :
  is_null ci = is_null ci' ->
  alike alike_end (round_tail opt loc a ci need have)
    (round_tail opt' loc a ci' need have).
Proof.
  intros H. unfold round_tail. rewrite H.
  destruct (need && negb have && is_null ci'); alike_done.
Qed.

Lemma is_null_set_saw (ci : option explicit_completion_info) :
  is_null (set_saw_explicit_location_option ci) = is_null ci.
Proof. destruct ci; reflexivity. Qed.

Lemma round_on_option_alike (env : collaborators) (lang : language)
  (loc : explicit_location) (start : cstring)
  (ci ci' : option explicit_completion_info) (opt a1 : cstring) :
  is_null ci = is_null ci' ->
  alike alike_end (round_on_option env lang loc start ci opt a1)
    (round_on_option env lang loc start ci' opt a1).
Proof.
  intros H. unfold round_on_option.
  destruct (strncmp_eq opt (cs "-source") (strlen opt)).
  { pose proof (lex_one_alike env (skip_spaces a1) lang ci ci' H) as L.
    destruct (explicit_location_lex_one env (skip_spaces a1) lang ci)
      as [[[t r] c]| | | |],
      (explicit_location_lex_one env (skip_spaces a1) lang ci')
      as [[[t' r'] c']| | | |]; unfold alike_lexed in L; cbn in L;
      try contradiction; cbn [bind alike]; auto.
    destruct L as (<- & <- & L). apply round_tail_alike.
    rewrite !is_null_set_saw. exact L. }
  destruct (strncmp_eq opt (cs "-function") (strlen opt)).
  { pose proof (lex_one_function_alike env (skip_spaces a1) lang ci ci' H) as L.
    destruct (explicit_location_lex_one_function env (skip_spaces a1) lang ci)
      as [[[t r] c]| | | |],
      (explicit_location_lex_one_function env (skip_spaces a1) lang ci')
      as [[[t' r'] c']| | | |]; unfold alike_lexed in L; cbn in L;
      try contradiction; cbn [bind alike]; auto.
    destruct L as (<- & <- & L). apply round_tail_alike.
    rewrite !is_null_set_saw. exact L. }
  destruct (strncmp_eq opt (cs "-qualified") (strlen opt)).
  { apply round_tail_alike. exact H. }
  destruct (strncmp_eq opt (cs "-line") (strlen opt)).
  { destruct (explicit_location_lex_one env (skip_spaces a1) lang None)
      as [[[t r] c]|e| | |]; cbn [bind alike]; auto using same_failure_refl.
    destruct t as [arg|].
    - destruct (linespec_parse_line_offset env arg); cbn [bind alike];
        auto using same_failure_refl.
      unfold alike_end, alike_state. cbn [location argp completion].
      repeat split. rewrite !is_null_set_saw. exact H.
    - apply round_tail_alike. rewrite !is_null_set_saw. exact H. }
  destruct (strncmp_eq opt (cs "-label") (strlen opt)).
  { pose proof (lex_one_alike env (skip_spaces a1) lang ci ci' H) as L.
    destruct (explicit_location_lex_one env (skip_spaces a1) lang ci)
      as [[[t r] c]| | | |],
      (explicit_location_lex_one env (skip_spaces a1) lang ci')
      as [[[t' r'] c']| | | |]; unfold alike_lexed in L; cbn in L;
      try contradiction; cbn [bind alike]; auto.
    destruct L as (<- & <- & L). apply round_tail_alike.
    rewrite !is_null_set_saw. exact L. }
  destruct (chr_eq (at_ opt 0) "-" && negb (isdigit (at_ opt 1))).
  { rewrite H. destruct (is_null ci') eqn:E; [cbn; reflexivity|].
    apply round_tail_alike. congruence. }
  cbn. repeat split. exact H.
Qed.

Lemma round_alike (env : collaborators) (lang : language)
  (st st' : parser_state) :
  alike_state st st' ->
  alike alike_end (explicit_location_round env lang st)
    (explicit_location_round env lang st').
Proof.
  destruct st as [loc a ci], st' as [loc' a' ci']. intros (H1 & H2 & H3).
  cbn in H1, H2, H3. subst loc' a'. unfold explicit_location_round.
  cbn [location argp completion].
  destruct (lex_keyword env a).
  { cbn. repeat split. destruct ci, ci'; cbn in *; congruence. }
  destruct (explicit_location_lex_one env a lang None) as [[[opt a1] c]|e| | |];
    cbn [bind alike]; auto using same_failure_refl.
  destruct opt as [opt|]; [|exact I].
  apply round_on_option_alike. destruct ci, ci'; cbn in *; congruence.
Qed.

Lemma loop_alike (env : collaborators) (lang : language) (fuel : nat) :
  forall st st' : parser_state,
    alike_state st st' ->
    alike alike_state (explicit_location_loop env fuel lang st)
      (explicit_location_loop env fuel lang st').
Proof.
  induction fuel as [|fuel IH]; intros st st' H;
    pose proof H as (H1 & H2 & H3); cbn [explicit_location_loop];
    rewrite <- H2;
    destruct (negb (is_nul (peek (argp st)))
              && negb (chr_eq (peek (argp st)) ",")); try exact H; try exact I.
  pose proof (round_alike env lang st st' H) as R.
  destruct (explicit_location_round env lang st) as [[s|s]| | | |],
    (explicit_location_round env lang st') as [[s'|s']| | | |];
    cbn in R; try contradiction; cbn [bind alike]; auto.
Qed.

(** ** Steps of the option loop *)

Lemma loop_step (env : collaborators) (lang : language) (fuel : nat)
  (st : parser_state) :
  negb (is_nul (peek (argp st))) && negb (chr_eq (peek (argp st)) ","%char)
  = true ->
  explicit_location_loop env (S fuel) lang st
  = (r <- explicit_location_round env lang st ;;
     match r with
     | Continue st' => explicit_location_loop env fuel lang st'
     | Break st' => Ret st'
     end).
Proof. intros H. cbn [explicit_location_loop]. rewrite H. reflexivity. Qed.

Lemma loop_stop (env : collaborators) (lang : language) (fuel : nat)
  (st : parser_state) :
  negb (is_nul (peek (argp st))) && negb (chr_eq (peek (argp st)) ","%char)
  = false ->
  explicit_location_loop env fuel lang st = Ret st.
Proof. intros H. destruct fuel; cbn [explicit_location_loop]; rewrite H; reflexivity. Qed.

Lemma round_step (env : collaborators) (lang : language) (st : parser_state)
  (opt a1 : cstring) (c : option explicit_completion_info) :
  lex_keyword env (argp st) = false ->
  explicit_location_lex_one env (argp st) lang None = Ret (Some opt, a1, c) ->
  explicit_location_round env lang st
  = round_on_option env lang (location st) (argp st)
      (set_last_option
         (set_quoted_arg_end (set_quoted_arg_start (completion st) None) None)
         (Some (argp st))) opt a1.
Proof.
  intros Hk Hl. unfold explicit_location_round. rewrite Hk, Hl. reflexivity.
Qed.

(** The token at a hyphen that is no quote character runs up to the next
    whitespace or comma. *)
Lemma lex_one_at_hyphen (env : collaborators) (inp : cstring)
  (lang : language) (ci : option explicit_completion_info) (n : nat) :
  strchr (quote_characters env) "-"%char = false ->
  peek inp = "-"%char ->
  span_to_space_or_comma inp = S n ->
  explicit_location_lex_one env inp lang ci
  = Ret (Some (firstn (S n) inp), skipn (S n) inp, ci).
Proof.
  intros Hq Hp Hs. unfold explicit_location_lex_one. rewrite Hp, Hq, Hs.
  reflexivity.
Qed.

(** ** Abbreviated option names *)

(** C9.  Option-name abbreviation: for every argument text [T], the
    parses of [-func T] and of [-function T] are alike: both return, with
    the same explicit location and the same cursor, or both fail in the
    same way.  Both take the option for [-function]: when the
    function-name lexer takes a name from [T] and the string ends behind
    it, both return the explicit location that holds this name as its
    function name and nothing else, with the cursor at the end of the
    string.  The hyphen must not be a quote character, and neither input
    may be a linespec keyword as a whole. *)
Theorem option_name_abbreviation (env : collaborators) (lang : language)
  (ci : option explicit_completion_info) (T : cstring) :
  strchr (quote_characters env) "-"%char = false ->
  lex_keyword env (cs "-func " ++ T) = false ->
  lex_keyword env (cs "-function " ++ T) = false ->
  alike same_location
    (string_to_explicit_location env (Some (cs "-func " ++ T)) lang ci)
    (string_to_explicit_location env (Some (cs "-function " ++ T)) lang ci)
  /\ forall f rest : cstring,
       explicit_location_lex_one_function env (skip_spaces T) lang None
       = Ret (Some f, rest, None) ->
       is_nul (peek (skip_spaces rest)) = true ->
       exists ci1 ci2 : option explicit_completion_info,
         string_to_explicit_location env (Some (cs "-func " ++ T)) lang ci
         = Ret (Some (mk_event_location []
                        (explicit_data
                           (set_function_name initialize_explicit_location
                              (Some f)))),
                Some (skip_spaces rest), ci1)
         /\ string_to_explicit_location env (Some (cs "-function " ++ T))
              lang ci
            = Ret (Some (mk_event_location []
                           (explicit_data
                              (set_function_name initialize_explicit_location
                                 (Some f)))),
                   Some (skip_spaces rest), ci2).
Proof.
  intros Hq Hk1 Hk2.
  (* the first round of either parse *)
  assert (R : forall (name : cstring) (fuel : nat),
    lex_keyword env (name ++ " "%char :: T) = false ->
    explicit_location_lex_one env (name ++ " "%char :: T) lang None
    = Ret (Some name, " "%char :: T, None) ->
    strncmp_eq name (cs "-source") (strlen name) = false ->
    strncmp_eq name (cs "-function") (strlen name) = true ->
    peek (name ++ " "%char :: T) = "-"%char ->
    explicit_location_loop env (S fuel) lang
      (mk_parser_state (copy_loc None) (name ++ " "%char :: T) ci)
    = (r <- (r <- explicit_location_lex_one_function env (skip_spaces T) lang
                    (set_last_option
                       (set_quoted_arg_end (set_quoted_arg_start ci None) None)
                       (Some (name ++ " "%char :: T))) ;;
             let '(oarg, argp, completion_info) := r in
             round_tail name
               (set_function_name (copy_loc None) oarg) argp
               (set_saw_explicit_location_option completion_info) true
               (negb (is_null oarg))) ;;
       match r with
       | Continue st' => explicit_location_loop env fuel lang st'
       | Break st' => Ret st'
       end)).
  { intros name fuel Hk Hl Hs Hf Hp. cbn [explicit_location_loop argp].
    rewrite Hp. cbn [is_nul chr_eq negb andb Ascii.eqb].
    change (negb (is_nul "-") && negb (chr_eq "-" ",")) with true. cbv iota.
    unfold explicit_location_round. cbn [location argp completion].
    rewrite Hk, Hl. cbn [bind]. unfold round_on_option. rewrite Hs, Hf.
    cbn [skip_spaces]. change (isspace " ") with true. cbv iota.
    reflexivity. }
  assert (L : forall name : cstring,
    name = cs "-func" \/ name = cs "-function" ->
    explicit_location_lex_one env (name ++ " "%char :: T) lang None
    = Ret (Some name, " "%char :: T, None)).
  { intros name [-> | ->]; unfold explicit_location_lex_one; cbn [app cs
      list_ascii_of_string peek hd]; rewrite Hq; reflexivity. }
  unfold string_to_explicit_location.
  change (not_an_explicit_location (cs "-func " ++ T)) with false.
  change (not_an_explicit_location (cs "-function " ++ T)) with false.
  cbv iota.
  change (cs "-func " ++ T) with (cs "-func" ++ " "%char :: T) in *.
  change (cs "-function " ++ T) with (cs "-function" ++ " "%char :: T) in *.
  rewrite (R (cs "-func") _ Hk1 (L _ (or_introl eq_refl)) eq_refl eq_refl eq_refl).
  rewrite (R (cs "-function") _ Hk2 (L _ (or_intror eq_refl)) eq_refl eq_refl
             eq_refl).
  set (ci1 := set_last_option _ (Some (cs "-func" ++ _))).
  set (ci2 := set_last_option _ (Some (cs "-function" ++ _))).
  assert (Hci : is_null ci1 = is_null ci2) by (destruct ci; reflexivity).
  split.
  - pose proof (lex_one_function_alike env (skip_spaces T) lang ci1 ci2 Hci)
      as F.
    destruct (explicit_location_lex_one_function env (skip_spaces T) lang ci1)
      as [[[t r] c]|e| | |] eqn:E1,
      (explicit_location_lex_one_function env (skip_spaces T) lang ci2)
      as [[[t' r'] c']|e'| | |] eqn:E2; unfold alike_lexed in F; cbn in F;
      try contradiction; cbn [bind alike]; auto.
    destruct F as (<- & <- & F).
    pose proof (lex_one_function_rest _ _ _ _ _ _ _ E1) as Hr.
    pose proof (length_skip_spaces T) as HT.
    unfold round_tail. rewrite !is_null_set_saw, <- F.
    destruct (true && negb (negb (is_null t)) && is_null c); [exact I|].
    cbn [bind].
    set (s1 := mk_parser_state _ _ (set_saw_explicit_location_option c)).
    set (s2 := mk_parser_state _ _ (set_saw_explicit_location_option c')).
    assert (A : alike_state s1 s2).
    { repeat split. cbn. rewrite !is_null_set_saw. exact F. }
    assert (Hlen : List.length (argp s1) <= List.length T).
    { cbn. pose proof (length_skip_spaces r). lia. }
    rewrite (explicit_location_loop_fuel env lang _
               (List.length (cs "-function" ++ " "%char :: T)) s1).
    2:{ rewrite length_app. cbn [List.length]. lia. }
    2:{ rewrite length_app. cbn [List.length]. lia. }
    pose proof (loop_alike env lang (List.length (cs "-function" ++ " "%char :: T))
                  s1 s2 A) as LA.
    destruct (explicit_location_loop env _ lang s1) as [o1| | | |],
      (explicit_location_loop env _ lang s2) as [o2| | | |];
      cbn in LA; try contradiction; cbn [bind alike]; auto.
    destruct LA as (La & Lb & Lc). rewrite La.
    destruct (source_filename_alone (location o2) && is_null ci);
      cbn [alike]; [reflexivity|]. unfold same_location. cbn [fst snd].
    split; congruence.
  - intros f rest Hf Hend.
    assert (X : forall c0 : option explicit_completion_info,
      exists c' : option explicit_completion_info,
        explicit_location_lex_one_function env (skip_spaces T) lang c0
        = Ret (Some f, rest, c')).
    { intros [c0|]; [|eexists; exact Hf].
      destruct (lex_one_function_strict_completion env _ lang _ _ _ c0 Hf)
        as [_ [c' E]]. eexists. exact E. }
    assert (Y : forall (name : cstring) (fuel : nat)
                       (c' : option explicit_completion_info),
      (st <- (r <- round_tail name
                     (set_function_name (copy_loc None) (Some f)) rest
                     (set_saw_explicit_location_option c') true
                     (negb (is_null (Some f))) ;;
              match r with
              | Continue st' => explicit_location_loop env fuel lang st'
              | Break st' => Ret st'
              end) ;;
       (if source_filename_alone (location st) && is_null ci
        then Raise SourceFilenameRequires
        else Ret (Some (mk_event_location [] (explicit_data (location st))),
                  Some (argp st), completion st)))
      = Ret (Some (mk_event_location []
                     (explicit_data
                        (set_function_name initialize_explicit_location
                           (Some f)))),
             Some (skip_spaces rest), set_saw_explicit_location_option c')).
    { intros name fuel c'. unfold round_tail.
      cbn [is_null negb andb bind].
      rewrite loop_stop by (cbn [argp]; rewrite Hend; reflexivity).
      reflexivity. }
    destruct (X ci1) as [c1 E1]. destruct (X ci2) as [c2 E2].
    rewrite E1, E2. cbn [bind]. rewrite !Y. eexists _, _.
    split; reflexivity.
Qed.

(** C9 on [-func foo -line 3], and on [-func foo], where both parses
    return the location of the function [foo]. *)
Lemma option_name_abbreviation_witness :
  alike same_location
    (string_to_explicit_location sample_collaborators
       (Some (cs "-func foo -line 3")) language_c None)
    (string_to_explicit_location sample_collaborators
       (Some (cs "-function foo -line 3")) language_c None)
  /\ exists ci1 ci2 : option explicit_completion_info,
       string_to_explicit_location sample_collaborators
         (Some (cs "-func foo")) language_c None
       = Ret (Some (mk_event_location []
                      (explicit_data
                         (set_function_name initialize_explicit_location
                            (Some (cs "foo"))))),
              Some [], ci1)
       /\ string_to_explicit_location sample_collaborators
            (Some (cs "-function foo")) language_c None
          = Ret (Some (mk_event_location []
                         (explicit_data
                            (set_function_name initialize_explicit_location
                               (Some (cs "foo"))))),
                 Some [], ci2).
Proof.
  split.
  - apply (option_name_abbreviation sample_collaborators language_c None
             (cs "foo -line 3")); reflexivity.
  - apply (proj2 (option_name_abbreviation sample_collaborators language_c
                    None (cs "foo") eq_refl eq_refl eq_refl)
             (cs "foo") []); reflexivity.
Defined.

(** ** The fuel of the loops is enough *)

Lemma symbol_span_fuel (env : collaborators) (lang : language) (f1 : nat) :
  forall (f2 : nat) (p : cstring),
    List.length p < f1 -> List.length p < f2 ->
    symbol_span env f1 lang p = symbol_span env f2 lang p.
Proof.
  induction f1 as [|f1 IH]; intros f2 p H1 H2; [lia|].
  destruct f2 as [|f2]; [lia|]. cbn [symbol_span].
  destruct (negb (is_nul (peek p))) eqn:E; [|reflexivity].
  apply negb_true_iff in E. destruct (peek_not_nul p E) as [c [r ->]].
  destruct (_ && _ && _); [|reflexivity].
  destruct (_ && _).
  - destruct (skipn CP_OPERATOR_LEN (c :: r)) as [|x behind] eqn:Es;
      [reflexivity|].
    pose proof (length_skipn CP_OPERATOR_LEN (c :: r)) as L. rewrite Es in L.
    cbn [List.length] in *.
    rewrite (IH f2 behind); [reflexivity|lia|lia].
  - cbn [tl]. cbn [List.length] in *.
    rewrite (IH f2 r); [reflexivity|lia|lia].
Qed.

Lemma symbol_span_finishes (env : collaborators) (lang : language)
  (fuel : nat) :
  forall p : cstring,
    List.length p < fuel -> finished (symbol_span env fuel lang p).
Proof.
  induction fuel as [|fuel IH]; intros p H; [lia|]. cbn [symbol_span].
  destruct (negb (is_nul (peek p))) eqn:E; [|exact I].
  apply negb_true_iff in E. destruct (peek_not_nul p E) as [c [r ->]].
  destruct (_ && _ && _); [|exact I].
  destruct (_ && _).
  - destruct (skipn CP_OPERATOR_LEN (c :: r)) as [|x behind] eqn:Es;
      [exact I|].
    pose proof (length_skipn CP_OPERATOR_LEN (c :: r)) as L. rewrite Es in L.
    cbn [List.length] in *.
    assert (F : finished (symbol_span env fuel lang behind))
      by (apply IH; lia).
    destruct (symbol_span env fuel lang behind); cbn [bind finished] in *;
      try exact I; contradiction.
  - cbn [tl]. cbn [List.length] in *.
    assert (F : finished (symbol_span env fuel lang r)) by (apply IH; lia).
    destruct (symbol_span env fuel lang r); cbn [bind finished] in *;
      try exact I; contradiction.
Qed.

(** What the scan returns is a number of characters of the string, and
    the scan stopped where its test fails. *)
Lemma symbol_span_result (env : collaborators) (lang : language)
  (fuel : nat) :
  forall (p : cstring) (n : nat),
    symbol_span env fuel lang p = Ret n ->
    n <= List.length p /\ stops_token env (skipn n p) = true.
Proof.
  induction fuel as [|fuel IH]; intros p n; cbn [symbol_span];
    [discriminate|].
  destruct (negb (is_nul (peek p)) && negb (chr_eq (peek p) ",")
            && negb (isspace (peek p) || lex_keyword env (tl p))) eqn:G.
  - destruct (is_cplus lang && startswith p CP_OPERATOR_STR).
    + destruct (skipn CP_OPERATOR_LEN p) as [|x behind] eqn:Es;
        [discriminate|].
      destruct (symbol_span env fuel lang behind) as [m| | | |] eqn:Em;
        cbn [bind]; try discriminate.
      intros H; injection H as <-. destruct (IH behind m Em) as [I1 I2].
      pose proof (length_skipn CP_OPERATOR_LEN p) as L. rewrite Es in L.
      cbn [List.length] in L.
      split; [unfold CP_OPERATOR_LEN in *; lia|].
      assert (Ek : skipn (CP_OPERATOR_LEN + 1 + m) p = skipn m behind).
      { replace behind with (skipn 1 (skipn CP_OPERATOR_LEN p))
          by (rewrite Es; reflexivity).
        rewrite !skipn_skipn. f_equal. lia. }
      change (stops_token env (skipn (CP_OPERATOR_LEN + 1 + m) p) = true).
      rewrite Ek. exact I2.
    + destruct p as [|c r]; [discriminate G|]. cbn [tl].
      destruct (symbol_span env fuel lang r) as [m| | | |] eqn:Em;
        cbn [bind]; try discriminate.
      intros H; injection H as <-. destruct (IH r m Em) as [I1 I2].
      split; [cbn [List.length]; lia|exact I2].
  - intros H; injection H as <-. split; [lia|]. cbn [skipn].
    unfold stops_token.
    destruct (is_nul (peek p)), (chr_eq (peek p) ","), (isspace (peek p)),
      (lex_keyword env (tl p)); cbn in *; congruence.
Qed.

(** The scan raises no error and dereferences no null pointer. *)
Lemma symbol_span_outcomes (env : collaborators) (lang : language)
  (fuel : nat) :
  forall p : cstring,
    (exists n, symbol_span env fuel lang p = Ret n)
    \/ symbol_span env fuel lang p = Overrun
    \/ symbol_span env fuel lang p = Timeout.
Proof.
  induction fuel as [|fuel IH]; intros p; cbn [symbol_span]; [tauto|].
  destruct (_ && _ && _); [|left; eexists; reflexivity].
  destruct (_ && _).
  - destruct (skipn CP_OPERATOR_LEN p) as [|x behind]; [tauto|].
    destruct (IH behind) as [[n ->]| [-> | ->]]; cbn [bind];
      [left; eexists; reflexivity|tauto|tauto].
  - destruct (IH (tl p)) as [[n ->]| [-> | ->]]; cbn [bind];
      [left; eexists; reflexivity|tauto|tauto].
Qed.

Lemma strncmp_eq_firstn (n : nat) :
  forall a b : cstring,
    strncmp_eq a b n = true -> n <= List.length b ->
    Forall (fun c => is_nul c = false) (firstn n b) ->
    a = firstn n b ++ skipn n a.
Proof.
  induction n as [|n IH]; intros a b H Hn Hb; [reflexivity|].
  destruct b as [|y b]; [cbn in Hn; lia|].
  cbn [firstn] in Hb. inversion Hb as [|? ? Hy Hb']; subst.
  cbn [strncmp_eq peek hd tl] in H.
  destruct (chr_eq (peek a) y) eqn:E; [|discriminate].
  apply Ascii.eqb_eq in E. destruct a as [|x a]; cbn [peek hd] in E.
  { subst y. discriminate Hy. }
  subst y. cbn [peek hd tl] in H. rewrite Hy in H.
  cbn [firstn skipn app]. f_equal.
  apply IH; [exact H|cbn in Hn; lia|exact Hb'].
Qed.

Lemma startswith_operator (p : cstring) :
  startswith p CP_OPERATOR_STR = true ->
  p = CP_OPERATOR_STR ++ skipn CP_OPERATOR_LEN p.
Proof.
  intros H.
  apply (strncmp_eq_firstn CP_OPERATOR_LEN p CP_OPERATOR_STR H);
    [exact (le_n 8)|repeat constructor].
Qed.

(** The scan returns unless, in C++, the string ends with the word
    [operator]. *)
Lemma symbol_span_returns (env : collaborators) (lang : language)
  (fuel : nat) :
  forall p : cstring,
    List.length p < fuel ->
    is_cplus lang = false \/ ~ ends_with_operator p ->
    exists n, symbol_span env fuel lang p = Ret n.
Proof.
  induction fuel as [|fuel IH]; intros p Hf Hp; [lia|]. cbn [symbol_span].
  destruct (negb (is_nul (peek p)) && negb (chr_eq (peek p) ",")
            && negb (isspace (peek p) || lex_keyword env (tl p))) eqn:G;
    [|eexists; reflexivity].
  destruct p as [|c r]; [discriminate G|]. cbn [List.length] in Hf.
  destruct (is_cplus lang && startswith (c :: r) CP_OPERATOR_STR) eqn:O.
  - apply andb_true_iff in O. destruct O as [O1 O2].
    destruct Hp as [Hp|Hp]; [congruence|].
    pose proof (startswith_operator (c :: r) O2) as Ep.
    pose proof (length_skipn CP_OPERATOR_LEN (c :: r)) as L.
    destruct (skipn CP_OPERATOR_LEN (c :: r)) as [|x behind] eqn:Es.
    + exfalso. apply Hp. exists []. rewrite app_nil_r in Ep. exact Ep.
    + cbn [List.length] in L.
      destruct (IH behind) as [m Em]; [lia| |].
      { right. intros [front Ef]. apply Hp.
        exists (CP_OPERATOR_STR ++ x :: front). rewrite Ep, Ef.
        rewrite <- app_assoc. reflexivity. }
      rewrite Em. eexists; reflexivity.
  - cbn [tl]. destruct (IH r) as [m Em]; [lia| |].
    { destruct Hp as [Hp|Hp]; [left; exact Hp|right].
      intros [front Ef]. apply Hp. exists (c :: front). rewrite Ef.
      reflexivity. }
    rewrite Em. eexists; reflexivity.
Qed.










Lemma find_end_quote_from_inside (n : nat) :
  forall (s : cstring) (nested c : ascii) (k : nat),
    List.length s <= n ->
    find_end_quote_from nested s c = Some k -> k < List.length s.
Proof.
  induction n as [|n IH]; intros s nested c k Hn;
    destruct s as [|x r]; cbn [find_end_quote_from List.length] in *;
    try discriminate; [lia|].
  assert (St : forall q, option_map S (find_end_quote_from q r c) = Some k ->
                         k < S (List.length r)).
  { intros q H. destruct (find_end_quote_from q r c) as [j|] eqn:E;
      [|discriminate]. injection H as <-. apply IH in E; lia. }
  destruct (is_nul x); [discriminate|].
  destruct (negb (is_nul nested)).
  - destruct (chr_eq x nested); [apply St|].
    destruct (chr_eq x "\" && negb (is_nul (peek r))); [|apply St].
    destruct r as [|y r']; [discriminate|].
    destruct (find_end_quote_from nested r' c) as [j|] eqn:E;
      cbn [option_map]; [|discriminate].
    intros H; injection H as <-. apply IH in E; cbn [List.length] in *; lia.
  - destruct (chr_eq x c); [intros H; injection H as <-; lia|].
    destruct (_ || _); apply St.
Qed.

(** The instance of the collaborators is well behaved. *)
Lemma sample_collaborators_well_behaved : well_behaved sample_collaborators.
Proof.
  split.
  - intros s c k H. exact (find_end_quote_from_inside (List.length s) s NUL c k
                             (le_n _) H).
  - intros s. cbn [linespec_parse_line_offset sample_collaborators].
    unfold sample_parse_line_offset.
    destruct (chr_eq (peek s) "+"); [|destruct (chr_eq (peek s) "-")];
      destruct (_ && _); split; discriminate.
Qed.

(** ** Where the option loop leaves the cursor *)

Lemma skip_spaces_suffix (p : cstring) : exists k, skip_spaces p = skipn k p.
Proof.
  induction p as [|c r [k IH]]; [exists 0; reflexivity|].
  cbn [skip_spaces]. destruct (isspace c); [|exists 0; reflexivity].
  exists (S k). exact IH.
Qed.

Local Opaque skipn.

Lemma lex_one_suffix (env : collaborators) (inp : cstring) (lang : language)
  (ci ci' : option explicit_completion_info) (tok : option cstring)
  (rest : cstring) :
  explicit_location_lex_one env inp lang ci = Ret (tok, rest, ci') ->
  exists k, rest = skipn k inp.
Proof.
  unfold explicit_location_lex_one.
  destruct (is_nul (peek inp));
    [intros H; injection H as _ <- _; exists 0; reflexivity|].
  destruct (strchr _ _).
  { destruct (find_end_quote _ _).
    - intros H; injection H as ? ? ?; subst. eauto.
    - destruct (is_null _); [discriminate|].
      intros H; injection H as ? ? ?; subst. eauto. }
  destruct (chr_eq _ _ || chr_eq _ _).
  { destruct (0 <? _); intros H; injection H as ? ? ?; subst; eauto. }
  destruct (is_nul _ || isspace _ || chr_eq _ _).
  { intros H; injection H as ? ? ?; subst; eauto. }
  destruct (symbol_span env _ lang inp); cbn [bind]; try discriminate.
  destruct (0 <? _); intros H; injection H as ? ? ?; subst; eauto.
Qed.

Lemma lex_one_function_suffix (env : collaborators) (inp : cstring)
  (lang : language) (ci ci' : option explicit_completion_info)
  (tok : option cstring) (rest : cstring) :
  explicit_location_lex_one_function env inp lang ci = Ret (tok, rest, ci') ->
  exists k, rest = skipn k inp.
Proof.
  unfold explicit_location_lex_one_function.
  destruct (is_nul (peek inp));
    [intros H; injection H as _ <- _; exists 0; reflexivity|].
  destruct (lexes_as_quoted _ _ _).
  { destruct (find_toplevel_char _ _ _).
    - intros H; injection H as ? ? ?; subst. eauto.
    - destruct (is_null _); [discriminate|].
      intros H; injection H as ? ? ?; subst. eauto. }
  destruct (function_name_end env inp); cbn [bind]; try discriminate.
  destruct (0 <? _); intros H; injection H as ? ? ?; subst; eauto.
Qed.

Local Transparent skipn.

Lemma suffix_trans (p q r : cstring) :
  (exists k, q = skipn k p) -> (exists k, r = skipn k q) ->
  exists k, r = skipn k p.
Proof.
  intros [a ->] [b ->]. exists (b + a). apply skipn_skipn.
Qed.

Lemma suffix_refl (p : cstring) : exists k, p = skipn k p.
Proof. exists 0. reflexivity. Qed.

Lemma round_tail_suffix (opt : cstring) (loc : explicit_location)
  (a : cstring) (ci : option explicit_completion_info) (need have : bool)
  (r : round_end) :
  round_tail opt loc a ci need have = Ret r ->
  exists st', r = Continue st' /\ exists k, argp st' = skipn k a.
Proof.
  unfold round_tail. destruct (_ && _); [discriminate|].
  intros H; injection H as <-. eexists. split; [reflexivity|].
  apply skip_spaces_suffix.
Qed.

Ltac suffix_chain :=
  repeat match goal with
         | H : explicit_location_lex_one _ _ _ _ = Ret _ |- _ =>
             apply lex_one_suffix in H
         | H : explicit_location_lex_one_function _ _ _ _ = Ret _ |- _ =>
             apply lex_one_function_suffix in H
         end.

(** A round leaves the cursor at a later place of the same string; when
    it ends with [break] it leaves cursor and location as they were, and
    would do so for every location and completion info. *)
Lemma round_suffix (env : collaborators) (lang : language)
  (st : parser_state) (r : round_end) :
  explicit_location_round env lang st = Ret r ->
  match r with
  | Continue st' => exists k, argp st' = skipn k (argp st)
  | Break st' =>
      location st' = location st /\ argp st' = argp st
      /\ forall loc ci, exists st'',
           explicit_location_round env lang (mk_parser_state loc (argp st) ci)
           = Ret (Break st'')
           /\ location st'' = loc /\ argp st'' = argp st
  end.
Proof.
  destruct st as [loc a ci]. unfold explicit_location_round.
  cbn [location argp completion].
  destruct (lex_keyword env a).
  { intros H; injection H as <-. cbn [location argp]. repeat split.
    intros loc' ci'. eexists. repeat split. }
  destruct (explicit_location_lex_one env a lang None) as [[[opt a1] c]|e| | |]
    eqn:E; cbn [bind]; try discriminate.
  destruct opt as [opt|]; [|discriminate]. unfold round_on_option.
  assert (S1 : exists k, skip_spaces a1 = skipn k a).
  { apply (suffix_trans a a1); [apply (lex_one_suffix _ _ _ _ _ _ _ E)|].
    apply skip_spaces_suffix. }
  clear E.
  destruct (strncmp_eq opt (cs "-source") (strlen opt)).
  { destruct (explicit_location_lex_one env (skip_spaces a1) lang _)
      as [[[oarg a2] ci2]| | | |] eqn:E2; cbn [bind]; try discriminate.
    intros H. apply round_tail_suffix in H. destruct H as [st' [-> H]].
    suffix_chain. eauto using suffix_trans. }
  destruct (strncmp_eq opt (cs "-function") (strlen opt)).
  { destruct (explicit_location_lex_one_function env (skip_spaces a1) lang _)
      as [[[oarg a2] ci2]| | | |] eqn:E2; cbn [bind]; try discriminate.
    intros H. apply round_tail_suffix in H. destruct H as [st' [-> H]].
    suffix_chain. eauto using suffix_trans. }
  destruct (strncmp_eq opt (cs "-qualified") (strlen opt)).
  { intros H. apply round_tail_suffix in H. destruct H as [st' [-> H]].
    eauto using suffix_trans. }
  destruct (strncmp_eq opt (cs "-line") (strlen opt)).
  { destruct (explicit_location_lex_one env (skip_spaces a1) lang _)
      as [[[oarg a2] ci2]| | | |] eqn:E2; cbn [bind]; try discriminate.
    suffix_chain. pose proof (skip_spaces_suffix a2) as S2.
    destruct oarg as [arg|].
    - destruct (linespec_parse_line_offset env arg); cbn [bind];
        try discriminate.
      intros H; injection H as <-. cbn [argp]. eauto using suffix_trans.
    - intros H. apply round_tail_suffix in H. destruct H as [st' [-> H]].
      eauto using suffix_trans. }
  destruct (strncmp_eq opt (cs "-label") (strlen opt)).
  { destruct (explicit_location_lex_one env (skip_spaces a1) lang _)
      as [[[oarg a2] ci2]| | | |] eqn:E2; cbn [bind]; try discriminate.
    intros H. apply round_tail_suffix in H. destruct H as [st' [-> H]].
    suffix_chain. eauto using suffix_trans. }
  destruct (chr_eq (at_ opt 0) "-" && negb (isdigit (at_ opt 1))).
  { destruct (is_null _); [discriminate|].
    intros H. apply round_tail_suffix in H. destruct H as [st' [-> H]].
    eauto using suffix_trans. }
  intros H; injection H as <-. cbn [location argp]. repeat split.
  intros loc' ci'. eexists. repeat split.
Qed.

Lemma explicit_location_loop_result (env : collaborators) (lang : language)
  (fuel : nat) :
  forall st out : parser_state,
    explicit_location_loop env fuel lang st = Ret out ->
    (exists k, argp out = skipn k (argp st))
    /\ stops_option_loop env lang (argp out).
Proof.
  induction fuel as [|fuel IH]; intros st out; cbn [explicit_location_loop];
    destruct (negb (is_nul (peek (argp st)))
              && negb (chr_eq (peek (argp st)) ",")) eqn:G;
    try discriminate;
    try (intros H; injection H as <-; split;
         [apply suffix_refl | left; exact G]).
  destruct (explicit_location_round env lang st) as [r|e| | |] eqn:E;
    cbn [bind]; try discriminate.
  pose proof (round_suffix env lang st r E) as S.
  destruct r as [st'|st'].
  - intros H. destruct (IH st' out H) as [K1 K2].
    split; [|exact K2]. exact (suffix_trans _ _ _ S K1).
  - intros H; injection H as <-. destruct S as (S1 & S2 & S3).
    split; [rewrite S2; apply suffix_refl|]. right. rewrite S2. exact S3.
Qed.



(** ** Parsing a rendering *)


Lemma skip_spaces_id (s : cstring) :
  isspace (peek s) = false -> skip_spaces s = s.
Proof. destruct s as [|c r]; [reflexivity|]. cbn. intros ->. reflexivity. Qed.


(** ** Rendering *)


Lemma std_string_of_no_nul (s : cstring) : no_nul s -> std_string_of s = s.
Proof.
  unfold std_string_of. induction 1 as [|c r Hc Hr IH]; [reflexivity|].
  cbn [strlen]. rewrite Hc. cbn [firstn]. f_equal. exact IH.
Qed.

Lemma no_nul_firstn (n : nat) (s : cstring) : no_nul s -> no_nul (firstn n s).
Proof.
  intros H. revert n. induction H as [|c r Hc Hr IH]; intros [|n];
    cbn [firstn]; try constructor; auto. apply IH.
Qed.



(** ** What the constructor of a linespec location stores *)




(** ** Round trip of the locations of basic resolution *)





(** ** Parsing the rendering of an explicit location *)

Lemma join_cons (o : rendered_option) (behind : list rendered_option) :
  join " "%char (map option_text (o :: behind))
  = option_text o ++ text_behind behind.
Proof.
  destruct behind as [|o' behind]; cbn [map join text_behind];
    [rewrite app_nil_r|]; reflexivity.
Qed.

Lemma option_text_starts (o : rendered_option) :
  exists c r, option_text o = "-"%char :: c :: r
              /\ isalpha c = true /\ chr_eq c "p"%char = false.
Proof. destruct o; cbn; eexists _, _; repeat split. Qed.

Lemma skip_spaces_text_behind (behind : list rendered_option) :
  skip_spaces (text_behind behind) = join " "%char (map option_text behind).
Proof.
  destruct behind as [|o behind]; [reflexivity|].
  cbn [text_behind skip_spaces]. change (isspace " ") with true. cbv iota.
  rewrite join_cons. destruct (option_text_starts o) as (c & r & -> & _).
  reflexivity.
Qed.

Lemma text_behind_cases (behind : list rendered_option) :
  text_behind behind = [] \/ exists r, text_behind behind = " "%char :: r.
Proof. destruct behind; [left|right; eexists]; reflexivity. Qed.

(** The option name in front of an argument is lexed as the option
    token. *)
Lemma lex_option_name (env : collaborators) (lang : language)
  (name rest : cstring) :
  strchr (quote_characters env) "-"%char = false ->
  In name [cs "-source"; cs "-function"; cs "-qualified"; cs "-label";
           cs "-line"] ->
  rest = [] \/ (exists r, rest = " "%char :: r) ->
  explicit_location_lex_one env (name ++ rest) lang None
  = Ret (Some name, rest, None).
Proof.
  intros Hq Hn Hr. unfold explicit_location_lex_one.
  assert (Hp : peek (name ++ rest) = "-"%char).
  { cbn in Hn. decompose [or] Hn; subst; try contradiction; reflexivity. }
  rewrite Hp, Hq. change (is_nul "-") with false.
  change (chr_eq "-" "-" || chr_eq "-" "+") with true. cbv iota.
  assert (Hs : span_to_space_or_comma (name ++ rest) = List.length name).
  { cbn in Hn. decompose [or] Hn; subst; try contradiction;
      destruct Hr as [-> | [r ->]]; reflexivity. }
  rewrite Hs.
  assert (Hl : (0 <? List.length name) = true).
  { cbn in Hn. decompose [or] Hn; subst; try contradiction; reflexivity. }
  rewrite Hl. unfold savestring.
  rewrite firstn_app, firstn_all, Nat.sub_diag, skipn_app, skipn_all,
    Nat.sub_diag. cbn [firstn skipn app]. rewrite app_nil_r. reflexivity.
Qed.

Lemma skip_spaces_join (options : list rendered_option) :
  skip_spaces (join " "%char (map option_text options))
  = join " "%char (map option_text options).
Proof.
  destruct options as [|o behind]; [reflexivity|]. rewrite join_cons.
  destruct (option_text_starts o) as (c & r & -> & _). reflexivity.
Qed.

Lemma round_rendered_option (env : collaborators) (lang : language)
  (loc : explicit_location) (o : rendered_option)
  (behind : list rendered_option) :
  strchr (quote_characters env) "-"%char = false ->
  lexes_back env lang o (text_behind behind) ->
  explicit_location_round env lang
    (mk_parser_state loc (option_text o ++ text_behind behind) None)
  = Ret (Continue (mk_parser_state (store_option loc o)
                     (join " "%char (map option_text behind)) None)).
Proof.
  intros Hq [Hk Ho]. unfold explicit_location_round.
  cbn [location argp completion]. rewrite Hk.
  cbn [set_quoted_arg_start set_quoted_arg_end set_last_option option_map].
  pose proof (text_behind_cases behind) as Ht.
  pose proof (skip_spaces_text_behind behind) as Hs.
  pose proof (skip_spaces_join behind) as Hj.
  remember (text_behind behind) as tail eqn:Et.
  remember (join " "%char (map option_text behind)) as next eqn:En.
  destruct o as [a| |a|a|lo]; cbn [option_text store_option] in *.
  - change ((cs "-source " ++ a) ++ tail)
      with (cs "-source" ++ " "%char :: (a ++ tail)).
    rewrite (lex_option_name env lang (cs "-source") _ Hq);
      [|cbn; tauto|right; eexists; reflexivity].
    cbn [bind]. unfold round_on_option.
    change (strncmp_eq (cs "-source") (cs "-source") (strlen (cs "-source")))
      with true. cbv iota. cbn [skip_spaces].
    change (isspace " ") with true. cbv iota.
    destruct Ho as [Hsp Hl]. rewrite (skip_spaces_id _ Hsp), Hl.
    cbn [bind]. unfold round_tail. cbn. rewrite Hs. reflexivity.
  - rewrite (lex_option_name env lang (cs "-qualified") tail Hq);
      [|cbn; tauto|exact Ht].
    cbn [bind]. unfold round_on_option.
    change (strncmp_eq (cs "-qualified") (cs "-source")
              (strlen (cs "-qualified"))) with false.
    change (strncmp_eq (cs "-qualified") (cs "-function")
              (strlen (cs "-qualified"))) with false.
    change (strncmp_eq (cs "-qualified") (cs "-qualified")
              (strlen (cs "-qualified"))) with true.
    cbv iota. unfold round_tail. cbn [andb]. rewrite Hs, Hj. reflexivity.
  - change ((cs "-function " ++ a) ++ tail)
      with (cs "-function" ++ " "%char :: (a ++ tail)).
    rewrite (lex_option_name env lang (cs "-function") _ Hq);
      [|cbn; tauto|right; eexists; reflexivity].
    cbn [bind]. unfold round_on_option.
    change (strncmp_eq (cs "-function") (cs "-source")
              (strlen (cs "-function"))) with false.
    change (strncmp_eq (cs "-function") (cs "-function")
              (strlen (cs "-function"))) with true.
    cbv iota. cbn [skip_spaces].
    change (isspace " ") with true. cbv iota.
    destruct Ho as [Hsp Hl]. rewrite (skip_spaces_id _ Hsp), Hl.
    cbn [bind]. unfold round_tail. cbn. rewrite Hs. reflexivity.
  - change ((cs "-label " ++ a) ++ tail)
      with (cs "-label" ++ " "%char :: (a ++ tail)).
    rewrite (lex_option_name env lang (cs "-label") _ Hq);
      [|cbn; tauto|right; eexists; reflexivity].
    cbn [bind]. unfold round_on_option.
    change (strncmp_eq (cs "-label") (cs "-source") (strlen (cs "-label")))
      with false.
    change (strncmp_eq (cs "-label") (cs "-function") (strlen (cs "-label")))
      with false.
    change (strncmp_eq (cs "-label") (cs "-qualified") (strlen (cs "-label")))
      with false.
    change (strncmp_eq (cs "-label") (cs "-line") (strlen (cs "-label")))
      with false.
    change (strncmp_eq (cs "-label") (cs "-label") (strlen (cs "-label")))
      with true.
    cbv iota. cbn [skip_spaces].
    change (isspace " ") with true. cbv iota.
    destruct Ho as [Hsp Hl]. rewrite (skip_spaces_id _ Hsp), Hl.
    cbn [bind]. unfold round_tail. cbn. rewrite Hs. reflexivity.
  - change ((cs "-line " ++ line_offset_text lo) ++ tail)
      with (cs "-line" ++ " "%char :: (line_offset_text lo ++ tail)).
    rewrite (lex_option_name env lang (cs "-line") _ Hq);
      [|cbn; tauto|right; eexists; reflexivity].
    cbn [bind]. unfold round_on_option.
    change (strncmp_eq (cs "-line") (cs "-source") (strlen (cs "-line")))
      with false.
    change (strncmp_eq (cs "-line") (cs "-function") (strlen (cs "-line")))
      with false.
    change (strncmp_eq (cs "-line") (cs "-qualified") (strlen (cs "-line")))
      with false.
    change (strncmp_eq (cs "-line") (cs "-line") (strlen (cs "-line")))
      with true.
    cbv iota. cbn [skip_spaces].
    change (isspace " ") with true. cbv iota.
    destruct Ho as (Hsp & Hl & Hp). rewrite (skip_spaces_id _ Hsp), Hl.
    cbn [bind]. rewrite Hp. cbn [bind]. rewrite Hs. reflexivity.
Qed.

Lemma length_text_behind (behind : list rendered_option) :
  List.length (join " "%char (map option_text behind))
  <= List.length (text_behind behind).
Proof. destruct behind; cbn [text_behind List.length]; [cbn|]; lia. Qed.

Lemma loop_rendered_options (env : collaborators) (lang : language) :
  strchr (quote_characters env) "-"%char = false ->
  forall (options : list rendered_option) (loc : explicit_location)
         (fuel : nat),
    all_lex_back env lang options ->
    List.length (join " "%char (map option_text options)) < fuel ->
    explicit_location_loop env fuel lang
      (mk_parser_state loc (join " "%char (map option_text options)) None)
    = Ret (mk_parser_state (fold_left store_option options loc) [] None).
Proof.
  intros Hq. induction options as [|o behind IH]; intros loc fuel Hall Hf.
  - destruct fuel; reflexivity.
  - destruct fuel as [|fuel]; [lia|]. destruct Hall as [Ho Hall].
    rewrite join_cons in *. cbn [explicit_location_loop argp].
    destruct (option_text_starts o) as (c & r & Eo & _).
    assert (G : negb (is_nul (peek (option_text o ++ text_behind behind)))
                && negb (chr_eq (peek (option_text o ++ text_behind behind))
                           ",") = true) by (rewrite Eo; reflexivity).
    rewrite G, (round_rendered_option env lang loc o behind Hq Ho).
    cbn [bind fold_left]. apply IH; [exact Hall|].
    rewrite length_app, Eo in Hf. cbn [List.length] in Hf.
    pose proof (length_text_behind behind). lia.
Qed.

Lemma parse_rendered_options (env : collaborators) (lang : language)
  (options : list rendered_option) :
  strchr (quote_characters env) "-"%char = false ->
  options <> [] ->
  all_lex_back env lang options ->
  source_filename_alone (fold_left store_option options (copy_loc None))
  = false ->
  string_to_explicit_location env
    (Some (join " "%char (map option_text options))) lang None
  = Ret (Some (mk_event_location []
                 (explicit_data
                    (fold_left store_option options (copy_loc None)))),
         Some [], None).
Proof.
  intros Hq Hne Hall Hs. unfold string_to_explicit_location.
  assert (G : not_an_explicit_location (join " "%char (map option_text options))
              = false).
  { destruct options as [|o behind]; [congruence|]. rewrite join_cons.
    destruct (option_text_starts o) as (c & r & -> & Ha & Hp).
    unfold not_an_explicit_location. cbn [app at_ nth].
    rewrite Ha, Hp. reflexivity. }
  rewrite G, (loop_rendered_options env lang Hq options _ _ Hall (Nat.lt_succ_diag_r _)).
  cbn [bind location argp completion]. rewrite Hs. reflexivity.
Qed.

Lemma std_string_of_idem (s : cstring) :
  std_string_of (std_string_of s) = std_string_of s.
Proof.
  unfold std_string_of. induction s as [|c r IH]; [reflexivity|].
  cbn [strlen]. destruct (is_nul c) eqn:E; [reflexivity|].
  cbn [firstn strlen]. rewrite E. cbn [firstn]. f_equal. exact IH.
Qed.


(** ** Round trip of explicit locations *)



Lemma strlen_le_length (s : cstring) : strlen s <= List.length s.
Proof.
  induction s as [|c r IH]; cbn; [lia|]. destruct (is_nul c); lia.
Qed.

Lemma sample_tokenizer_inside : tokenizer_inside sample_collaborators.
Proof.
  intros s n. cbn [linespec_lex_to_end sample_collaborators].
  unfold sample_lex_to_end. intros H; injection H as <-.
  destruct (find_end_quote s ",") as [k|] eqn:E.
  - pose proof (find_end_quote_from_inside (List.length s) s NUL "," k
                  (le_n _) E). lia.
  - apply strlen_le_length.
Qed.




(** An explicit location whose function name was quoted does not lex
    back: the name loses its quotes in the rendering, and the rendering
    parses to another location. *)
Lemma quoted_function_name_reparse :
  let text := cs "-function " ++ DQUOTE :: cs "foo, bar" ++ [DQUOTE] in
  let L := mk_event_location []
             (explicit_data (set_function_name initialize_explicit_location
                               (Some (cs "foo, bar")))) in
  let L' := mk_event_location []
              (explicit_data (set_function_name initialize_explicit_location
                                (Some (cs "foo")))) in
  string_to_event_location sample_collaborators (Some text) language_c WILD
  = Ret (L, Some [])
  /\ event_location_to_string sample_collaborators L
     = Some (cs "-function foo, bar")
  /\ string_to_event_location sample_collaborators
       (Some (cs "-function foo, bar")) language_c WILD
     = Ret (L', Some (cs ", bar"))
  /\ event_location_to_string sample_collaborators L'
     = Some (cs "-function foo").
Proof. repeat split. Qed.

(** ** When the option token is not null *)

(** At a cursor where the loop runs (no NUL, no comma, no whitespace in
    front), [explicit_location_lex_one] returns a token unless a linespec
    keyword starts right behind the first character. *)
Lemma option_token_not_null (env : collaborators) (a : cstring)
  (lang : language) (tok : option cstring) (rest : cstring)
  (ci : option explicit_completion_info) :
  is_nul (peek a) = false ->
  chr_eq (peek a) ","%char = false ->
  isspace (peek a) = false ->
  lex_keyword env (tl a) = false ->
  explicit_location_lex_one env a lang None = Ret (tok, rest, ci) ->
  tok <> None.
Proof.
  intros Hn Hc Hs Hk. unfold explicit_location_lex_one. rewrite Hn.
  destruct (peek_not_nul a Hn) as [c [r ->]]. cbn [peek hd tl] in *.
  destruct (strchr _ _).
  { destruct (find_end_quote _ _); cbn [is_null set_quoted_arg_start option_map];
      [|discriminate]. intros H; injection H as <- _ _. discriminate. }
  destruct (chr_eq c "-" || chr_eq c "+") eqn:E.
  { cbn [span_to_space_or_comma]. rewrite Hn, Hc, Hs. cbn [orb].
    change (0 <? S (span_to_space_or_comma r)) with true. cbv iota.
    intros H; injection H as <- _ _. discriminate. }
  destruct (is_nul _ || isspace _ || chr_eq _ _).
  { intros H; injection H as <- _ _. discriminate. }
  cbn [symbol_span peek hd tl]. rewrite Hn, Hc, Hs, Hk. cbn [negb andb orb].
  destruct (is_cplus lang && startswith (c :: r) CP_OPERATOR_STR).
  - destruct (skipn CP_OPERATOR_LEN (c :: r)) as [|x behind];
      [discriminate|].
    destruct (symbol_span env _ lang behind) as [n| | | |]; cbn [bind];
      try discriminate.
    change (0 <? CP_OPERATOR_LEN + 1 + n) with true. cbv iota.
    intros H; injection H as <- _ _; discriminate.
  - destruct (symbol_span env _ lang r) as [n| | | |]; cbn [bind];
      try discriminate.
    change (0 <? 1 + n) with true. cbv iota.
    intros H; injection H as <- _ _; discriminate.
Qed.

(** ** Empty explicit locations and empty renderings *)

Lemma app_not_nil_l {A : Type} (a b : list A) : a <> [] -> a ++ b <> [].
Proof. destruct a; [congruence|discriminate]. Qed.

(** X1.  An explicit location renders, in explicit form, to the empty
    string exactly when it is empty ([empty_p]): every member that is
    present writes its option name at least.  So [to_string] on a fresh
    explicit location returns null exactly when the location is empty. *)
Theorem explicit_rendering_empty (env : collaborators) (e : explicit_location) :
  (explicit_location_to_string e = [] <-> explicit_empty_p e = true)
  /\ (event_location_to_string env (new_explicit_location (Some e)) = None
      <-> explicit_empty_p e = true).
Proof.
  assert (A : explicit_location_to_string e = [] <-> explicit_empty_p e = true).
  { unfold explicit_location_to_string, explicit_to_string_internal,
      explicit_empty_p.
    destruct e as [src fn m lbl [off sg]]; cbn [source_filename function_name
      label_name line_offset_of sign offset func_name_match_type].
    destruct src as [src|], fn as [fn|], lbl as [lbl|], sg, m;
      cbn -[std_string_of print_int];
      split; intros H; try reflexivity; try discriminate H;
      exfalso; repeat rewrite <- app_assoc in H; cbn in H; discriminate H. }
  split; [exact A|].
  unfold event_location_to_string, to_string, new_explicit_location.
  cbn [as_string data std_empty compute_string].
  assert (C : copy_loc (Some e) = e) by (destruct e; reflexivity).
  rewrite C. rewrite <- A.
  destruct (explicit_location_to_string e) eqn:E; cbn [as_string std_empty returned].
  - split; reflexivity.
  - split; discriminate.
Qed.

(** ** Copies of locations *)

(** X2.  A copy of a location has the type, the emptiness and the cached
    string of the original and renders as the original does; the copy of
    a location that was rendered to a string does not compute the string
    again. *)
Theorem copy_renders_alike (env : collaborators) (l : event_location) :
  type_of (copy_event_location l) = type_of l
  /\ event_location_empty_p (copy_event_location l) = event_location_empty_p l
  /\ as_string (copy_event_location l) = as_string l
  /\ event_location_to_string env (copy_event_location l)
     = event_location_to_string env l
  /\ (event_location_to_string env l <> None ->
      compute_string_calls
        (to_string env (copy_event_location (object (to_string env l)))) = 0).
Proof.
  assert (C : forall e, copy_loc (Some e) = e) by (intros []; reflexivity).
  assert (K : compute_string env (copy_event_location l) = compute_string env l).
  { destruct l as [s [|[m [sp|]]|a|e]]; cbn; try reflexivity.
    all: try (unfold xstrdup; rewrite std_string_of_idem; reflexivity).
    all: try (rewrite C; reflexivity). }
  assert (S : forall x, as_string (copy_event_location x) = as_string x)
    by (intros [s [|ls|a|e]]; reflexivity).
  repeat split.
  - destruct l as [s [|ls|a|e]]; reflexivity.
  - destruct l as [s [|ls|a|e]]; reflexivity.
  - apply S.
  - unfold event_location_to_string, to_string. rewrite S.
    destruct (std_empty (as_string l)) eqn:E.
    + cbn [as_string]. rewrite K.
      destruct (std_empty (compute_string env l)); reflexivity.
    + rewrite S, E. reflexivity.
  - intros Hne.
    rewrite to_string_cached; [reflexivity|]. rewrite S.
    revert Hne. unfold event_location_to_string, to_string.
    destruct (std_empty (as_string l)) eqn:E.
    + cbn [as_string].
      destruct (std_empty (compute_string env l)) eqn:E'; cbn [returned object];
        [congruence|]. intros _. exact E'.
    + rewrite E. cbn [returned object]. intros _. exact E.
Qed.

(** ** The strings of address and probe locations *)

(** X3.  An address location built with a text of one character or more
    hands that text out as its string, without asking for the address to
    be printed; built without text, or with a text of length zero, it
    prints as an asterisk and the address.  A probe location hands out
    the string it was built from, and null if that string is empty.  The
    accessors of one class fail on a location of the other. *)
Theorem address_and_probe_strings (env : collaborators) (a : CORE_ADDR)
  (addr_string : option cstring) (n : nat) (probe : std_string) :
  get_address_location (new_address_location a addr_string n) = Some a
  /\ get_address_string_location env (new_address_location a addr_string n)
     = Some
         (match addr_string with
          | Some (c :: text) =>
              match n with
              | S k =>
                  mk_to_string_result (Some (c :: firstn k text))
                    (new_address_location a addr_string n) 0
              | 0 =>
                  mk_to_string_result
                    (Some ("*"%char :: std_string_of (core_addr_to_string env a)))
                    (mk_event_location
                       ("*"%char :: std_string_of (core_addr_to_string env a))
                       (address_data a)) 1
              end
          | _ =>
              mk_to_string_result
                (Some ("*"%char :: std_string_of (core_addr_to_string env a)))
                (mk_event_location
                   ("*"%char :: std_string_of (core_addr_to_string env a))
                   (address_data a)) 1
          end)
  /\ option_map returned (get_probe_location env (new_probe_location probe))
     = Some (match probe with [] => None | _ => Some probe end)
  /\ get_probe_location env (new_address_location a addr_string n) = None
  /\ get_address_string_location env (new_probe_location probe) = None
  /\ get_address_location (new_probe_location probe) = None.
Proof.
  split; [reflexivity|]. split.
  - destruct addr_string as [[|c text]|]; [destruct n| |]; try reflexivity.
    destruct n; reflexivity.
  - split; [destruct probe; reflexivity|]. repeat split.
Qed.

(** ** The string setter *)

(** X4.  [set_event_location_string] with a string that is not empty
    fixes what [to_string] returns, whatever the location holds: every
    later call returns that string and none computes.  With the empty
    string on a probe location the text of the probe is gone: every later
    call computes and returns null. *)
Theorem string_setter_overrides (env : collaborators) (l : event_location)
  (c : ascii) (s probe : std_string) (n : nat) :
  to_string_repeatedly env n (set_event_location_string l (c :: s))
  = (repeat (Some (c :: s)) n, set_event_location_string l (c :: s), 0)
  /\ to_string_repeatedly env n
       (set_event_location_string (new_probe_location probe) [])
     = (repeat None n, new_probe_location [], n).
Proof.
  split.
  - apply (to_string_repeatedly_cached env n
             (set_event_location_string l (c :: s))). reflexivity.
  - induction n as [|n IH]; [reflexivity|].
    cbn [to_string_repeatedly]. unfold set_event_location_string in *.
    cbn in *. rewrite IH. reflexivity.
Qed.

(** ** The dispatcher never returns an empty location *)

Lemma basic_not_explicit (env : collaborators) (stringp : option cstring)
  (lang : language) (m : symbol_name_match_type) (L : event_location)
  (rest : option cstring) :
  string_to_event_location_basic env stringp lang m = Ret (L, rest) ->
  get_explicit_location L = None.
Proof.
  unfold string_to_event_location_basic, new_linespec_location.
  destruct stringp as [s|].
  - destruct (probe_linespec_to_static_ops env s).
    { intros H; injection H as <- _. reflexivity. }
    destruct (chr_eq (peek s) "*").
    { destruct (linespec_expression_to_pc env s) as [[a n]| | | |]; cbn [bind];
        try discriminate. intros H; injection H as <- _. reflexivity. }
    destruct (linespec_lex_to_end env s); cbn [bind]; try discriminate.
    intros H; injection H as <- _. reflexivity.
  - intros H; injection H as <- _. reflexivity.
Qed.

(** X5.  Whatever [string_to_event_location] returns is not empty
    ([event_location_empty_p]); if it is an explicit location, it holds
    more than a source filename, and its string is not computed yet. *)
Theorem dispatcher_result_not_empty (env : collaborators)
  (stringp : option cstring) (lang : language) (m : symbol_name_match_type)
  (L : event_location) (rest : option cstring) :
  string_to_event_location env stringp lang m = Ret (L, rest) ->
  event_location_empty_p L = false
  /\ forall x : explicit_location,
       get_explicit_location L = Some x ->
       explicit_empty_p x = false /\ source_filename_alone x = false
       /\ as_string L = [].
Proof.
  assert (B : forall sp m',
    string_to_event_location_basic env sp lang m' = Ret (L, rest) ->
    event_location_empty_p L = false
    /\ forall x : explicit_location,
         get_explicit_location L = Some x ->
         explicit_empty_p x = false /\ source_filename_alone x = false
         /\ as_string L = []).
  { intros sp m' H. pose proof (basic_not_explicit _ _ _ _ _ _ H) as G.
    split; [|intros x Hx; congruence].
    unfold get_explicit_location in G. unfold event_location_empty_p.
    destruct (data L); try reflexivity. discriminate G. }
  unfold string_to_event_location, string_to_explicit_location.
  destruct stringp as [p|]; cbn [bind]; [|apply B].
  destruct (not_an_explicit_location p); cbn [bind]; [apply B|].
  destruct (explicit_location_loop env _ lang _) as [st| | | |]; cbn [bind];
    try discriminate.
  destruct (source_filename_alone (location st)) eqn:A; cbn [andb is_null];
    [discriminate|]. cbn [bind event_location_empty_p data].
  destruct (explicit_empty_p (location st)) eqn:E; cbn [negb]; [apply B|].
  intros H; injection H as <- _. cbn [event_location_empty_p data].
  split; [exact E|]. intros x Hx. injection Hx as <-. repeat split; assumption.
Qed.

(** X5 on [-line 10 -source foo.c]. *)
Lemma dispatcher_result_not_empty_witness :
  event_location_empty_p (mk_event_location [] (explicit_data foo_c_line_10))
  = false
  /\ forall x : explicit_location,
       get_explicit_location (mk_event_location [] (explicit_data foo_c_line_10))
       = Some x ->
       explicit_empty_p x = false /\ source_filename_alone x = false
       /\ as_string (mk_event_location [] (explicit_data foo_c_line_10)) = [].
Proof.
  apply (dispatcher_result_not_empty sample_collaborators
           (Some (cs "-line 10 -source foo.c")) language_c WILD
           (mk_event_location [] (explicit_data foo_c_line_10)) (Some [])).
  vm_compute. reflexivity.
Defined.

(** ** The quote-aware scanner *)

Lemma chr_eq_eq (a b : ascii) : chr_eq a b = true -> a = b.
Proof. apply Ascii.eqb_eq. Qed.

Lemma chr_eq_neq (a b : ascii) : chr_eq a b = false <-> a <> b.
Proof. apply Ascii.eqb_neq. Qed.

(** What [find_end_quote] returns points at the character looked for, in
    front of the terminating NUL. *)
Lemma find_end_quote_from_sound (fuel : nat) :
  forall (s : cstring) (nested c : ascii) (n : nat),
    List.length s <= fuel ->
    find_end_quote_from nested s c = Some n ->
    n < strlen s /\ at_ s n = c.
Proof.
  induction fuel as [|fuel IH]; intros s nested c n Hf;
    destruct s as [|x r]; cbn [find_end_quote_from List.length] in *;
    try discriminate; [lia|].
  cbn [strlen]. destruct (is_nul x) eqn:Ex; [discriminate|].
  assert (St : forall q, option_map S (find_end_quote_from q r c) = Some n ->
                         n < S (strlen r) /\ at_ (x :: r) n = c).
  { intros q H. destruct (find_end_quote_from q r c) as [j|] eqn:E;
      [|discriminate]. injection H as <-.
    apply IH in E; [|lia]. destruct E as [E1 E2]. split; [lia|exact E2]. }
  destruct (negb (is_nul nested)).
  - destruct (chr_eq x nested); [apply St|].
    destruct (chr_eq x "\" && negb (is_nul (peek r))) eqn:Eb; [|apply St].
    destruct r as [|y r']; [discriminate|].
    destruct (find_end_quote_from nested r' c) as [j|] eqn:E;
      cbn [option_map]; [|discriminate].
    intros H; injection H as <-.
    apply IH in E; [|cbn [List.length] in *; lia]. destruct E as [E1 E2].
    apply andb_true_iff in Eb. destruct Eb as [_ Eb]. cbn [peek hd] in Eb.
    apply negb_true_iff in Eb. cbn [strlen]. rewrite Eb.
    split; [lia|exact E2].
  - destruct (chr_eq x c) eqn:Ec.
    + intros H; injection H as <-. split; [lia|]. apply chr_eq_eq. exact Ec.
    + destruct (_ || _); apply St.
Qed.

(** Nothing is found where the character does not occur. *)
Lemma find_end_quote_from_absent (fuel : nat) :
  forall (s : cstring) (nested c : ascii),
    List.length s <= fuel ->
    (forall k, k < strlen s -> at_ s k <> c) ->
    find_end_quote_from nested s c = None.
Proof.
  induction fuel as [|fuel IH]; intros s nested c Hf Ha;
    destruct s as [|x r]; cbn [find_end_quote_from List.length] in *;
    try reflexivity; [lia|].
  cbn [strlen] in Ha. destruct (is_nul x) eqn:Ex; [reflexivity|].
  assert (Hr : forall k, k < strlen r -> at_ r k <> c).
  { intros k Hk. apply (Ha (S k)). lia. }
  assert (St : forall q, option_map S (find_end_quote_from q r c) = None).
  { intros q. rewrite IH; [reflexivity|lia|exact Hr]. }
  destruct (negb (is_nul nested)).
  - destruct (chr_eq x nested); [apply St|].
    destruct (chr_eq x "\" && negb (is_nul (peek r))) eqn:Eb; [|apply St].
    destruct r as [|y r']; [reflexivity|].
    rewrite IH; [reflexivity|cbn [List.length] in *; lia|].
    intros k Hk. apply (Ha (S (S k))).
    apply andb_true_iff in Eb. destruct Eb as [_ Eb]. cbn [peek hd] in Eb.
    apply negb_true_iff in Eb. cbn [strlen]. rewrite Eb. lia.
  - destruct (chr_eq x c) eqn:Ec.
    + exfalso. apply (Ha 0); [lia|]. apply chr_eq_eq. exact Ec.
    + destruct (_ || _); apply St.
Qed.

(** Outside quotes the first occurrence is found. *)
Lemma find_end_quote_first (c : ascii) :
  forall (s : cstring) (n : nat),
    n < strlen s -> at_ s n = c ->
    (forall k, k < n ->
       at_ s k <> c /\ at_ s k <> DQUOTE /\ at_ s k <> "'"%char) ->
    find_end_quote_from NUL s c = Some n.
Proof.
  induction s as [|x r IH]; intros n Hn Hc Hb; [cbn in Hn; lia|].
  cbn [find_end_quote_from]. cbn [strlen] in Hn.
  destruct (is_nul x) eqn:Ex; [lia|].
  change (negb (is_nul NUL)) with false. cbv iota.
  destruct n as [|n].
  - cbn in Hc. subst c. unfold chr_eq. rewrite Ascii.eqb_refl. reflexivity.
  - destruct (Hb 0 ltac:(lia)) as (B1 & B2 & B3). cbn in B1, B2, B3.
    apply chr_eq_neq in B1, B2, B3. rewrite B1, B2, B3. cbn [orb].
    rewrite (IH n); [reflexivity|lia|exact Hc|].
    intros k Hk. apply (Hb (S k)). lia.
Qed.

(** X6.  [find_end_quote]: a result points at an occurrence of the
    character looked for, in front of the terminating NUL; there is no
    result when the character does not occur; and when no quote stands in
    front of the first occurrence, that occurrence is the result. *)
Theorem find_end_quote_result (s : cstring) (c : ascii) :
  (forall n, find_end_quote s c = Some n -> n < strlen s /\ at_ s n = c)
  /\ ((forall k, k < strlen s -> at_ s k <> c) -> find_end_quote s c = None)
  /\ (forall n, n < strlen s -> at_ s n = c ->
        (forall k, k < n ->
           at_ s k <> c /\ at_ s k <> DQUOTE /\ at_ s k <> "'"%char) ->
        find_end_quote s c = Some n).
Proof.
  unfold find_end_quote. split; [|split].
  - intros n. apply (find_end_quote_from_sound (List.length s)). apply le_n.
  - apply (find_end_quote_from_absent (List.length s)). apply le_n.
  - apply find_end_quote_first.
Qed.

(** X6 on a double quote behind a single-quoted one: the scanner steps
    over the quoted one. *)
Lemma find_end_quote_result_witness :
  find_end_quote [ "a"%char; "'"%char; DQUOTE; "'"%char; DQUOTE ] DQUOTE
  = Some 4
  /\ 4 < strlen [ "a"%char; "'"%char; DQUOTE; "'"%char; DQUOTE ]
  /\ at_ [ "a"%char; "'"%char; DQUOTE; "'"%char; DQUOTE ] 4 = DQUOTE
  /\ find_end_quote (cs "a,b") ","%char = Some 1.
Proof.
  split; [reflexivity|].
  split; [|split].
  - apply (proj1 (find_end_quote_result
                    [ "a"%char; "'"%char; DQUOTE; "'"%char; DQUOTE ] DQUOTE) 4).
    reflexivity.
  - apply (proj1 (find_end_quote_result
                    [ "a"%char; "'"%char; DQUOTE; "'"%char; DQUOTE ] DQUOTE) 4).
    reflexivity.
  - apply (proj2 (proj2 (find_end_quote_result (cs "a,b") ","%char)) 1).
    + vm_compute. lia.
    + reflexivity.
    + intros k Hk. assert (k = 0) by lia. subst k.
      repeat split; discriminate.
Defined.

(** ** What the option lexer returns *)

Lemma firstn_at_skipn (s : cstring) (e : nat) :
  e < List.length s ->
  s = firstn e s ++ at_ s e :: skipn (S e) s.
Proof.
  revert e. induction s as [|x r IH]; intros e He; [cbn in He; lia|].
  destruct e as [|e]; [reflexivity|].
  cbn [firstn at_ nth skipn app]. f_equal. apply IH. cbn in He. lia.
Qed.

Lemma isdigit_plain (c : ascii) : isdigit c = true -> plain c.
Proof.
  unfold plain, isdigit, isspace, is_nul, chr_eq. intros H.
  apply andb_true_iff in H. destruct H as [H1 H2].
  apply Nat.leb_le in H1, H2.
  assert (N : forall d : ascii, nat_of_ascii c <> nat_of_ascii d ->
                                Ascii.eqb c d = false).
  { intros d Hd. apply Ascii.eqb_neq. intros ->. apply Hd. reflexivity. }
  repeat split.
  - apply N. cbn. lia.
  - apply orb_false_iff. split.
    + apply andb_false_iff. right. apply Nat.leb_gt. lia.
    + apply Nat.eqb_neq. lia.
  - apply N. cbn. lia.
Qed.

Lemma peek_skipn (s : cstring) (k : nat) : peek (skipn k s) = at_ s k.
Proof.
  revert s. induction k as [|k IH]; intros [|c r]; try reflexivity.
  cbn [skipn at_ nth]. apply IH.
Qed.

Lemma span_to_space_or_comma_result (env : collaborators) (p : cstring) :
  span_to_space_or_comma p <= List.length p
  /\ stops_token env (skipn (span_to_space_or_comma p) p) = true.
Proof.
  induction p as [|c r [I1 I2]]; [split; [cbn; lia|reflexivity]|].
  cbn [span_to_space_or_comma].
  destruct (is_nul c || chr_eq c "," || isspace c) eqn:E.
  - split; [lia|]. cbn [skipn]. unfold stops_token. cbn [peek hd].
    destruct (is_nul c), (chr_eq c ","), (isspace c); cbn in *; congruence.
  - split; [cbn [List.length]; lia|exact I2].
Qed.

Lemma span_digits_inside (p : cstring) : span_digits p <= List.length p.
Proof.
  induction p as [|c r IH]; cbn [span_digits List.length]; [lia|].
  destruct (isdigit c); lia.
Qed.

(** X7.  [explicit_location_lex_one] loses no character.  A null token
    leaves the cursor in place, and is returned at the end of the string
    or where a linespec keyword follows the first character.  Otherwise
    the input is the token followed by what is behind the new cursor.
    Around a quoted token stand the opening quote and its closing twin,
    or, when the quote is never closed and completion is supported, the
    opening quote alone, with the cursor at the end of the string.  An
    unquoted token ends where the scan stops: at the end of the string,
    at a comma, at whitespace, or in front of a character that a linespec
    keyword follows; it is empty only for whitespace or a comma at the
    cursor. *)
Theorem lex_one_splits_input (env : collaborators) (inp : cstring)
  (lang : language) (ci ci' : option explicit_completion_info)
  (tok : option cstring) (rest : cstring) :
  explicit_location_lex_one env inp lang ci = Ret (tok, rest, ci') ->
  match tok with
  | None =>
      rest = inp /\ ci' = ci
      /\ (is_nul (peek inp) = true \/ lex_keyword env (tl inp) = true)
  | Some t =>
      if strchr (quote_characters env) (peek inp)
      then inp = peek inp :: t ++ peek inp :: rest
           \/ (ci <> None /\ inp = peek inp :: t ++ rest
               /\ is_nul (peek rest) = true)
      else inp = t ++ rest /\ ci' = ci
           /\ stops_token env rest = true
           /\ (t = [] ->
               isspace (peek inp) = true \/ chr_eq (peek inp) ","%char = true)
  end.
Proof.
  unfold explicit_location_lex_one.
  destruct (is_nul (peek inp)) eqn:Hn.
  { intros H; injection H as <- <- <-. repeat split. left. reflexivity. }
  destruct (peek_not_nul inp Hn) as [c [r ->]]. cbn [peek hd tl] in *.
  destruct (strchr (quote_characters env) c).
  { destruct (find_end_quote r c) as [e|] eqn:E.
    - intros H; injection H as <- <- _. left.
      destruct (find_end_quote_from_sound (List.length r) r NUL c e (le_n _) E)
        as [E1 E2].
      pose proof (strlen_le_length r) as L.
      unfold savestring. cbn [Nat.sub]. rewrite ?Nat.sub_0_r.
      change (skipn (S (S e)) (c :: r)) with (skipn (S e) r).
      f_equal. rewrite <- E2. apply firstn_at_skipn. lia.
    - destruct ci as [c0|]; cbn [is_null set_quoted_arg_start option_map];
        [|discriminate].
      intros H; injection H as <- <- _. right.
      split; [discriminate|].
      rewrite Hn. unfold savestring.
      cbn [Nat.sub]. rewrite ?Nat.sub_0_r.
      change (skipn (S (strlen r)) (c :: r)) with (skipn (strlen r) r).
      split; [f_equal; symmetry; apply firstn_skipn|].
      apply peek_skipn_strlen. }
  assert (F : forall n,
    n <= List.length (c :: r) ->
    stops_token env (skipn n (c :: r)) = true ->
    (n = 0 -> lex_keyword env r = true) ->
    (if 0 <? n
     then Ret (Some (savestring (c :: r) n), skipn n (c :: r), ci)
     else Ret (None, skipn n (c :: r), ci)) = Ret (tok, rest, ci') ->
    match tok with
    | Some t =>
        c :: r = t ++ rest /\ ci' = ci /\ stops_token env rest = true
        /\ (t = [] -> isspace c = true \/ chr_eq c "," = true)
    | None =>
        rest = c :: r /\ ci' = ci /\ (false = true \/ lex_keyword env r = true)
    end).
  { intros n Hle Hstop H0. destruct (0 <? n) eqn:E; intros H;
      injection H as <- <- <-.
    - split; [symmetry; apply firstn_skipn|]. split; [reflexivity|].
      split; [exact Hstop|]. apply Nat.ltb_lt in E. unfold savestring.
      destruct n as [|n]; [lia|]. discriminate.
    - apply Nat.ltb_ge in E. assert (n = 0) by lia. subst n.
      split; [reflexivity|]. split; [reflexivity|]. right. apply H0.
      reflexivity. }
  destruct (chr_eq c "-" || chr_eq c "+") eqn:Es.
  { destruct (span_to_space_or_comma_result env (c :: r)) as [S1 S2].
    apply F; [exact S1|exact S2|].
    apply orb_true_iff in Es.
    destruct Es as [Es|Es]; apply Ascii.eqb_eq in Es; subst c; discriminate. }
  match goal with |- context [at_ (c :: r) ?d] => set (dd := d) in * end.
  assert (Dd : dd = span_digits (c :: r)) by reflexivity.
  clearbody dd. set (x := at_ (c :: r) dd) in *.
  destruct (is_nul x || isspace x || chr_eq x ",") eqn:Ed.
  { clear F. intros H; injection H as <- <- <-.
    split; [symmetry; apply firstn_skipn|]. split; [reflexivity|].
    split.
    - unfold stops_token. rewrite peek_skipn. fold x.
      destruct (is_nul x); [reflexivity|].
      destruct (chr_eq x ","); [reflexivity|].
      destruct (isspace x); [reflexivity|]. discriminate Ed.
    - unfold savestring. destruct dd as [|d]; [|discriminate].
      intros _. subst x. cbn [at_ nth] in Ed. rewrite Hn in Ed.
      cbn [orb] in Ed. apply orb_true_iff in Ed. exact Ed. }
  destruct (symbol_span env (S (List.length (c :: r))) lang (c :: r))
    as [n| | | |] eqn:En; cbn [bind]; try discriminate.
  destruct (symbol_span_result env lang _ _ _ En) as [S1 S2].
  apply F; [exact S1|exact S2|].
  intros ->. cbn [symbol_span peek hd tl] in En. rewrite Hn in En.
  assert (Hplain : isspace c = false /\ chr_eq c "," = false).
  { destruct dd as [|d].
    - subst x. cbn [at_ nth] in Ed. rewrite Hn in Ed. cbn [orb] in Ed.
      apply orb_false_iff in Ed. exact Ed.
    - cbn [span_digits] in Dd. destruct (isdigit c) eqn:Dc; [|discriminate].
      destruct (isdigit_plain c Dc) as (_ & P2 & P3). split; assumption. }
  destruct Hplain as [P2 P3]. rewrite P2, P3 in En. cbn [negb andb orb] in En.
  destruct (lex_keyword env r); [reflexivity|]. cbn [negb] in En.
  destruct (is_cplus lang && startswith (c :: r) CP_OPERATOR_STR).
  - destruct (skipn CP_OPERATOR_LEN (c :: r)); [discriminate|].
    destruct (symbol_span env _ lang _); discriminate.
  - destruct (symbol_span env _ lang r); discriminate.
Qed.

(** X7 on a quoted file name in front of an option. *)
Lemma lex_one_splits_input_witness :
  cs "'a b' -line 3" = "'"%char :: cs "a b" ++ "'"%char :: cs " -line 3"
  \/ (@None explicit_completion_info <> None
      /\ cs "'a b' -line 3" = "'"%char :: cs "a b" ++ cs " -line 3"
      /\ is_nul (peek (cs " -line 3")) = true).
Proof.
  apply (lex_one_splits_input sample_collaborators (cs "'a b' -line 3")
           language_c None None (Some (cs "a b")) (cs " -line 3")).
  reflexivity.
Defined.

(** ** Unquoted tokens *)

Lemma span_to_space_or_comma_plain (p : cstring) :
  Forall plain (firstn (span_to_space_or_comma p) p).
Proof.
  induction p as [|c r IH]; [constructor|].
  cbn [span_to_space_or_comma].
  destruct (is_nul c) eqn:E1; [constructor|].
  destruct (chr_eq c ",") eqn:E2; [constructor|].
  destruct (isspace c) eqn:E3; [constructor|].
  cbn [orb firstn]. constructor; [repeat split; assumption|exact IH].
Qed.

Lemma span_digits_plain (p : cstring) :
  Forall plain (firstn (span_digits p) p).
Proof.
  induction p as [|c r IH]; [constructor|].
  cbn [span_digits]. destruct (isdigit c) eqn:E; [|constructor].
  cbn [firstn]. constructor; [apply isdigit_plain; exact E|exact IH].
Qed.

Lemma symbol_span_plain (env : collaborators) (lang : language) (fuel : nat) :
  is_cplus lang = false ->
  forall (p : cstring) (n : nat),
    symbol_span env fuel lang p = Ret n -> Forall plain (firstn n p).
Proof.
  intros Hl. induction fuel as [|fuel IH]; intros p n; cbn [symbol_span];
    [discriminate|].
  rewrite Hl. cbn [andb].
  assert (Z : Ret 0 = Ret n -> Forall plain (firstn n p))
    by (intros H; injection H as <-; constructor).
  destruct p as [|c r]; [exact Z|]. cbn [peek hd tl].
  destruct (is_nul c) eqn:E1; [exact Z|].
  destruct (chr_eq c ",") eqn:E2; [exact Z|].
  destruct (isspace c) eqn:E3; [exact Z|].
  cbn [negb andb orb]. destruct (lex_keyword env r); [exact Z|].
  cbn [negb].
  destruct (symbol_span env fuel lang r) as [m| | | |] eqn:Em; cbn [bind];
    try discriminate.
  intros H; injection H as <-. cbn [Nat.add firstn].
  constructor; [repeat split; assumption|exact (IH r m Em)].
Qed.

(** X8.  Outside C++, a token of [explicit_location_lex_one] that does
    not start with a quote character holds no whitespace, no comma and no
    NUL. *)
Theorem unquoted_token_is_plain (env : collaborators) (inp : cstring)
  (lang : language) (ci ci' : option explicit_completion_info)
  (tok rest : cstring) :
  is_cplus lang = false ->
  strchr (quote_characters env) (peek inp) = false ->
  explicit_location_lex_one env inp lang ci = Ret (Some tok, rest, ci') ->
  Forall plain tok.
Proof.
  intros Hl Hq. unfold explicit_location_lex_one. rewrite Hq.
  destruct (is_nul (peek inp)); [discriminate|].
  destruct (chr_eq _ _ || chr_eq _ _).
  { destruct (0 <? _); intros H; [|discriminate H]. injection H as <- _ _.
    apply span_to_space_or_comma_plain. }
  destruct (is_nul _ || isspace _ || chr_eq _ _).
  { intros H; injection H as <- _ _. apply span_digits_plain. }
  destruct (symbol_span env _ lang inp) as [n| | | |] eqn:En; cbn [bind];
    try discriminate.
  destruct (0 <? _); intros H; [|discriminate H]. injection H as <- _ _.
  exact (symbol_span_plain env lang (S (List.length inp)) Hl inp n En).
Qed.

(** X8 on [main.c] in front of an option. *)
Lemma unquoted_token_is_plain_witness : Forall plain (cs "main.c").
Proof.
  apply (unquoted_token_is_plain sample_collaborators (cs "main.c -line 3")
           language_c None None (cs "main.c") (cs " -line 3")); reflexivity.
Defined.

(** ** The name of a C++ operator function *)

Lemma symbol_span_operator (env : collaborators) (fuel : nat) (c : ascii)
  (text : cstring) :
  lex_keyword env (cs "perator" ++ c :: text) = false ->
  symbol_span env (S fuel) language_cplus (cs "operator" ++ c :: text)
  = (n <- symbol_span env fuel language_cplus text ;;
     Ret (CP_OPERATOR_LEN + 1 + n)).
Proof.
  intros Hk. cbn [symbol_span].
  change (peek (cs "operator" ++ c :: text)) with "o"%char.
  change (tl (cs "operator" ++ c :: text)) with (cs "perator" ++ c :: text).
  rewrite Hk.
  change (startswith (cs "operator" ++ c :: text) CP_OPERATOR_STR) with true.
  reflexivity.
Qed.

Lemma lex_one_at_operator (env : collaborators) (c : ascii) (text : cstring)
  (ci : option explicit_completion_info) :
  strchr (quote_characters env) "o"%char = false ->
  lex_keyword env (cs "perator" ++ c :: text) = false ->
  explicit_location_lex_one env (cs "operator" ++ c :: text) language_cplus ci
  = (n <- symbol_span env (List.length (cs "operator" ++ c :: text))
            language_cplus text ;;
     Ret (Some (cs "operator" ++ c :: firstn n text), skipn n text, ci)).
Proof.
  intros Hq Hk. unfold explicit_location_lex_one.
  change (peek (cs "operator" ++ c :: text)) with "o"%char. rewrite Hq.
  change (is_nul "o") with false. cbv iota.
  change (chr_eq "o" "-" || chr_eq "o" "+") with false. cbv iota.
  change (span_digits (cs "operator" ++ c :: text)) with 0.
  change (at_ (cs "operator" ++ c :: text) 0) with "o"%char.
  change (is_nul "o" || isspace "o" || chr_eq "o" ",") with false. cbv iota.
  rewrite (symbol_span_operator env _ c text Hk).
  destruct (symbol_span env _ language_cplus text) as [n| | | |];
    reflexivity.
Qed.

(** X9.  In C++, the character behind the word [operator] is part of the
    token whatever it is, a comma and a blank included: the lexer steps
    over it without looking at it, and goes on behind it.  It returns a
    token that starts with the word and that character, or it reads
    behind the end of the string; it returns when the text behind the
    character does not end with the word [operator].  When the word
    stands at the very end of the string, the character stepped over is
    the terminating NUL, and the lexer reads behind the string. *)
Theorem cplus_operator_token (env : collaborators) (c : ascii)
  (text : cstring) (ci : option explicit_completion_info) :
  is_nul c = false ->
  strchr (quote_characters env) "o"%char = false ->
  lex_keyword env (cs "perator" ++ c :: text) = false ->
  let returns :=
    exists t rest : cstring,
      explicit_location_lex_one env (cs "operator" ++ c :: text)
        language_cplus ci
      = Ret (Some (cs "operator" ++ c :: t), rest, ci)
      /\ text = t ++ rest /\ stops_token env rest = true in
  (returns
   \/ explicit_location_lex_one env (cs "operator" ++ c :: text)
        language_cplus ci = Overrun)
  /\ (~ ends_with_operator text -> returns)
  /\ (lex_keyword env (cs "perator") = false ->
      explicit_location_lex_one env (cs "operator") language_cplus ci
      = Overrun).
Proof.
  intros Hc Hq Hk returns.
  pose proof (lex_one_at_operator env c text ci Hq Hk) as E.
  assert (R : forall n,
    symbol_span env (List.length (cs "operator" ++ c :: text))
      language_cplus text = Ret n -> returns).
  { intros n En. rewrite En in E. cbn [bind] in E.
    destruct (symbol_span_result env language_cplus _ _ _ En) as [_ S2].
    exists (firstn n text), (skipn n text).
    split; [exact E|]. split; [symmetry; apply firstn_skipn|exact S2]. }
  split; [|split].
  - pose proof (symbol_span_finishes env language_cplus
                  (List.length (cs "operator" ++ c :: text)) text) as F.
    destruct (symbol_span_outcomes env language_cplus
                (List.length (cs "operator" ++ c :: text)) text)
      as [[n En] | [En | En]].
    + left. exact (R n En).
    + right. rewrite En in E. exact E.
    + exfalso. rewrite En in F. apply F. rewrite length_app.
      cbn [List.length]. lia.
  - intros Hend.
    destruct (symbol_span_returns env language_cplus
                (List.length (cs "operator" ++ c :: text)) text) as [n En].
    + rewrite length_app. cbn [List.length]. lia.
    + right. exact Hend.
    + exact (R n En).
  - intros Hk'. unfold explicit_location_lex_one.
    change (peek (cs "operator")) with "o"%char. rewrite Hq.
    change (is_nul "o") with false. cbv iota.
    change (chr_eq "o" "-" || chr_eq "o" "+") with false. cbv iota.
    change (span_digits (cs "operator")) with 0.
    change (at_ (cs "operator") 0) with "o"%char.
    change (is_nul "o" || isspace "o" || chr_eq "o" ",") with false. cbv iota.
    cbn [symbol_span]. change (peek (cs "operator")) with "o"%char.
    change (tl (cs "operator")) with (cs "perator"). rewrite Hk'.
    reflexivity.
Qed.

(** X9 on [operator, -line 3]: the token runs over the comma. *)
Lemma cplus_operator_token_witness :
  exists t rest : cstring,
    explicit_location_lex_one sample_collaborators (cs "operator, -line 3")
      language_cplus None
    = Ret (Some (cs "operator" ++ ","%char :: t), rest, None)
    /\ cs " -line 3" = t ++ rest /\ stops_token sample_collaborators rest = true.
Proof.
  apply (cplus_operator_token sample_collaborators ","%char (cs " -line 3")
           None); [reflexivity|reflexivity|reflexivity|].
  intros [[|x front] E]; [discriminate E|].
  apply (f_equal (@List.length ascii)) in E.
  rewrite length_app in E. cbn in E. lia.
Defined.

(** ** What the function-name lexer returns *)

Lemma skip_op_false_positives_inside (env : collaborators) (s0 : cstring)
  (fuel : nat) :
  (forall (s : cstring) (c : ascii) (k : nat),
     find_toplevel_char env s c = Some k -> k < List.length s) ->
  forall (start : nat) (found : option nat) (r : nat),
    (forall f, found = Some f -> f < List.length s0) ->
    skip_op_false_positives_from env fuel s0 start found = Ret (Some r) ->
    r < List.length s0.
Proof.
  intros Hin. induction fuel as [|fuel IH]; intros start found r Hf;
    destruct found as [f|]; cbn [skip_op_false_positives_from];
    try discriminate; pose proof (Hf f eq_refl) as H1;
    destruct (is_cp_operator _ _); try discriminate;
    try (intros H; injection H as <-; exact H1).
  apply IH. intros f'.
  set (start' := if chr_eq (at_ s0 f) "-" && chr_eq (at_ s0 (f + 1)) "-"
                 then f + 2 else f + 1).
  destruct (find_toplevel_char env (skipn start' s0) (at_ s0 f)) as [k|] eqn:E;
    cbn [option_map]; [|discriminate].
  intros H; injection H as <-. apply Hin in E. rewrite length_skipn in E.
  lia.
Qed.

Lemma space_before_keyword_inside (env : collaborators) (start : cstring)
  (fuel : nat) :
  (forall (s : cstring) (c : ascii) (k : nat),
     find_toplevel_char env s c = Some k -> k < List.length s) ->
  forall (ws : option nat) (r : nat),
    (forall w, ws = Some w -> w < List.length start) ->
    space_before_keyword env fuel start ws = Ret (Some r) ->
    r < List.length start.
Proof.
  intros Hin. induction fuel as [|fuel IH]; intros ws r Hw;
    destruct ws as [w|]; cbn [space_before_keyword];
    try discriminate; pose proof (Hw w eq_refl) as H1;
    destruct (negb _); try discriminate;
    try (intros H; injection H as <-; exact H1).
  apply IH. intros w'.
  destruct (find_toplevel_char env (skipn (w + 1) start) " ") as [k|] eqn:E;
    cbn [option_map]; [|discriminate].
  intros H; injection H as <-. apply Hin in E. rewrite length_skipn in E.
  lia.
Qed.

Lemma first_of_inside (a b : option nat) (n r : nat) :
  (forall x, a = Some x -> x <= n) -> (forall x, b = Some x -> x <= n) ->
  first_of a b = Some r -> r <= n.
Proof.
  intros Ha Hb. unfold first_of. destruct a as [x|], b as [y|];
    try destruct (y <? x); intros H; try discriminate; injection H as <-; auto.
Qed.

Lemma trim_trailing_blanks_result (start : cstring) (n : nat) :
  trim_trailing_blanks start n <= n
  /\ (trim_trailing_blanks start n = 0
      \/ chr_eq (at_ start (trim_trailing_blanks start n - 1)) " " = false).
Proof.
  induction n as [|n [IH1 IH2]]; [split; [apply le_n|left; reflexivity]|].
  cbn [trim_trailing_blanks]. destruct (chr_eq (at_ start n) " ") eqn:E.
  - split; [lia|exact IH2].
  - split; [lia|]. right. cbn [Nat.sub]. rewrite Nat.sub_0_r. exact E.
Qed.

Lemma function_name_end_inside (env : collaborators) (start : cstring)
  (e : nat) :
  (forall (s : cstring) (c : ascii) (k : nat),
     find_toplevel_char env s c = Some k -> k < List.length s) ->
  function_name_end env start = Ret e ->
  e <= List.length start
  /\ (e = 0 \/ chr_eq (at_ start (e - 1)) " " = false).
Proof.
  intros Hin. unfold function_name_end, skip_op_false_positives.
  destruct (skip_op_false_positives_from env _ start 0
              (find_toplevel_char env start ",")) as [comma|x| | |] eqn:E1;
    cbn [bind]; try discriminate.
  set (hy := if chr_eq (peek start) "-"
             then option_map S (find_toplevel_char env (tl start) "-")
             else find_toplevel_char env start "-").
  destruct (skip_op_false_positives_from env _ start 0 hy)
    as [hyphen|x| | |] eqn:E2; cbn [bind]; try discriminate.
  destruct (space_before_keyword env _ start _) as [ws|x| | |] eqn:E3;
    cbn [bind]; try discriminate.
  assert (C : forall x, comma = Some x -> x <= List.length start).
  { intros x ->. apply skip_op_false_positives_inside in E1; [lia|exact Hin|].
    intros f Hf. apply Hin in Hf. exact Hf. }
  assert (H : forall x, hyphen = Some x -> x <= List.length start).
  { intros x ->. apply skip_op_false_positives_inside in E2; [lia|exact Hin|].
    subst hy. intros f Hf. destruct (chr_eq _ _).
    - destruct (find_toplevel_char env (tl start) "-") as [k|] eqn:E;
        cbn in Hf; [|discriminate]. injection Hf as <-.
      apply Hin in E. destruct start; cbn in *; lia.
    - apply Hin in Hf. exact Hf. }
  assert (W : forall x, ws = Some x -> x + 1 <= List.length start).
  { intros x ->. apply space_before_keyword_inside in E3; [lia|exact Hin|].
    intros w Hw. apply Hin in Hw. exact Hw. }
  intros R. injection R as <-.
  match goal with
  | |- trim_trailing_blanks start ?n <= _ /\ _ =>
      assert (N : n <= List.length start)
  end.
  { destruct ws as [w|].
    - destruct (first_of (first_of hyphen comma) (Some (w + 1))) as [r|] eqn:F.
      + apply (first_of_inside _ _ (List.length start)) in F; [exact F| |].
        * intros x Hx.
          apply (first_of_inside _ _ (List.length start)) in Hx; assumption.
        * intros x Hx. injection Hx as <-. apply W. reflexivity.
      + apply strlen_le_length.
    - destruct (first_of hyphen comma) as [r|] eqn:F.
      + apply (first_of_inside _ _ (List.length start)) in F; assumption.
      + apply strlen_le_length. }
  pose proof (trim_trailing_blanks_result start
    (match
       match ws with
       | Some w => first_of (first_of hyphen comma) (Some (w + 1))
       | None => first_of hyphen comma
       end
     with
     | Some e => e
     | None => strlen start
     end)) as [T1 T2].
  split; [lia|exact T2].
Qed.

Lemma last_firstn (s : cstring) (e : nat) :
  0 < e -> e <= List.length s -> last (firstn e s) NUL = at_ s (e - 1).
Proof.
  revert e. induction s as [|x r IH]; intros e H0 He; [cbn in He; lia|].
  destruct e as [|e]; [lia|]. cbn [firstn Nat.sub]. rewrite Nat.sub_0_r.
  destruct e as [|e]; [reflexivity|].
  cbn [List.length] in He.
  specialize (IH (S e) ltac:(lia) ltac:(lia)).
  cbn [Nat.sub] in IH. rewrite Nat.sub_0_r in IH.
  cbn [at_ nth]. unfold at_ in IH. rewrite <- IH.
  destruct r as [|y r']; [cbn in He; lia|]. reflexivity.
Qed.

(** X10.  A function name that [explicit_location_lex_one_function]
    lexes without quotes is not empty, does not end in a blank, and is
    the input up to the new cursor, blanks inside the name included; the
    completion info is left as it was.  [find_toplevel_char] must return
    pointers into its string. *)
Theorem function_name_token (env : collaborators) (inp : cstring)
  (lang : language) (ci ci' : option explicit_completion_info)
  (tok rest : cstring) :
  (forall (s : cstring) (c : ascii) (k : nat),
     find_toplevel_char env s c = Some k -> k < List.length s) ->
  lexes_as_quoted env lang inp = false ->
  explicit_location_lex_one_function env inp lang ci
  = Ret (Some tok, rest, ci') ->
  inp = tok ++ rest /\ tok <> [] /\ last tok NUL <> " "%char /\ ci' = ci.
Proof.
  intros Hin Hq. unfold explicit_location_lex_one_function. rewrite Hq.
  destruct (is_nul (peek inp)); [discriminate|].
  destruct (function_name_end env inp) as [e|x| | |] eqn:E; cbn [bind];
    try discriminate.
  destruct (function_name_end_inside env inp e Hin E) as [E1 E2].
  destruct (0 <? e) eqn:E0; intros H; [|discriminate H].
  injection H as <- <- <-. apply Nat.ltb_lt in E0. unfold savestring.
  split; [symmetry; apply firstn_skipn|].
  split.
  - intros H. apply (f_equal (@List.length ascii)) in H.
    rewrite length_firstn in H. cbn in H. lia.
  - split; [|reflexivity]. rewrite last_firstn by assumption.
    destruct E2 as [E2|E2]; [lia|]. apply chr_eq_neq. exact E2.
Qed.

(** X10 on a name of two words in front of an option. *)
Lemma function_name_token_witness :
  cs "foo bar  -line 3" = cs "foo bar" ++ cs "  -line 3"
  /\ cs "foo bar" <> []
  /\ last (cs "foo bar") NUL <> " "%char
  /\ @None explicit_completion_info = None.
Proof.
  apply (function_name_token sample_collaborators (cs "foo bar  -line 3")
           language_c None None (cs "foo bar") (cs "  -line 3")).
  - exact (proj1 sample_collaborators_well_behaved).
  - reflexivity.
  - reflexivity.
Defined.

(** ** The parsers come to an end *)



(** ** Completion accepts what strict parsing accepts *)

(** X12.  Whatever the explicit-location parser accepts without
    completion info it accepts with completion info, with the same
    location and the same cursor. *)
Theorem completion_accepts_strict (env : collaborators)
  (arg : option cstring) (lang : language) (loc : option event_location)
  (cursor : option cstring) (ci0 : option explicit_completion_info)
  (c : explicit_completion_info) :
  string_to_explicit_location env arg lang None = Ret (loc, cursor, ci0) ->
  exists ci' : option explicit_completion_info,
    string_to_explicit_location env arg lang (Some c) = Ret (loc, cursor, ci').
Proof.
  unfold string_to_explicit_location. destruct arg as [p|].
  2:{ intros H; injection H as <- <- _. eauto. }
  destruct (not_an_explicit_location p).
  { intros H; injection H as <- <- _. eauto. }
  destruct (explicit_location_loop env _ lang (mk_parser_state _ p None))
    as [st| | | |] eqn:E; cbn [bind]; try discriminate.
  destruct (loop_strict_completion env lang _
              (mk_parser_state (copy_loc None) p None)
              (mk_parser_state (copy_loc None) p (Some c)) st
              eq_refl eq_refl eq_refl ltac:(discriminate) E)
    as [out' [E' (S1 & S2 & S3 & S4)]].
  rewrite E'. cbn [bind is_null]. rewrite andb_true_r, andb_false_r.
  destruct (source_filename_alone (location st)); [discriminate|].
  intros H; injection H as <- <- _. rewrite S1, S2. eauto.
Qed.

(** X12 on [-source foo.c -line 10]. *)
Lemma completion_accepts_strict_witness :
  exists ci' : option explicit_completion_info,
    string_to_explicit_location sample_collaborators
      (Some (cs "-source foo.c -line 10")) language_c (Some no_completion_info)
    = Ret (Some (mk_event_location [] (explicit_data foo_c_line_10)),
           Some [], ci').
Proof.
  apply (completion_accepts_strict sample_collaborators
           (Some (cs "-source foo.c -line 10")) language_c
           (Some (mk_event_location [] (explicit_data foo_c_line_10)))
           (Some []) None no_completion_info).
  reflexivity.
Defined.

(** ** Where the explicit-location parser leaves the cursor *)

Lemma peek_skip_spaces (p : cstring) : isspace (peek (skip_spaces p)) = false.
Proof.
  induction p as [|c r IH]; [reflexivity|]. cbn [skip_spaces].
  destruct (isspace c) eqn:E; [exact IH|exact E].
Qed.

Lemma round_tail_no_space (opt : cstring) (loc : explicit_location)
  (a : cstring) (ci : option explicit_completion_info) (need have : bool)
  (st' : parser_state) :
  round_tail opt loc a ci need have = Ret (Continue st') ->
  isspace (peek (argp st')) = false.
Proof.
  unfold round_tail. destruct (_ && _); [discriminate|].
  intros H; injection H as <-. apply peek_skip_spaces.
Qed.

Lemma round_continue_no_space (env : collaborators) (lang : language)
  (st st' : parser_state) :
  explicit_location_round env lang st = Ret (Continue st') ->
  isspace (peek (argp st')) = false.
Proof.
  destruct st as [loc a ci]. unfold explicit_location_round.
  cbn [location argp completion].
  destruct (lex_keyword env a); [discriminate|].
  destruct (explicit_location_lex_one env a lang None) as [[[opt a1] c]|e| | |];
    cbn [bind]; try discriminate.
  destruct opt as [opt|]; [|discriminate]. unfold round_on_option.
  destruct (strncmp_eq opt (cs "-source") (strlen opt)).
  { destruct (explicit_location_lex_one env _ lang _) as [[[t r] c']|e| | |];
      cbn [bind]; try discriminate. apply round_tail_no_space. }
  destruct (strncmp_eq opt (cs "-function") (strlen opt)).
  { destruct (explicit_location_lex_one_function env _ lang _)
      as [[[t r] c']|e| | |]; cbn [bind]; try discriminate.
    apply round_tail_no_space. }
  destruct (strncmp_eq opt (cs "-qualified") (strlen opt));
    [apply round_tail_no_space|].
  destruct (strncmp_eq opt (cs "-line") (strlen opt)).
  { destruct (explicit_location_lex_one env _ lang _) as [[[t r] c']|e| | |];
      cbn [bind]; try discriminate.
    destruct t as [arg|]; [|apply round_tail_no_space].
    destruct (linespec_parse_line_offset env arg); cbn [bind];
      try discriminate.
    intros H; injection H as <-. apply peek_skip_spaces. }
  destruct (strncmp_eq opt (cs "-label") (strlen opt)).
  { destruct (explicit_location_lex_one env _ lang _) as [[[t r] c']|e| | |];
      cbn [bind]; try discriminate. apply round_tail_no_space. }
  destruct (chr_eq (at_ opt 0) "-" && negb (isdigit (at_ opt 1)));
    [|discriminate].
  destruct (is_null _); [discriminate|]. apply round_tail_no_space.
Qed.

Lemma loop_no_space (env : collaborators) (lang : language) (fuel : nat) :
  forall st out : parser_state,
    isspace (peek (argp st)) = false ->
    explicit_location_loop env fuel lang st = Ret out ->
    isspace (peek (argp out)) = false.
Proof.
  induction fuel as [|fuel IH]; intros st out Hs;
    cbn [explicit_location_loop];
    destruct (negb (is_nul (peek (argp st)))
              && negb (chr_eq (peek (argp st)) ","));
    try discriminate; try (intros H; injection H as <-; exact Hs).
  destruct (explicit_location_round env lang st) as [r|e| | |] eqn:E;
    cbn [bind]; try discriminate.
  destruct r as [st'|st'].
  - apply IH. exact (round_continue_no_space env lang st st' E).
  - intros H; injection H as <-.
    pose proof (round_suffix env lang st _ E) as (_ & S2 & _).
    rewrite S2. exact Hs.
Qed.

Lemma points_into_refl (p : cstring) : points_into p p.
Proof. exists 0. split; [lia|reflexivity]. Qed.

Lemma points_into_trans (p q r : cstring) :
  points_into p q -> points_into q r -> points_into p r.
Proof.
  intros (a & Ha & ->) (b & Hb & ->). exists (b + a).
  rewrite length_skipn in Hb. split; [lia|apply skipn_skipn].
Qed.

Lemma points_into_skipn (p : cstring) (k : nat) :
  k <= List.length p -> points_into p (skipn k p).
Proof. intros H. exists k. split; [exact H|reflexivity]. Qed.

Lemma skip_spaces_into (p : cstring) : points_into p (skip_spaces p).
Proof.
  induction p as [|c r (k & Hk & IH)]; [apply points_into_refl|].
  cbn [skip_spaces]. destruct (isspace c); [|apply points_into_refl].
  exists (S k). split; [cbn [List.length]; lia|exact IH].
Qed.

Local Opaque skipn.

(** Every step of [explicit_location_lex_one] that returns leaves the
    cursor inside the string. *)
Lemma lex_one_into (env : collaborators) (inp : cstring) (lang : language)
  (ci ci' : option explicit_completion_info) (tok : option cstring)
  (rest : cstring) :
  explicit_location_lex_one env inp lang ci = Ret (tok, rest, ci') ->
  points_into inp rest.
Proof.
  unfold explicit_location_lex_one.
  destruct (is_nul (peek inp)) eqn:Hn;
    [intros H; injection H as _ <- _; apply points_into_refl|].
  destruct (peek_not_nul inp Hn) as [c [r ->]]. cbn [peek hd tl].
  destruct (strchr _ _).
  { destruct (find_end_quote r c) as [e|] eqn:E.
    - intros H; injection H as _ <- _. apply points_into_skipn.
      pose proof (find_end_quote_from_inside (List.length r) r NUL c e
                    (le_n _) E). cbn [List.length]. lia.
    - destruct (is_null _); [discriminate|].
      intros H; injection H as _ <- _. apply points_into_skipn.
      exact (strlen_le_length (c :: r)). }
  destruct (chr_eq _ _ || chr_eq _ _).
  { pose proof (proj1 (span_to_space_or_comma_result env (c :: r))) as S1.
    destruct (0 <? _); intros H; injection H as _ <- _;
      apply points_into_skipn; exact S1. }
  destruct (is_nul _ || isspace _ || chr_eq _ _).
  { intros H; injection H as _ <- _. apply points_into_skipn.
    exact (span_digits_inside (c :: r)). }
  destruct (symbol_span env _ lang (c :: r)) as [n| | | |] eqn:En;
    cbn [bind]; try discriminate.
  pose proof (proj1 (symbol_span_result env lang _ _ _ En)) as S1.
  destruct (0 <? _); intros H; injection H as _ <- _;
    apply points_into_skipn; exact S1.
Qed.

Lemma lex_one_function_into (env : collaborators) (inp : cstring)
  (lang : language) (ci ci' : option explicit_completion_info)
  (tok : option cstring) (rest : cstring) :
  (forall (s : cstring) (c : ascii) (k : nat),
     find_toplevel_char env s c = Some k -> k < List.length s) ->
  explicit_location_lex_one_function env inp lang ci = Ret (tok, rest, ci') ->
  points_into inp rest.
Proof.
  intros Hin. unfold explicit_location_lex_one_function.
  destruct (is_nul (peek inp)) eqn:Hn;
    [intros H; injection H as _ <- _; apply points_into_refl|].
  destruct (peek_not_nul inp Hn) as [c [r ->]]. cbn [peek hd tl].
  destruct (lexes_as_quoted _ _ _).
  { destruct (find_toplevel_char env r c) as [e|] eqn:E.
    - intros H; injection H as _ <- _. apply points_into_skipn.
      apply Hin in E. cbn [List.length]. lia.
    - destruct (is_null _); [discriminate|].
      intros H; injection H as _ <- _. apply points_into_skipn.
      exact (strlen_le_length (c :: r)). }
  destruct (function_name_end env (c :: r)) as [e| | | |] eqn:E; cbn [bind];
    try discriminate.
  pose proof (proj1 (function_name_end_inside env _ e Hin E)) as S1.
  destruct (0 <? _); intros H; injection H as _ <- _;
    apply points_into_skipn; exact S1.
Qed.

Local Transparent skipn.

Lemma round_tail_into (opt : cstring) (loc : explicit_location)
  (a : cstring) (ci : option explicit_completion_info) (need have : bool)
  (r : round_end) :
  round_tail opt loc a ci need have = Ret r ->
  exists st', r = Continue st' /\ points_into a (argp st').
Proof.
  unfold round_tail. destruct (_ && _); [discriminate|].
  intros H; injection H as <-. eexists. split; [reflexivity|].
  apply skip_spaces_into.
Qed.

(** A round that ends with [continue] leaves the cursor inside the
    string. *)
Lemma round_into (env : collaborators) (lang : language)
  (st st' : parser_state) :
  (forall (s : cstring) (c : ascii) (k : nat),
     find_toplevel_char env s c = Some k -> k < List.length s) ->
  explicit_location_round env lang st = Ret (Continue st') ->
  points_into (argp st) (argp st').
Proof.
  intros Hin. destruct st as [loc a ci]. unfold explicit_location_round.
  cbn [location argp completion].
  destruct (lex_keyword env a); [discriminate|].
  destruct (explicit_location_lex_one env a lang None) as [[[opt a1] c]|e| | |]
    eqn:E; cbn [bind]; try discriminate.
  destruct opt as [opt|]; [|discriminate]. unfold round_on_option.
  assert (S1 : points_into a (skip_spaces a1)).
  { apply (points_into_trans a a1); [apply (lex_one_into _ _ _ _ _ _ _ E)|].
    apply skip_spaces_into. }
  clear E.
  assert (T : forall o l a2 c2 need have,
    points_into (skip_spaces a1) a2 ->
    round_tail o l a2 c2 need have = Ret (Continue st') ->
    points_into a (argp st')).
  { intros o l a2 c2 need have P H. apply round_tail_into in H.
    destruct H as (s2 & Es & P2). injection Es as <-.
    exact (points_into_trans _ _ _ S1 (points_into_trans _ _ _ P P2)). }
  destruct (strncmp_eq opt (cs "-source") (strlen opt)).
  { destruct (explicit_location_lex_one env (skip_spaces a1) lang _)
      as [[[oarg a2] ci2]| | | |] eqn:E2; cbn [bind]; try discriminate.
    apply T. exact (lex_one_into _ _ _ _ _ _ _ E2). }
  destruct (strncmp_eq opt (cs "-function") (strlen opt)).
  { destruct (explicit_location_lex_one_function env (skip_spaces a1) lang _)
      as [[[oarg a2] ci2]| | | |] eqn:E2; cbn [bind]; try discriminate.
    apply T. exact (lex_one_function_into _ _ _ _ _ _ _ Hin E2). }
  destruct (strncmp_eq opt (cs "-qualified") (strlen opt)).
  { apply T. apply points_into_refl. }
  destruct (strncmp_eq opt (cs "-line") (strlen opt)).
  { destruct (explicit_location_lex_one env (skip_spaces a1) lang _)
      as [[[oarg a2] ci2]| | | |] eqn:E2; cbn [bind]; try discriminate.
    pose proof (lex_one_into _ _ _ _ _ _ _ E2) as P2.
    destruct oarg as [arg|].
    - destruct (linespec_parse_line_offset env arg); cbn [bind];
        try discriminate.
      intros H; injection H as <-. cbn [argp].
      exact (points_into_trans _ _ _ S1
               (points_into_trans _ _ _ P2 (skip_spaces_into a2))).
    - apply T. exact (points_into_trans _ _ _ P2 (skip_spaces_into a2)). }
  destruct (strncmp_eq opt (cs "-label") (strlen opt)).
  { destruct (explicit_location_lex_one env (skip_spaces a1) lang _)
      as [[[oarg a2] ci2]| | | |] eqn:E2; cbn [bind]; try discriminate.
    apply T. exact (lex_one_into _ _ _ _ _ _ _ E2). }
  destruct (chr_eq (at_ opt 0) "-" && negb (isdigit (at_ opt 1)));
    [|discriminate].
  destruct (is_null _); [discriminate|]. apply T. apply points_into_refl.
Qed.

Lemma loop_into (env : collaborators) (lang : language) (fuel : nat) :
  (forall (s : cstring) (c : ascii) (k : nat),
     find_toplevel_char env s c = Some k -> k < List.length s) ->
  forall st out : parser_state,
    explicit_location_loop env fuel lang st = Ret out ->
    points_into (argp st) (argp out).
Proof.
  intros Hin. induction fuel as [|fuel IH]; intros st out;
    cbn [explicit_location_loop];
    destruct (negb (is_nul (peek (argp st)))
              && negb (chr_eq (peek (argp st)) ","));
    try discriminate;
    try (intros H; injection H as <-; apply points_into_refl).
  destruct (explicit_location_round env lang st) as [r|e| | |] eqn:E;
    cbn [bind]; try discriminate.
  destruct r as [st'|st'].
  - intros H.
    exact (points_into_trans _ _ _ (round_into env lang st st' Hin E)
             (IH st' out H)).
  - intros H; injection H as <-.
    pose proof (round_suffix env lang st _ E) as (_ & S2 & _).
    rewrite S2. apply points_into_refl.
Qed.

(** X13.  When the explicit-location parser returns a location, the
    cursor it leaves is a pointer into the input: it stands [k]
    characters behind the start, with [k] no more than the length of the
    input.  It does not point at whitespace, and the option loop stops
    there for every location and completion info: at the end of the
    string, at a comma, at a linespec keyword, or at a token that is no
    option.  [find_toplevel_char] must return pointers into its
    string. *)
Theorem explicit_parser_cursor (env : collaborators) (p : cstring)
  (lang : language) (ci ci' : option explicit_completion_info)
  (L : event_location) (cursor : option cstring) :
  (forall (s : cstring) (c : ascii) (k : nat),
     find_toplevel_char env s c = Some k -> k < List.length s) ->
  string_to_explicit_location env (Some p) lang ci
  = Ret (Some L, cursor, ci') ->
  exists (q : cstring) (k : nat),
    cursor = Some q
    /\ k <= List.length p /\ q = skipn k p
    /\ isspace (peek q) = false
    /\ stops_option_loop env lang q.
Proof.
  intros Hin. unfold string_to_explicit_location.
  destruct (not_an_explicit_location p) eqn:G; [discriminate|].
  destruct (explicit_location_loop env _ lang _) as [st| | | |] eqn:E;
    cbn [bind]; try discriminate.
  destruct (_ && _); [discriminate|].
  intros H; injection H as _ <- _.
  destruct (explicit_location_loop_result env lang _ _ _ E) as [_ K2].
  destruct (loop_into env lang _ Hin _ _ E) as (k & Hk & Ek).
  cbn [argp] in Hk, Ek.
  exists (argp st), k. repeat split; try assumption.
  apply (loop_no_space env lang _ _ st) in E; [exact E|].
  cbn [argp]. unfold not_an_explicit_location in G.
  apply orb_false_iff in G. destruct G as [G _].
  apply orb_false_iff in G. destruct G as [G _].
  apply negb_false_iff in G. apply chr_eq_eq in G.
  rewrite <- at_0, G. reflexivity.
Qed.

(** X13 on [-line 3 , 4]: the parser stops in front of the comma. *)
Lemma explicit_parser_cursor_witness :
  exists (q : cstring) (k : nat),
    Some (cs ", 4") = Some q
    /\ k <= List.length (cs "-line 3 , 4") /\ q = skipn k (cs "-line 3 , 4")
    /\ isspace (peek q) = false
    /\ stops_option_loop sample_collaborators language_c q.
Proof.
  apply (explicit_parser_cursor sample_collaborators (cs "-line 3 , 4")
           language_c None None
           (mk_event_location []
              (explicit_data
                 (set_line_offset initialize_explicit_location
                    (mk_line_offset 3 LINE_OFFSET_NONE))))
           (Some (cs ", 4"))).
  - exact (proj1 sample_collaborators_well_behaved).
  - reflexivity.
Defined.

(** ** The errors of parsing for completion *)

Lemma lex_one_raises (env : collaborators) (inp : cstring) (lang : language)
  (ci : option explicit_completion_info) (e : gdb_error) :
  explicit_location_lex_one env inp lang ci = Raise e ->
  e = UnmatchedQuote inp /\ ci = None.
Proof.
  unfold explicit_location_lex_one.
  destruct (is_nul (peek inp)); [discriminate|].
  destruct (strchr _ _).
  { destruct (find_end_quote _ _); [discriminate|].
    destruct ci; cbn [is_null set_quoted_arg_start option_map];
      [discriminate|]. intros H; injection H as <-. split; reflexivity. }
  destruct (chr_eq _ _ || chr_eq _ _). { destruct (0 <? _); discriminate. }
  destruct (is_nul _ || isspace _ || chr_eq _ _); [discriminate|].
  destruct (symbol_span_outcomes env lang (S (List.length inp)) inp)
    as [[n ->] | [-> | ->]]; cbn [bind]; try discriminate.
  destruct (0 <? _); discriminate.
Qed.

Lemma skip_op_false_positives_no_raise (env : collaborators) (s0 : cstring)
  (fuel : nat) :
  forall (start : nat) (found : option nat) (e : gdb_error),
    skip_op_false_positives_from env fuel s0 start found <> Raise e.
Proof.
  induction fuel as [|fuel IH]; intros start found e;
    destruct found as [f|]; cbn [skip_op_false_positives_from];
    try discriminate; destruct (is_cp_operator _ _); try discriminate.
  apply IH.
Qed.

Lemma space_before_keyword_no_raise (env : collaborators) (start : cstring)
  (fuel : nat) :
  forall (ws : option nat) (e : gdb_error),
    space_before_keyword env fuel start ws <> Raise e.
Proof.
  induction fuel as [|fuel IH]; intros ws e;
    destruct ws as [w|]; cbn [space_before_keyword];
    try discriminate; destruct (negb _); try discriminate.
  apply IH.
Qed.

Lemma function_name_end_no_raise (env : collaborators) (start : cstring)
  (e : gdb_error) : function_name_end env start <> Raise e.
Proof.
  unfold function_name_end, skip_op_false_positives.
  pose proof (skip_op_false_positives_no_raise env start
                (S (List.length start)) 0
                (find_toplevel_char env start ",")) as N1.
  destruct (skip_op_false_positives_from env _ start 0
              (find_toplevel_char env start ",")) as [comma|x| | |];
    cbn [bind]; try discriminate; [|exfalso; exact (N1 x eq_refl)].
  set (hy := if chr_eq (peek start) "-"
             then option_map S (find_toplevel_char env (tl start) "-")
             else find_toplevel_char env start "-").
  pose proof (skip_op_false_positives_no_raise env start
                (S (List.length start)) 0 hy) as N2.
  destruct (skip_op_false_positives_from env _ start 0 hy)
    as [hyphen|x| | |]; cbn [bind]; try discriminate;
    [|exfalso; exact (N2 x eq_refl)].
  pose proof (space_before_keyword_no_raise env start
                (S (List.length start))
                (find_toplevel_char env start " ")) as N3.
  destruct (space_before_keyword env _ start _) as [ws|x| | |];
    cbn [bind]; try discriminate. exfalso; exact (N3 x eq_refl).
Qed.

Lemma lex_one_function_raises (env : collaborators) (inp : cstring)
  (lang : language) (ci : option explicit_completion_info) (e : gdb_error) :
  explicit_location_lex_one_function env inp lang ci = Raise e ->
  e = UnmatchedQuote inp /\ ci = None.
Proof.
  unfold explicit_location_lex_one_function.
  destruct (is_nul (peek inp)); [discriminate|].
  destruct (lexes_as_quoted _ _ _).
  { destruct (find_toplevel_char _ _ _); [discriminate|].
    destruct ci; cbn [is_null set_quoted_arg_start option_map];
      [discriminate|]. intros H; injection H as <-. split; reflexivity. }
  pose proof (function_name_end_no_raise env inp) as N.
  destruct (function_name_end env inp) as [n|x| | |]; cbn [bind];
    try discriminate; [|exfalso; exact (N x eq_refl)].
  destruct (0 <? _); discriminate.
Qed.

Lemma lex_one_keeps_completion (env : collaborators) (inp : cstring)
  (lang : language) (ci ci' : option explicit_completion_info)
  (tok : option cstring) (rest : cstring) :
  explicit_location_lex_one env inp lang ci = Ret (tok, rest, ci') ->
  is_null ci' = is_null ci.
Proof.
  unfold explicit_location_lex_one.
  destruct (is_nul (peek inp)); [intros H; injection H as _ _ <-; reflexivity|].
  destruct (strchr _ _).
  { destruct (find_end_quote _ _).
    - intros H; injection H as _ _ <-. destruct ci; reflexivity.
    - destruct (is_null _); [discriminate|].
      intros H; injection H as _ _ <-. destruct ci; reflexivity. }
  destruct (chr_eq _ _ || chr_eq _ _).
  { destruct (0 <? _); intros H; injection H as _ _ <-; reflexivity. }
  destruct (is_nul _ || isspace _ || chr_eq _ _);
    [intros H; injection H as _ _ <-; reflexivity|].
  destruct (symbol_span env _ lang inp); cbn [bind]; try discriminate.
  destruct (0 <? _); intros H; injection H as _ _ <-; reflexivity.
Qed.

Lemma lex_one_function_keeps_completion (env : collaborators) (inp : cstring)
  (lang : language) (ci ci' : option explicit_completion_info)
  (tok : option cstring) (rest : cstring) :
  explicit_location_lex_one_function env inp lang ci = Ret (tok, rest, ci') ->
  is_null ci' = is_null ci.
Proof.
  unfold explicit_location_lex_one_function.
  destruct (is_nul (peek inp)); [intros H; injection H as _ _ <-; reflexivity|].
  destruct (lexes_as_quoted _ _ _).
  { destruct (find_toplevel_char _ _ _).
    - intros H; injection H as _ _ <-. destruct ci; reflexivity.
    - destruct (is_null _); [discriminate|].
      intros H; injection H as _ _ <-. destruct ci; reflexivity. }
  destruct (function_name_end env inp); cbn [bind]; try discriminate.
  destruct (0 <? _); intros H; injection H as _ _ <-; reflexivity.
Qed.

Lemma round_tail_for_completion (opt : cstring) (loc : explicit_location)
  (a : cstring) (ci : option explicit_completion_info) (need have : bool) :
  is_null ci = false ->
  exists st', round_tail opt loc a ci need have = Ret (Continue st')
              /\ is_null (completion st') = false.
Proof.
  intros H. unfold round_tail. rewrite H, andb_false_r.
  eexists. split; [reflexivity|exact H].
Qed.

(** A round of the loop with a completion info: it keeps the completion
    info, and it raises no error of its own but the unmatched quote. *)
Lemma round_for_completion (env : collaborators) (lang : language)
  (st : parser_state) :
  is_null (completion st) = false ->
  match explicit_location_round env lang st with
  | Ret (Continue st') | Ret (Break st') => is_null (completion st') = false
  | Raise e => raised_for_completion env e
  | _ => True
  end.
Proof.
  destruct st as [loc a ci]. cbn [completion]. intros Hc.
  unfold explicit_location_round. cbn [location argp completion].
  assert (Hc' : is_null (set_last_option
                  (set_quoted_arg_end (set_quoted_arg_start ci None) None)
                  (Some a)) = false) by (destruct ci; [reflexivity|discriminate]).
  destruct (lex_keyword env a).
  { cbn [completion]. destruct ci; [reflexivity|discriminate]. }
  set (ci1 := set_last_option _ _) in *. clearbody ci1.
  destruct (explicit_location_lex_one env a lang None) as [[[opt a1] c]|e| | |]
    eqn:E; cbn [bind]; try exact I.
  2:{ apply lex_one_raises in E. unfold raised_for_completion; left. exists a. exact (proj1 E). }
  destruct opt as [opt|]; [|exact I]. unfold round_on_option.
  assert (T : forall o l x (c0 : option explicit_completion_info) n h,
    is_null c0 = false ->
    match round_tail o l x c0 n h with
    | Ret (Continue st') | Ret (Break st') => is_null (completion st') = false
    | Raise e => raised_for_completion env e
    | _ => True
    end).
  { intros o l x c0 n h H0.
    destruct (round_tail_for_completion o l x c0 n h H0) as [st' [-> H1]].
    exact H1. }
  assert (LX : forall x f,
    match
      r <- explicit_location_lex_one env x lang ci1 ;;
      (let '(oarg, argp, completion_info) := r in
       round_tail opt (f oarg) argp
         (set_saw_explicit_location_option completion_info) true
         (negb (is_null oarg)))
    with
    | Ret (Continue st') | Ret (Break st') => is_null (completion st') = false
    | Raise e => raised_for_completion env e
    | _ => True
    end).
  { intros x f.
    destruct (explicit_location_lex_one env x lang ci1) as [[[t r] c']|e| | |]
      eqn:E2; cbn [bind]; try exact I.
    - apply T. rewrite is_null_set_saw.
      rewrite (lex_one_keeps_completion _ _ _ _ _ _ _ E2). exact Hc'.
    - unfold raised_for_completion; left. exists x. exact (proj1 (lex_one_raises _ _ _ _ _ E2)). }
  destruct (strncmp_eq opt (cs "-source") (strlen opt)); [apply LX|].
  destruct (strncmp_eq opt (cs "-function") (strlen opt)).
  { destruct (explicit_location_lex_one_function env _ lang ci1)
      as [[[t r] c']|e| | |] eqn:E2; cbn [bind]; try exact I.
    - apply T. rewrite is_null_set_saw.
      rewrite (lex_one_function_keeps_completion _ _ _ _ _ _ _ E2). exact Hc'.
    - unfold raised_for_completion; left. eexists. exact (proj1 (lex_one_function_raises _ _ _ _ _ E2)). }
  destruct (strncmp_eq opt (cs "-qualified") (strlen opt)).
  { apply T. exact Hc'. }
  destruct (strncmp_eq opt (cs "-line") (strlen opt)).
  { destruct (explicit_location_lex_one env (skip_spaces a1) lang None)
      as [[[t r] c']|e| | |] eqn:E2; cbn [bind]; try exact I.
    2:{ unfold raised_for_completion; left. eexists. exact (proj1 (lex_one_raises _ _ _ _ _ E2)). }
    destruct t as [arg|].
    - destruct (linespec_parse_line_offset env arg) eqn:E3; cbn [bind];
        try exact I.
      + cbn [completion]. rewrite is_null_set_saw. exact Hc'.
      + unfold raised_for_completion; right. exists arg. exact E3.
    - apply T. rewrite is_null_set_saw. exact Hc'. }
  destruct (strncmp_eq opt (cs "-label") (strlen opt)); [apply LX|].
  destruct (chr_eq (at_ opt 0) "-" && negb (isdigit (at_ opt 1))).
  { rewrite Hc'. apply T. exact Hc'. }
  cbn [completion]. exact Hc'.
Qed.

Lemma loop_for_completion (env : collaborators) (lang : language)
  (fuel : nat) :
  forall (st : parser_state) (e : gdb_error),
    is_null (completion st) = false ->
    explicit_location_loop env fuel lang st = Raise e ->
    raised_for_completion env e.
Proof.
  induction fuel as [|fuel IH]; intros st e Hc;
    cbn [explicit_location_loop];
    destruct (negb (is_nul (peek (argp st)))
              && negb (chr_eq (peek (argp st)) ","));
    try discriminate.
  pose proof (round_for_completion env lang st Hc) as R.
  destruct (explicit_location_round env lang st) as [[st'|st']|x| | |];
    cbn [bind]; try discriminate.
  - apply IH. exact R.
  - intros H; injection H as <-. exact R.
Qed.

(** X14.  With a completion info the explicit-location parser raises
    none of the errors for a missing argument, an invalid option and a
    source filename alone: an error that it raises is an unmatched quote
    or was raised by [linespec_parse_line_offset]. *)
Theorem completion_mode_errors (env : collaborators) (arg : option cstring)
  (lang : language) (c : explicit_completion_info) (e : gdb_error) :
  string_to_explicit_location env arg lang (Some c) = Raise e ->
  raised_for_completion env e.
Proof.
  unfold string_to_explicit_location. destruct arg as [p|]; [|discriminate].
  destruct (not_an_explicit_location p); [discriminate|].
  destruct (explicit_location_loop env _ lang _) as [st|x| | |] eqn:E;
    cbn [bind]; try discriminate.
  - cbn [is_null]. rewrite andb_false_r. discriminate.
  - intros H; injection H as <-.
    exact (loop_for_completion env lang _
             (mk_parser_state (copy_loc None) p (Some c)) x eq_refl E).
Qed.

(** X14 on [-source foo 'bar]: the quote in front of [bar] is never
    closed. *)
Lemma completion_mode_errors_witness :
  raised_for_completion sample_collaborators (UnmatchedQuote (cs "'bar")).
Proof.
  apply (completion_mode_errors sample_collaborators
           (Some (cs "-source foo 'bar")) language_c no_completion_info).
  reflexivity.
Defined.

(** ** An option token with a quote that is never closed *)

(** X15.  The option loop lexes the option token without completion
    info.  So when the cursor is at a quote character whose quote is
    never closed, the loop raises the unmatched-quote error, with or
    without completion info. *)
Theorem option_token_unmatched_quote (env : collaborators) (lang : language)
  (st : parser_state) (fuel : nat) :
  is_nul (peek (argp st)) = false ->
  chr_eq (peek (argp st)) ","%char = false ->
  lex_keyword env (argp st) = false ->
  strchr (quote_characters env) (peek (argp st)) = true ->
  find_end_quote (tl (argp st)) (peek (argp st)) = None ->
  explicit_location_loop env (S fuel) lang st
  = Raise (UnmatchedQuote (argp st)).
Proof.
  intros Hn Hc Hk Hq He. cbn [explicit_location_loop]. rewrite Hn, Hc.
  cbn [negb andb]. unfold explicit_location_round. rewrite Hk.
  unfold explicit_location_lex_one. rewrite Hn, Hq, He. reflexivity.
Qed.

(** X15 behind [-source foo], with a completion info. *)
Lemma option_token_unmatched_quote_witness :
  explicit_location_loop sample_collaborators 1 language_c
    (mk_parser_state foo_c (cs "'bar") (Some no_completion_info))
  = Raise (UnmatchedQuote (cs "'bar")).
Proof.
  apply (option_token_unmatched_quote sample_collaborators language_c
           (mk_parser_state foo_c (cs "'bar") (Some no_completion_info)) 0);
    reflexivity.
Defined.

(** ** An option at the end of the input and in front of a comma *)

Lemma lex_one_at_comma (env : collaborators) (tail : cstring)
  (lang : language) (ci : option explicit_completion_info) :
  strchr (quote_characters env) ","%char = false ->
  explicit_location_lex_one env (","%char :: tail) lang ci
  = Ret (Some [], ","%char :: tail, ci).
Proof.
  intros Hc. unfold explicit_location_lex_one. cbn [peek hd]. rewrite Hc.
  reflexivity.
Qed.

(** X16.  [-label] at the end of the input raises the missing-argument
    error.  In front of a comma it does not: the option lexer returns the
    empty string there, which becomes the label, and the parser stops at
    the comma. *)
Theorem label_before_comma (env : collaborators) (lang : language)
  (tail : cstring) :
  strchr (quote_characters env) "-"%char = false ->
  strchr (quote_characters env) ","%char = false ->
  lex_keyword env (cs "-label") = false ->
  lex_keyword env (cs "-label ," ++ tail) = false ->
  string_to_explicit_location env (Some (cs "-label")) lang None
  = Raise (MissingArgument (cs "-label"))
  /\ string_to_explicit_location env (Some (cs "-label ," ++ tail)) lang None
     = Ret (Some (mk_event_location []
                    (explicit_data
                       (set_label_name initialize_explicit_location
                          (Some [])))),
            Some (","%char :: tail), None).
Proof.
  intros Hq Hc Hk1 Hk2.
  assert (D : forall (loc : explicit_location) (start a : cstring)
                     (ci : option explicit_completion_info),
    round_on_option env lang loc start ci (cs "-label") a
    = (r <- explicit_location_lex_one env (skip_spaces a) lang ci ;;
       let '(oarg, argp, completion_info) := r in
       round_tail (cs "-label") (set_label_name loc oarg) argp
         (set_saw_explicit_location_option completion_info) true
         (negb (is_null oarg)))) by reflexivity.
  split.
  - unfold string_to_explicit_location.
    change (not_an_explicit_location (cs "-label")) with false. cbv iota.
    rewrite loop_step by reflexivity.
    rewrite (round_step env lang
               (mk_parser_state (copy_loc None) (cs "-label") None)
               (cs "-label") [] None Hk1
               (lex_one_at_hyphen env (cs "-label") lang None 5 Hq eq_refl
                  eq_refl)).
    rewrite D. reflexivity.
  - unfold string_to_explicit_location.
    change (not_an_explicit_location (cs "-label ," ++ tail)) with false.
    cbv iota.
    rewrite loop_step by reflexivity.
    rewrite (round_step env lang
               (mk_parser_state (copy_loc None) (cs "-label ," ++ tail) None)
               (cs "-label") (cs " ," ++ tail) None Hk2
               (lex_one_at_hyphen env (cs "-label ," ++ tail) lang None 5 Hq
                  eq_refl eq_refl)).
    rewrite D.
    change (skip_spaces (cs " ," ++ tail)) with (","%char :: tail).
    rewrite (lex_one_at_comma env tail lang _ Hc).
    cbn [bind]. unfold round_tail.
    cbn [is_null negb andb bind completion argp location
         set_saw_explicit_location_option set_last_option set_quoted_arg_end
         set_quoted_arg_start option_map].
    rewrite loop_stop by reflexivity. reflexivity.
Qed.

(** X16 on [-label ,x]. *)
Lemma label_before_comma_witness :
  string_to_explicit_location sample_collaborators (Some (cs "-label"))
    language_c None
  = Raise (MissingArgument (cs "-label"))
  /\ string_to_explicit_location sample_collaborators
       (Some (cs "-label ," ++ cs "x")) language_c None
     = Ret (Some (mk_event_location []
                    (explicit_data
                       (set_label_name initialize_explicit_location
                          (Some [])))),
            Some (","%char :: cs "x"), None).
Proof.
  apply (label_before_comma sample_collaborators language_c (cs "x"));
    reflexivity.
Defined.

(** ** What basic resolution consumes *)

Lemma remove_trailing_whitespace_between (s : cstring) (n k : nat) :
  remove_trailing_whitespace s n <= k -> k < n -> isspace (at_ s k) = true.
Proof.
  induction n as [|n IH]; cbn [remove_trailing_whitespace]; [lia|].
  destruct (isspace (at_ s n)) eqn:E; intros H1 H2; [|lia].
  destruct (Nat.eq_dec k n) as [->|Hk]; [exact E|]. apply IH; lia.
Qed.

Lemma blank_between (s : cstring) (p n : nat) :
  (forall k, p <= k -> k < n -> isspace (at_ s k) = true) ->
  blank (firstn (n - p) (skipn p s)).
Proof.
  intros H. apply Forall_nth. intros i d Hi.
  rewrite length_firstn, length_skipn in Hi.
  rewrite nth_firstn.
  assert (Hlt : (i <? n - p) = true) by (apply Nat.ltb_lt; lia).
  rewrite Hlt, nth_skipn.
  rewrite (nth_indep s d NUL) by lia. apply (H (p + i)); lia.
Qed.

Lemma split_in_three (s : cstring) (p n : nat) :
  p <= n -> s = firstn p s ++ firstn (n - p) (skipn p s) ++ skipn n s.
Proof.
  intros H. rewrite <- (firstn_skipn p s) at 1. f_equal.
  rewrite <- (firstn_skipn (n - p) (skipn p s)) at 1. f_equal.
  rewrite skipn_skipn. f_equal. lia.
Qed.

Lemma no_nul_strlen (s : cstring) : no_nul s -> strlen s = List.length s.
Proof.
  induction 1 as [|c r Hc _ IH]; [reflexivity|].
  cbn [strlen List.length]. rewrite Hc, IH. reflexivity.
Qed.

Lemma string_or_empty_fresh (env : collaborators) (d : event_location_data) :
  string_or_empty (event_location_to_string env (mk_event_location [] d))
  = compute_string env (mk_event_location [] d).
Proof.
  unfold event_location_to_string, to_string. cbn [as_string std_empty data].
  change (compute_string env {| as_string := []; data := d |})
    with (compute_string env (mk_event_location [] d)).
  destruct (compute_string env (mk_event_location [] d)); reflexivity.
Qed.

(** X17.  Basic resolution renders what it consumed.  For a text without
    NUL: a probe location renders as the whole text, and the cursor is
    left at its end; an address location renders as the text in front of
    the new cursor, unless the expression parser consumed nothing; a
    linespec location renders as the text in front of the new cursor
    without its trailing whitespace, behind [-qualified] and a blank when
    the match type is FULL. *)
Theorem basic_renders_what_it_consumed (env : collaborators) (s : cstring)
  (lang : language) (m : symbol_name_match_type) (L : event_location)
  (cursor : option cstring) :
  no_nul s ->
  string_to_event_location_basic env (Some s) lang m = Ret (L, cursor) ->
  exists rest : cstring,
    cursor = Some rest
    /\ match type_of L with
       | PROBE_LOCATION =>
           string_or_empty (event_location_to_string env L) = s /\ rest = []
       | ADDRESS_LOCATION =>
           as_string L = []
           \/ s = string_or_empty (event_location_to_string env L) ++ rest
       | LINESPEC_LOCATION =>
           exists ws : cstring,
             blank ws
             /\ (if is_FULL m
                    && negb (std_empty
                               (string_or_empty (event_location_to_string env L)))
                 then cs "-qualified " ++ s
                 else s)
                = string_or_empty (event_location_to_string env L)
                  ++ ws ++ rest
       | EXPLICIT_LOCATION => False
       end.
Proof.
  intros Hn. unfold string_to_event_location_basic.
  destruct (probe_linespec_to_static_ops env s).
  { intros H; injection H as <- <-. eexists. split; [reflexivity|].
    cbn [type_of data new_probe_location].
    rewrite (std_string_of_no_nul s Hn), (no_nul_strlen s Hn), skipn_all.
    split; [|reflexivity].
    unfold event_location_to_string, to_string. cbn [as_string compute_string data].
    destruct s; reflexivity. }
  destruct (chr_eq (peek s) "*").
  { destruct (linespec_expression_to_pc env s) as [[a n]| | | |]; cbn [bind];
      try discriminate.
    intros H; injection H as <- <-. eexists. split; [reflexivity|].
    cbn [type_of data new_address_location as_string]. unfold std_string_of_n.
    destruct (std_empty (firstn n s)) eqn:E.
    { left. destruct (firstn n s); [reflexivity|discriminate]. }
    right. unfold event_location_to_string.
    rewrite to_string_cached by exact E.
    cbn [returned string_or_empty as_string].
    symmetry. apply firstn_skipn. }
  unfold new_linespec_location.
  destruct (linespec_lex_to_end env s) as [n| | | |]; cbn [bind];
    try discriminate.
  intros H; injection H as <- <-. eexists. split; [reflexivity|].
  cbn [type_of data].
  set (p := remove_trailing_whitespace s n).
  pose proof (remove_trailing_whitespace_le s n) as Hp. fold p in Hp.
  exists (firstn (n - p) (skipn p s)). split.
  { apply blank_between. intros k. apply remove_trailing_whitespace_between. }
  rewrite string_or_empty_fresh. unfold savestring.
  cbn [compute_string data spec_string match_type].
  destruct (0 <? p) eqn:E0.
  - rewrite (std_string_of_no_nul (firstn p s)) by (apply no_nul_firstn; exact Hn).
    destruct (is_FULL m) eqn:Em; cbn [andb].
    + change (std_empty (cs "-qualified " ++ firstn p s)) with false.
      cbn [negb]. rewrite <- app_assoc. f_equal.
      apply (split_in_three s p n Hp).
    + apply (split_in_three s p n Hp).
  - cbn [std_empty negb app]. rewrite andb_false_r. apply Nat.ltb_ge in E0.
    assert (p = 0) by lia.
    pose proof (split_in_three s p n Hp) as S3. rewrite H in *.
    exact S3.
Qed.

(** X17 on [main  ,x]: the linespec [main] in front of two blanks and a
    comma. *)
Lemma basic_renders_what_it_consumed_witness :
  exists rest : cstring,
    Some (cs ",x") = Some rest
    /\ exists ws : cstring,
         blank ws
         /\ cs "main  ,x"
            = string_or_empty
                (event_location_to_string sample_collaborators
                   (linespec_location_of WILD (Some (cs "main"))))
              ++ ws ++ rest.
Proof.
  apply (basic_renders_what_it_consumed sample_collaborators (cs "main  ,x")
           language_c WILD (linespec_location_of WILD (Some (cs "main")))
           (Some (cs ",x"))).
  - vm_compute. repeat constructor.
  - reflexivity.
Defined.

(** ** Options are stored from left to right *)

(** X18.  A text of options, each lexing as it was written, separated by
    single blanks, parses to the location that holds the options stored
    from left to right: a later option replaces an earlier one of its
    kind, and [-qualified] sets the match type wherever it stands. *)
Theorem options_stored_left_to_right (env : collaborators) (lang : language)
  (options : list rendered_option) :
  strchr (quote_characters env) "-"%char = false ->
  options <> [] ->
  all_lex_back env lang options ->
  source_filename_alone (fold_left store_option options (copy_loc None))
  = false ->
  string_to_explicit_location env
    (Some (join " "%char (map option_text options))) lang None
  = Ret (Some (mk_event_location []
                 (explicit_data
                    (fold_left store_option options (copy_loc None)))),
         Some [], None).
Proof. exact (parse_rendered_options env lang options). Qed.

(** X18 on [-source a.c -line 3 -qualified -source b.c]. *)
Lemma options_stored_left_to_right_witness :
  string_to_explicit_location sample_collaborators
    (Some (cs "-source a.c -line 3 -qualified -source b.c")) language_c None
  = Ret (Some (mk_event_location []
                 (explicit_data
                    {| source_filename := Some (cs "b.c");
                       function_name := None;
                       func_name_match_type := FULL;
                       label_name := None;
                       line_offset_of := mk_line_offset 3 LINE_OFFSET_NONE |})),
         Some [], None).
Proof.
  apply (options_stored_left_to_right sample_collaborators language_c
           [RSource (cs "a.c"); RLine (mk_line_offset 3 LINE_OFFSET_NONE);
            RQualified; RSource (cs "b.c")]).
  - reflexivity.
  - discriminate.
  - cbn. repeat split.
  - reflexivity.
Defined.

(** ** Abbreviations that more than one option name starts with *)

(** Two option tokens that the loop takes for the same option are
    dispatched alike. *)
Lemma round_on_option_same_dispatch (env : collaborators) (lang : language)
  (loc : explicit_location) (start start' : cstring)
  (ci ci' : option explicit_completion_info) (opt opt' a1 : cstring) :
  is_null ci = is_null ci' ->
  dispatched_to opt = dispatched_to opt' ->
  dispatched_to opt <> None ->
  alike alike_end (round_on_option env lang loc start ci opt a1)
    (round_on_option env lang loc start' ci' opt' a1).
Proof.
  intros H Hsame Hone. unfold round_on_option.
  unfold dispatched_to, option_names in Hsame, Hone.
  cbn [find] in Hsame, Hone.
  destruct (strncmp_eq opt (cs "-source") (strlen opt)) eqn:E1.
  { destruct (strncmp_eq opt' (cs "-source") (strlen opt')).
    2:{ exfalso. repeat match type of Hsame with
          | context [if ?b then _ else _] => destruct b
          end; discriminate Hsame. }
    pose proof (lex_one_alike env (skip_spaces a1) lang ci ci' H) as L.
    destruct (explicit_location_lex_one env (skip_spaces a1) lang ci)
      as [[[t r] c]| | | |],
      (explicit_location_lex_one env (skip_spaces a1) lang ci')
      as [[[t' r'] c']| | | |]; unfold alike_lexed in L; cbn in L;
      try contradiction; cbn [bind alike]; auto.
    destruct L as (<- & <- & L). apply round_tail_alike.
    rewrite !is_null_set_saw. exact L. }
  destruct (strncmp_eq opt' (cs "-source") (strlen opt')).
  { exfalso. repeat match type of Hsame with
      | context [if ?b then _ else _] => destruct b
      end; discriminate Hsame. }
  destruct (strncmp_eq opt (cs "-function") (strlen opt)) eqn:E2.
  { destruct (strncmp_eq opt' (cs "-function") (strlen opt')).
    2:{ exfalso. repeat match type of Hsame with
          | context [if ?b then _ else _] => destruct b
          end; discriminate Hsame. }
    pose proof (lex_one_function_alike env (skip_spaces a1) lang ci ci' H) as L.
    destruct (explicit_location_lex_one_function env (skip_spaces a1) lang ci)
      as [[[t r] c]| | | |],
      (explicit_location_lex_one_function env (skip_spaces a1) lang ci')
      as [[[t' r'] c']| | | |]; unfold alike_lexed in L; cbn in L;
      try contradiction; cbn [bind alike]; auto.
    destruct L as (<- & <- & L). apply round_tail_alike.
    rewrite !is_null_set_saw. exact L. }
  destruct (strncmp_eq opt' (cs "-function") (strlen opt')).
  { exfalso. repeat match type of Hsame with
      | context [if ?b then _ else _] => destruct b
      end; discriminate Hsame. }
  destruct (strncmp_eq opt (cs "-qualified") (strlen opt)) eqn:E3.
  { destruct (strncmp_eq opt' (cs "-qualified") (strlen opt')).
    2:{ exfalso. repeat match type of Hsame with
          | context [if ?b then _ else _] => destruct b
          end; discriminate Hsame. }
    apply round_tail_alike. exact H. }
  destruct (strncmp_eq opt' (cs "-qualified") (strlen opt')).
  { exfalso. repeat match type of Hsame with
      | context [if ?b then _ else _] => destruct b
      end; discriminate Hsame. }
  destruct (strncmp_eq opt (cs "-line") (strlen opt)) eqn:E4.
  { destruct (strncmp_eq opt' (cs "-line") (strlen opt')).
    2:{ exfalso. repeat match type of Hsame with
          | context [if ?b then _ else _] => destruct b
          end; discriminate Hsame. }
    destruct (explicit_location_lex_one env (skip_spaces a1) lang None)
      as [[[t r] c]|e| | |]; cbn [bind alike]; auto using same_failure_refl.
    destruct t as [arg|].
    - destruct (linespec_parse_line_offset env arg); cbn [bind alike];
        auto using same_failure_refl.
      unfold alike_end, alike_state. cbn [location argp completion].
      repeat split. rewrite !is_null_set_saw. exact H.
    - apply round_tail_alike. rewrite !is_null_set_saw. exact H. }
  destruct (strncmp_eq opt' (cs "-line") (strlen opt')).
  { exfalso. repeat match type of Hsame with
      | context [if ?b then _ else _] => destruct b
      end; discriminate Hsame. }
  destruct (strncmp_eq opt (cs "-label") (strlen opt)) eqn:E5.
  { destruct (strncmp_eq opt' (cs "-label") (strlen opt')).
    2:{ exfalso. discriminate Hsame. }
    pose proof (lex_one_alike env (skip_spaces a1) lang ci ci' H) as L.
    destruct (explicit_location_lex_one env (skip_spaces a1) lang ci)
      as [[[t r] c]| | | |],
      (explicit_location_lex_one env (skip_spaces a1) lang ci')
      as [[[t' r'] c']| | | |]; unfold alike_lexed in L; cbn in L;
      try contradiction; cbn [bind alike]; auto.
    destruct L as (<- & <- & L). apply round_tail_alike.
    rewrite !is_null_set_saw. exact L. }
  exfalso. apply Hone. reflexivity.
Qed.

(** Two parses whose first rounds end alike are alike. *)
Lemma parse_alike_from_first_round (env : collaborators) (lang : language)
  (ci : option explicit_completion_info) (p p' : cstring) :
  not_an_explicit_location p = false ->
  not_an_explicit_location p' = false ->
  alike alike_end
    (explicit_location_round env lang (mk_parser_state (copy_loc None) p ci))
    (explicit_location_round env lang (mk_parser_state (copy_loc None) p' ci)) ->
  alike same_location (string_to_explicit_location env (Some p) lang ci)
    (string_to_explicit_location env (Some p') lang ci).
Proof.
  intros G G' A. unfold string_to_explicit_location. rewrite G, G'.
  assert (P : forall q, not_an_explicit_location q = false ->
                        is_nul (peek q) = false
                        /\ chr_eq (peek q) ","%char = false).
  { intros q Hq. unfold not_an_explicit_location in Hq.
    apply orb_false_iff in Hq. destruct Hq as [Hq _].
    apply orb_false_iff in Hq. destruct Hq as [Hq _].
    apply negb_false_iff in Hq. apply chr_eq_eq in Hq.
    rewrite at_0 in Hq. rewrite Hq. split; reflexivity. }
  destruct (P p G) as [N1 C1]. destruct (P p' G') as [N2 C2].
  rewrite (loop_step env lang _ (mk_parser_state (copy_loc None) p ci))
    by (cbn [argp]; rewrite N1, C1; reflexivity).
  rewrite (loop_step env lang _ (mk_parser_state (copy_loc None) p' ci))
    by (cbn [argp]; rewrite N2, C2; reflexivity).
  destruct (explicit_location_round env lang
              (mk_parser_state (copy_loc None) p ci)) as [[s1|s1]|e| | |] eqn:E1,
    (explicit_location_round env lang
       (mk_parser_state (copy_loc None) p' ci)) as [[s2|s2]|e'| | |] eqn:E2;
    cbn in A; try contradiction; cbn [bind alike]; auto.
  - pose proof (round_progress env lang
                  (mk_parser_state (copy_loc None) p ci) s1 N1 C1 E1) as L1.
    pose proof (round_progress env lang
                  (mk_parser_state (copy_loc None) p' ci) s2 N2 C2 E2) as L2.
    cbn [argp] in L1, L2. destruct A as (A1 & A2 & A3).
    rewrite <- A2 in L2.
    rewrite (explicit_location_loop_fuel env lang (List.length p)
               (List.length p') s1) by lia.
    pose proof (loop_alike env lang (List.length p') s1 s2
                  (conj A1 (conj A2 A3))) as LA.
    destruct (explicit_location_loop env _ lang s1) as [o1| | | |],
      (explicit_location_loop env _ lang s2) as [o2| | | |];
      cbn in LA; try contradiction; cbn [bind alike]; auto.
    destruct LA as (La & Lb & Lc). rewrite La.
    destruct (source_filename_alone (location o2) && is_null ci);
      cbn [alike]; [reflexivity|]. unfold same_location. cbn [fst snd].
    split; congruence.
  - destruct A as (A1 & A2 & A3). rewrite A1.
    destruct (source_filename_alone (location s2) && is_null ci);
      cbn [alike]; [reflexivity|]. unfold same_location. cbn [fst snd].
    split; congruence.
Qed.

Lemma skip_spaces_idem (p : cstring) :
  skip_spaces (skip_spaces p) = skip_spaces p.
Proof. apply skip_spaces_id. apply peek_skip_spaces. Qed.

(** X19.  The shortest abbreviations.  In front of a blank, [-s] is
    taken for [-source], [-f] for [-function], [-q] for [-qualified],
    [-la] for [-label], and [-l], with which both [-line] and [-label]
    start, for [-line], which the loop tries first.  For every text [T]
    the parses of the abbreviation and of the full name in front of [T]
    are alike; and a round of the option loop at the abbreviation stores
    what the option stores: the argument taken from [T] becomes the
    source filename, the function name, the label name or the line
    offset, [-q] sets the match type to FULL, and the cursor moves
    behind the argument and the whitespace that follows it. *)
Theorem shortest_abbreviations_alike (env : collaborators) (lang : language)
  (ci : option explicit_completion_info) (abbr full T : cstring) :
  In (abbr, full) shortest_abbreviations ->
  strchr (quote_characters env) "-"%char = false ->
  lex_keyword env (abbr ++ " "%char :: T) = false ->
  lex_keyword env (full ++ " "%char :: T) = false ->
  alike same_location
    (string_to_explicit_location env (Some (abbr ++ " "%char :: T)) lang ci)
    (string_to_explicit_location env (Some (full ++ " "%char :: T)) lang ci)
  /\ forall (loc : explicit_location) (o : rendered_option) (rest : cstring),
       lex_keyword env (shortest_abbreviation o ++ " "%char :: T) = false ->
       takes_argument env lang o T rest ->
       explicit_location_round env lang
         (mk_parser_state loc (shortest_abbreviation o ++ " "%char :: T) None)
       = Ret (Continue (mk_parser_state (store_option loc o)
                          (skip_spaces rest) None)).
Proof.
  intros Hin Hq Hk1 Hk2.
  assert (R : forall (loc : explicit_location)
                     (c0 : option explicit_completion_info)
                     (name : cstring) (n : nat),
    List.length name = S n ->
    peek (name ++ " "%char :: T) = "-"%char ->
    span_to_space_or_comma (name ++ " "%char :: T) = S n ->
    firstn (S n) (name ++ " "%char :: T) = name ->
    skipn (S n) (name ++ " "%char :: T) = " "%char :: T ->
    lex_keyword env (name ++ " "%char :: T) = false ->
    explicit_location_round env lang
      (mk_parser_state loc (name ++ " "%char :: T) c0)
    = round_on_option env lang loc (name ++ " "%char :: T)
        (set_last_option
           (set_quoted_arg_end (set_quoted_arg_start c0 None) None)
           (Some (name ++ " "%char :: T))) name (" "%char :: T)).
  { intros loc c0 name n _ Hp Hs Hf Hsk Hk.
    apply (round_step env lang
             (mk_parser_state loc (name ++ " "%char :: T) c0)
             name (" "%char :: T) None Hk).
    cbn [argp].
    rewrite (lex_one_at_hyphen env _ lang None n Hq Hp Hs), Hf, Hsk.
    reflexivity. }
  split.
  - cbn in Hin.
    destruct Hin as [E|[E|[E|[E|[E|[]]]]]]; injection E as <- <-;
      (apply parse_alike_from_first_round; [reflexivity|reflexivity|]);
      match goal with
      | |- alike _ (explicit_location_round _ _
                      (mk_parser_state _ (?a ++ _) _))
                   (explicit_location_round _ _
                      (mk_parser_state _ (?f ++ _) _)) =>
          rewrite (R (copy_loc None) ci a (List.length a - 1) eq_refl eq_refl
                     eq_refl eq_refl eq_refl Hk1);
          rewrite (R (copy_loc None) ci f (List.length f - 1) eq_refl eq_refl
                     eq_refl eq_refl eq_refl Hk2)
      end;
      (apply round_on_option_same_dispatch;
       [destruct ci; reflexivity|reflexivity|discriminate]).
  - intros loc o rest Hk Ho.
    assert (Ds : forall (start a : cstring),
      round_on_option env lang loc start None (cs "-s") a
      = (r <- explicit_location_lex_one env (skip_spaces a) lang None ;;
         let '(oarg, argp, completion_info) := r in
         round_tail (cs "-s") (set_source_filename loc oarg) argp
           (set_saw_explicit_location_option completion_info) true
           (negb (is_null oarg)))) by reflexivity.
    assert (Df : forall (start a : cstring),
      round_on_option env lang loc start None (cs "-f") a
      = (r <- explicit_location_lex_one_function env (skip_spaces a) lang
                None ;;
         let '(oarg, argp, completion_info) := r in
         round_tail (cs "-f") (set_function_name loc oarg) argp
           (set_saw_explicit_location_option completion_info) true
           (negb (is_null oarg)))) by reflexivity.
    assert (Dq : forall (start a : cstring),
      round_on_option env lang loc start None (cs "-q") a
      = round_tail (cs "-q") (set_func_name_match_type loc FULL)
          (skip_spaces a) None false false) by reflexivity.
    assert (Dl : forall (start a : cstring),
      round_on_option env lang loc start None (cs "-l") a
      = (r <- explicit_location_lex_one env (skip_spaces a) lang None ;;
         let '(oarg, argp, _) := r in
         match oarg with
         | Some arg =>
             lo <- linespec_parse_line_offset env arg ;;
             Ret (Continue (mk_parser_state (set_line_offset loc lo)
                              (skip_spaces argp) None))
         | None =>
             round_tail (cs "-l") loc (skip_spaces argp) None true false
         end)) by reflexivity.
    assert (Dla : forall (start a : cstring),
      round_on_option env lang loc start None (cs "-la") a
      = (r <- explicit_location_lex_one env (skip_spaces a) lang None ;;
         let '(oarg, argp, completion_info) := r in
         round_tail (cs "-la") (set_label_name loc oarg) argp
           (set_saw_explicit_location_option completion_info) true
           (negb (is_null oarg)))) by reflexivity.
    destruct o as [a| |a|a|lo];
      cbn [shortest_abbreviation store_option takes_argument] in *.
    + rewrite (R loc None (cs "-s") 1 eq_refl eq_refl eq_refl eq_refl eq_refl
                 Hk).
      cbn [set_quoted_arg_start set_quoted_arg_end set_last_option option_map].
      rewrite Ds. change (skip_spaces (" "%char :: T)) with (skip_spaces T).
      rewrite Ho. reflexivity.
    + rewrite (R loc None (cs "-q") 1 eq_refl eq_refl eq_refl eq_refl eq_refl
                 Hk).
      cbn [set_quoted_arg_start set_quoted_arg_end set_last_option option_map].
      rewrite Dq. change (skip_spaces (" "%char :: T)) with (skip_spaces T).
      subst rest. unfold round_tail. cbn [andb]. rewrite skip_spaces_idem.
      reflexivity.
    + rewrite (R loc None (cs "-f") 1 eq_refl eq_refl eq_refl eq_refl eq_refl
                 Hk).
      cbn [set_quoted_arg_start set_quoted_arg_end set_last_option option_map].
      rewrite Df. change (skip_spaces (" "%char :: T)) with (skip_spaces T).
      rewrite Ho. reflexivity.
    + rewrite (R loc None (cs "-la") 2 eq_refl eq_refl eq_refl eq_refl eq_refl
                 Hk).
      cbn [set_quoted_arg_start set_quoted_arg_end set_last_option option_map].
      rewrite Dla. change (skip_spaces (" "%char :: T)) with (skip_spaces T).
      rewrite Ho. reflexivity.
    + destruct Ho as (a & Ha & Hlo).
      rewrite (R loc None (cs "-l") 1 eq_refl eq_refl eq_refl eq_refl eq_refl
                 Hk).
      cbn [set_quoted_arg_start set_quoted_arg_end set_last_option option_map].
      rewrite Dl. change (skip_spaces (" "%char :: T)) with (skip_spaces T).
      rewrite Ha. cbn [bind]. rewrite Hlo. reflexivity.
Qed.

(** X19 on [-l 3 -function f] and [-line 3 -function f], and on the
    round at [-l 3 -function f], which stores the line offset 3. *)
Lemma shortest_abbreviations_alike_witness :
  alike same_location
    (string_to_explicit_location sample_collaborators
       (Some (cs "-l" ++ " "%char :: cs "3 -function f")) language_c None)
    (string_to_explicit_location sample_collaborators
       (Some (cs "-line" ++ " "%char :: cs "3 -function f")) language_c None)
  /\ explicit_location_round sample_collaborators language_c
       (mk_parser_state initialize_explicit_location
          (cs "-l" ++ " "%char :: cs "3 -function f") None)
     = Ret (Continue
              (mk_parser_state
                 (set_line_offset initialize_explicit_location
                    (mk_line_offset 3 LINE_OFFSET_NONE))
                 (cs "-function f") None)).
Proof.
  destruct (shortest_abbreviations_alike sample_collaborators language_c None
              (cs "-l") (cs "-line") (cs "3 -function f"))
    as [A B].
  - cbn. auto 6.
  - reflexivity.
  - reflexivity.
  - reflexivity.
  - split; [exact A|].
    apply (B initialize_explicit_location
             (RLine (mk_line_offset 3 LINE_OFFSET_NONE)) (cs " -function f")).
    + reflexivity.
    + exists (cs "3"). split; reflexivity.
Defined.

(** ** The word [operator] in front of a delimiter *)

Lemma strncmp_eq_prefix (b : cstring) :
  no_nul b ->
  forall a : cstring,
    strncmp_eq a b (List.length b) = true <-> exists r, a = b ++ r.
Proof.
  induction 1 as [|c b Hc _ IH]; intros a.
  - split.
    + intros _. exists a. reflexivity.
    + intros _. reflexivity.
  - cbn [List.length strncmp_eq peek hd tl]. split.
    + destruct (chr_eq (peek a) c) eqn:E; [|discriminate].
      apply chr_eq_eq in E. destruct a as [|x a]; cbn [peek hd tl] in *.
      * subst c. discriminate Hc.
      * subst x. rewrite Hc. intros H. apply IH in H. destruct H as [r ->].
        exists r. reflexivity.
    + intros [r ->]. cbn [app peek hd tl]. unfold chr_eq. rewrite Ascii.eqb_refl.
      rewrite Hc. apply IH. exists r. reflexivity.
Qed.

Lemma back_over_spaces_result (start : cstring) (n : nat) :
  back_over_spaces start n <= n
  /\ (forall k, back_over_spaces start n <= k -> k < n ->
                isspace (at_ start k) = true)
  /\ (back_over_spaces start n = 0
      \/ isspace (at_ start (back_over_spaces start n - 1)) = false).
Proof.
  induction n as [|n (IH1 & IH2 & IH3)].
  { split; [apply le_n|]. split; [intros k H1 H2; lia|left; reflexivity]. }
  cbn [back_over_spaces]. destruct (isspace (at_ start n)) eqn:E.
  - split; [lia|]. split; [|exact IH3].
    intros k H1 H2. destruct (Nat.eq_dec k n) as [->|Hk]; [exact E|].
    apply IH2; lia.
  - split; [lia|]. split; [intros; lia|].
    right. cbn [Nat.sub]. rewrite Nat.sub_0_r. exact E.
Qed.

Lemma back_over_spaces_unique (start : cstring) (n p : nat) :
  p <= n ->
  (forall k, p <= k -> k < n -> isspace (at_ start k) = true) ->
  (p = 0 \/ isspace (at_ start (p - 1)) = false) ->
  back_over_spaces start n = p.
Proof.
  intros Hp Hs He. induction n as [|n IH].
  - cbn. lia.
  - cbn [back_over_spaces]. destruct (Nat.eq_dec p (S n)) as [->|Hne].
    + destruct He as [He|He]; [lia|]. cbn [Nat.sub] in He.
      rewrite Nat.sub_0_r in He. rewrite He. reflexivity.
    + rewrite (Hs n) by lia. apply IH; [lia|]. intros k H1 H2.
      apply Hs; lia.
Qed.

Lemma at_app_l (a b : cstring) (i : nat) :
  i < List.length a -> at_ (a ++ b) i = at_ a i.
Proof. intros H. unfold at_. apply app_nth1. exact H. Qed.

Lemma at_app_r (a b : cstring) (i : nat) :
  List.length a <= i -> at_ (a ++ b) i = at_ b (i - List.length a).
Proof. intros H. unfold at_. apply app_nth2. exact H. Qed.

Lemma at_last (a : cstring) :
  a <> [] -> at_ a (List.length a - 1) = last a NUL.
Proof.
  intros H. destruct (exists_last H) as [r [x ->]].
  rewrite length_app, last_last. cbn [List.length].
  rewrite at_app_r by lia.
  replace (List.length r + 1 - 1 - List.length r) with 0 by lia. reflexivity.
Qed.

Lemma at_firstn_skipn (s : cstring) (k i : nat) :
  i < k -> at_ (firstn k s) i = at_ s i.
Proof.
  intros H. unfold at_. rewrite nth_firstn.
  destruct (i <? k) eqn:E; [reflexivity|]. apply Nat.ltb_ge in E. lia.
Qed.

(** X20.  [is_cp_operator] holds for a delimiter found in a string if and
    only if the text in front of the delimiter ends in the word
    [operator], with nothing but whitespace between the word and the
    delimiter and no identifier character in front of the word. *)
Theorem is_cp_operator_iff (start : cstring) (k : nat) :
  k <= List.length start ->
  is_cp_operator start (Some k) = true <-> ends_in_operator (firstn k start).
Proof.
  intros Hk. unfold is_cp_operator, ends_in_operator, CP_OPERATOR_LEN.
  destruct (back_over_spaces_result start k) as (B1 & B2 & B3).
  set (p := back_over_spaces start k) in *.
  split.
  - destruct (8 <=? k) eqn:E8; [|discriminate]. apply Nat.leb_le in E8.
    destruct (8 <=? p) eqn:Ep; [|discriminate]. apply Nat.leb_le in Ep.
    intros H. apply andb_true_iff in H. destruct H as [H1 H2].
    apply (strncmp_eq_prefix CP_OPERATOR_STR) in H1;
      [|repeat constructor]. destruct H1 as [r Hr].
    exists (firstn (p - 8) start), (firstn (k - p) (skipn p start)).
    split; [|split].
    + rewrite <- (firstn_skipn (p - 8) (firstn k start)) at 1.
      rewrite firstn_firstn. replace (Nat.min (p - 8) k) with (p - 8) by lia.
      f_equal. rewrite skipn_firstn_comm, Hr.
      replace (k - (p - 8)) with (List.length CP_OPERATOR_STR + (k - p))
        by (change (List.length CP_OPERATOR_STR) with 8; lia).
      rewrite (firstn_app_2 (k - p) CP_OPERATOR_STR r). f_equal.
      assert (Er : r = skipn p start).
      { apply (f_equal (skipn 8)) in Hr. rewrite skipn_skipn in Hr.
        replace (8 + (p - 8)) with p in Hr by lia. symmetry. exact Hr. }
      rewrite Er. reflexivity.
    + apply blank_between. exact B2.
    + apply orb_true_iff in H2. destruct H2 as [H2|H2].
      * left. apply Nat.eqb_eq in H2. rewrite H2. reflexivity.
      * right. apply negb_true_iff in H2.
        destruct (Nat.eq_dec (p - 8) 0) as [E0|E0].
        { rewrite E0. reflexivity. }
        rewrite <- at_last.
        2:{ intros E. apply (f_equal (@List.length ascii)) in E.
            rewrite length_firstn in E. cbn in E. lia. }
        rewrite length_firstn.
        replace (Nat.min (p - 8) (List.length start)) with (p - 8) by lia.
        rewrite at_firstn_skipn by lia. exact H2.
  - intros (pre & ws & Ht & Hws & Hpre).
    assert (Lk : k = List.length pre + 8 + List.length ws).
    { apply (f_equal (@List.length ascii)) in Ht.
      rewrite length_firstn, !length_app in Ht. cbn [List.length] in Ht.
      change (List.length CP_OPERATOR_STR) with 8 in Ht. lia. }
    assert (At : forall i, i < k -> at_ start i = at_ (pre ++ CP_OPERATOR_STR ++ ws) i).
    { intros i Hi. rewrite <- Ht. symmetry. apply at_firstn_skipn. exact Hi. }
    assert (Ep : p = List.length pre + 8).
    { apply back_over_spaces_unique; [lia| |].
      - intros i H1 H2. rewrite At by lia.
        rewrite at_app_r by lia. rewrite at_app_r
          by (change (List.length CP_OPERATOR_STR) with 8; lia).
        change (List.length CP_OPERATOR_STR) with 8.
        unfold blank in Hws. rewrite Forall_forall in Hws. apply Hws.
        apply nth_In. lia.
      - right. rewrite At by lia. rewrite at_app_r by lia.
        replace (List.length pre + 8 - 1 - List.length pre) with 7 by lia.
        reflexivity. }
    assert (E8 : (8 <=? k) = true) by (apply Nat.leb_le; lia).
    assert (Ep8 : (8 <=? p) = true) by (apply Nat.leb_le; lia).
    rewrite E8, Ep8. apply andb_true_iff. split.
    + apply (strncmp_eq_prefix CP_OPERATOR_STR); [repeat constructor|].
      exists (ws ++ skipn k start).
      rewrite <- (firstn_skipn k start) at 1. rewrite Ht, Ep.
      replace (List.length pre + 8 - 8) with (List.length pre) by lia.
      rewrite <- !app_assoc. rewrite skipn_app, skipn_all, Nat.sub_diag.
      reflexivity.
    + rewrite Ep.
      replace (List.length pre + 8 - 8) with (List.length pre) by lia.
      destruct Hpre as [->|Hpre]; [reflexivity|].
      destruct pre as [|x pre']; [reflexivity|].
      apply orb_true_iff. right. apply negb_true_iff.
      rewrite At by (cbn [List.length] in *; lia).
      rewrite at_app_l by (cbn [List.length]; lia).
      rewrite at_last by discriminate. exact Hpre.
Qed.

(** X20 on the comma of [a::operator ,]. *)
Lemma is_cp_operator_iff_witness :
  is_cp_operator (cs "a::operator , b") (Some 12) = true
  <-> ends_in_operator (firstn 12 (cs "a::operator , b")).
Proof.
  apply (is_cp_operator_iff (cs "a::operator , b") 12).
  vm_compute. lia.
Defined.

(** ** Where the dispatcher leaves the cursor *)

Lemma basic_cursor (env : collaborators) (s : cstring) (lang : language)
  (m : symbol_name_match_type) (L : event_location) (rest : option cstring) :
  stay_inside env ->
  string_to_event_location_basic env (Some s) lang m = Ret (L, rest) ->
  exists q, rest = Some q /\ points_into s q.
Proof.
  intros (_ & Htok & Hexp).
  unfold string_to_event_location_basic, new_linespec_location.
  destruct (probe_linespec_to_static_ops env s).
  { intros H; injection H as _ <-. eexists. split; [reflexivity|].
    apply points_into_skipn. apply strlen_le_length. }
  destruct (chr_eq (peek s) "*").
  { destruct (linespec_expression_to_pc env s) as [[a n]| | | |] eqn:E;
      cbn [bind]; try discriminate. intros H; injection H as _ <-.
    eexists. split; [reflexivity|]. apply points_into_skipn.
    exact (Hexp s a n E). }
  destruct (linespec_lex_to_end env s) as [n| | | |] eqn:E; cbn [bind];
    try discriminate.
  intros H; injection H as _ <-. eexists. split; [reflexivity|].
  apply points_into_skipn. exact (Htok s n E).
Qed.

(** X27.  [string_to_event_location] leaves the cursor at a place of the
    input: [k] characters behind the start of the text it was given,
    with [k] no more than the length of the text.  The collaborators
    must return pointers into their strings.  For a null input it
    returns a linespec location without spec string and leaves the
    cursor null. *)
Theorem dispatcher_cursor (env : collaborators) (lang : language)
  (m : symbol_name_match_type) :
  stay_inside env ->
  (forall (text : cstring) (L : event_location) (rest : option cstring),
     string_to_event_location env (Some text) lang m = Ret (L, rest) ->
     exists k, k <= List.length text /\ rest = Some (skipn k text))
  /\ string_to_event_location env None lang m
     = Ret (linespec_location_of m None, None).
Proof.
  intros Hin. split; [|reflexivity].
  intros text L rest H.
  assert (Q : exists q, rest = Some q /\ points_into text q).
  { unfold string_to_event_location, string_to_explicit_location in H.
    destruct (not_an_explicit_location text).
    { cbn [bind] in H. exact (basic_cursor env text lang m L rest Hin H). }
    destruct (explicit_location_loop env _ lang _) as [st| | | |] eqn:E;
      cbn [bind] in H; try discriminate.
    pose proof (loop_into env lang _ (proj1 Hin) _ _ E) as P.
    cbn [argp] in P.
    destruct (source_filename_alone (location st) && is_null None);
      cbn [bind] in H; [discriminate|].
    cbn [event_location_empty_p data] in H.
    destruct (explicit_empty_p (location st)); cbn [negb] in H.
    - destruct (basic_cursor env _ lang _ L rest Hin H) as (q & -> & P2).
      exists q. split; [reflexivity|].
      exact (points_into_trans _ _ _ P P2).
    - injection H as _ <-. exists (argp st). split; [reflexivity|exact P]. }
  destruct Q as (q & -> & k & Hk & ->). exists k. split; [exact Hk|reflexivity].
Qed.

Lemma sample_collaborators_stay_inside : stay_inside sample_collaborators.
Proof.
  split; [exact (proj1 sample_collaborators_well_behaved)|].
  split; [exact sample_tokenizer_inside|].
  intros s a n. cbn [linespec_expression_to_pc sample_collaborators].
  unfold sample_expression_to_pc.
  destruct (_ && _) eqn:G; [|discriminate]. intros H; injection H as _ <-.
  assert (Hh : forall t, hex_span t <= List.length t).
  { induction t as [|c r IH]; cbn [hex_span List.length]; [lia|].
    destruct (hex_digit c); lia. }
  apply andb_true_iff in G. destruct G as [_ G]. apply Nat.ltb_lt in G.
  pose proof (Hh (skipn 3 s)) as L. rewrite length_skipn in L.
  change (3 + hex_span (skipn 3 s) <= List.length s). lia.
Qed.

(** X27 on [main  ,x]. *)
Lemma dispatcher_cursor_witness :
  exists k, k <= List.length (cs "main  ,x")
            /\ Some (cs ",x") = Some (skipn k (cs "main  ,x")).
Proof.
  apply (proj1 (dispatcher_cursor sample_collaborators language_c WILD
                  sample_collaborators_stay_inside)
           (cs "main  ,x") (linespec_location_of WILD (Some (cs "main")))
           (Some (cs ",x"))).
  reflexivity.
Defined.

(** ** Operators of Ada *)

(** X28.  In Ada, a function name that starts with a double quote and is
    an operator ([is_ada_operator]) is not lexed as a quoted string: the
    lexer raises no error, whether the quote is closed or not, and a
    token that it returns starts with the double quote and runs up to
    the new cursor. *)
Theorem ada_operator_name (env : collaborators) (inp : cstring)
  (ci : option explicit_completion_info) :
  peek inp = DQUOTE ->
  is_ada_operator env inp = true ->
  (forall e : gdb_error,
     explicit_location_lex_one_function env inp language_ada ci <> Raise e)
  /\ forall (tok rest : cstring) (ci' : option explicit_completion_info),
       explicit_location_lex_one_function env inp language_ada ci
       = Ret (Some tok, rest, ci') ->
       inp = tok ++ rest /\ peek tok = DQUOTE /\ ci' = ci.
Proof.
  intros Hp Ha.
  assert (Q : lexes_as_quoted env language_ada inp = false).
  { unfold lexes_as_quoted. rewrite Hp, Ha.
    change (is_ada language_ada && chr_eq DQUOTE DQUOTE && true) with true.
    apply andb_false_r. }
  unfold explicit_location_lex_one_function. rewrite Q, Hp.
  change (is_nul DQUOTE) with false. cbv iota.
  pose proof (function_name_end_no_raise env inp) as N.
  destruct (function_name_end env inp) as [n|x| | |]; cbn [bind].
  - split; [destruct (0 <? n); discriminate|].
    intros tok rest ci'. destruct (0 <? n) eqn:E; intros H; [|discriminate H].
    injection H as <- <- <-. unfold savestring.
    split; [symmetry; apply firstn_skipn|]. split; [|reflexivity].
    apply Nat.ltb_lt in E. destruct n as [|n]; [lia|].
    destruct inp as [|c r]; [discriminate Hp|exact Hp].
  - exfalso. exact (N x eq_refl).
  - split; [discriminate|]. intros tok rest ci' H. discriminate H.
  - split; [discriminate|]. intros tok rest ci' H. discriminate H.
  - split; [discriminate|]. intros tok rest ci' H. discriminate H.
Qed.

(** X28 on the operator [+] in front of an option. *)
Lemma ada_operator_name_witness :
  (forall e : gdb_error,
     explicit_location_lex_one_function ada_collaborators
       (DQUOTE :: "+"%char :: DQUOTE :: cs " -line 3") language_ada None
     <> Raise e)
  /\ forall (tok rest : cstring) (ci' : option explicit_completion_info),
       explicit_location_lex_one_function ada_collaborators
         (DQUOTE :: "+"%char :: DQUOTE :: cs " -line 3") language_ada None
       = Ret (Some tok, rest, ci') ->
       DQUOTE :: "+"%char :: DQUOTE :: cs " -line 3" = tok ++ rest
       /\ peek tok = DQUOTE /\ ci' = None.
Proof.
  apply (ada_operator_name ada_collaborators
           (DQUOTE :: "+"%char :: DQUOTE :: cs " -line 3") None);
    reflexivity.
Defined.

(** * Theorems about program-space objects *)

(** ** The store *)

Lemma nth_error_store_same {A : Type} (l : list A) (n : nat) (x : A) :
  n < List.length l -> nth_error (store l n x) n = Some x.
Proof.
  revert n. induction l as [|y r IH]; intros n H; [cbn in H; lia|].
  destruct n as [|n]; [reflexivity|]. cbn. apply IH. cbn in H. lia.
Qed.

Lemma nth_error_store_other {A : Type} (l : list A) (n k : nat) (x : A) :
  n <> k -> nth_error (store l n x) k = nth_error l k.
Proof.
  revert n k. induction l as [|y r IH]; intros n k H; [reflexivity|].
  destruct n as [|n], k as [|k]; try reflexivity; [congruence|].
  cbn. apply IH. congruence.
Qed.

Lemma length_store {A : Type} (l : list A) (n : nat) (x : A) :
  List.length (store l n x) = List.length l.
Proof.
  revert n. induction l as [|y r IH]; intros n; [reflexivity|].
  destruct n; cbn; [reflexivity|]. f_equal. apply IH.
Qed.

Lemma store_store {A : Type} (l : list A) (n : nat) (x y : A) :
  store (store l n x) n y = store l n y.
Proof.
  revert n. induction l as [|z r IH]; intros n; [reflexivity|].
  destruct n; cbn; [reflexivity|]. f_equal. apply IH.
Qed.

Lemma store_same {A : Type} (l : list A) (n : nat) (x : A) :
  nth_error l n = Some x -> store l n x = l.
Proof.
  revert n. induction l as [|z r IH]; intros n H; [reflexivity|].
  destruct n; cbn in *; [congruence|]. f_equal. apply IH. exact H.
Qed.

Lemma nth_error_payload_store (h : list py_cell) (n k r : nat)
  (c : py_cell) :
  nth_error h n = Some c ->
  option_map ob_payload
    (nth_error (store h n (mk_py_cell r (ob_payload c))) k)
  = option_map ob_payload (nth_error h k).
Proof.
  intros H. destruct (Nat.eq_dec n k) as [<-|Hk].
  - rewrite nth_error_store_same, H; [reflexivity|].
    apply nth_error_Some. congruence.
  - rewrite nth_error_store_other by exact Hk. reflexivity.
Qed.

(** Counting references changes no contents. *)
Lemma payload_Py_INCREF (w : py_world) (o k : py_ref) :
  option_map ob_payload (nth_error (heap (Py_INCREF w o)) k)
  = option_map ob_payload (nth_error (heap w) k).
Proof.
  unfold Py_INCREF. destruct (nth_error (heap w) o) as [c|] eqn:E;
    [|reflexivity]. apply nth_error_payload_store. exact E.
Qed.

Lemma payload_Py_DECREF_plain (w : py_world) (o k : py_ref) :
  option_map ob_payload (nth_error (heap (Py_DECREF_plain w o)) k)
  = option_map ob_payload (nth_error (heap w) k).
Proof.
  unfold Py_DECREF_plain. destruct (nth_error (heap w) o) as [c|] eqn:E;
    [|reflexivity]. apply nth_error_payload_store. exact E.
Qed.

Lemma payload_Py_XDECREF_plain (w : py_world) (o : option py_ref)
  (k : py_ref) :
  option_map ob_payload (nth_error (heap (Py_XDECREF_plain w o)) k)
  = option_map ob_payload (nth_error (heap w) k).
Proof. destruct o; [apply payload_Py_DECREF_plain|reflexivity]. Qed.

Lemma members_of_payload (w w' : py_world) (o : py_ref) :
  option_map ob_payload (nth_error (heap w') o)
  = option_map ob_payload (nth_error (heap w) o) ->
  members_of w' o = members_of w o.
Proof.
  unfold members_of. intros H.
  destruct (nth_error (heap w') o) as [[n p]|],
    (nth_error (heap w) o) as [[n' p']|]; cbn in H; try discriminate;
    [|reflexivity]. injection H as ->. reflexivity.
Qed.

Lemma check_payload (w w' : py_world) (o : py_ref) :
  option_map ob_payload (nth_error (heap w') o)
  = option_map ob_payload (nth_error (heap w) o) ->
  PyList_Check w' o = PyList_Check w o /\ PyDict_Check w' o = PyDict_Check w o.
Proof.
  unfold PyList_Check, PyDict_Check. intros H.
  destruct (nth_error (heap w') o) as [[n p]|],
    (nth_error (heap w) o) as [[n' p']|]; cbn in H; try discriminate;
    [|split; reflexivity]. injection H as ->. split; reflexivity.
Qed.

Lemma members_of_assign (w : py_world) (o : py_ref) (m : pspace_object)
  (set : pspace_object -> pspace_object) :
  members_of w o = Some m -> members_of (assign w o set) o = Some (set m).
Proof.
  intros H. unfold assign. rewrite H. unfold set_members.
  unfold members_of in *.
  destruct (nth_error (heap w) o) as [c|] eqn:E; [|discriminate].
  cbn [heap with_heap]. rewrite nth_error_store_same; [reflexivity|].
  apply nth_error_Some. congruence.
Qed.

Lemma payload_assign_other (w : py_world) (o k : py_ref)
  (set : pspace_object -> pspace_object) :
  o <> k ->
  nth_error (heap (assign w o set)) k = nth_error (heap w) k.
Proof.
  intros H. unfold assign. destruct (members_of w o); [|reflexivity].
  unfold set_members. destruct (nth_error (heap w) o); [|reflexivity].
  cbn [heap with_heap]. apply nth_error_store_other. exact H.
Qed.

(** ** The setters *)

Lemma list_is_no_pspace (w : py_world) (v o : py_ref) (m : pspace_object) :
  members_of w o = Some m ->
  PyList_Check w v = true \/ PyDict_Check w v = true -> o <> v.
Proof.
  unfold members_of, PyList_Check, PyDict_Check. intros H C ->.
  destruct (nth_error (heap w) v) as [[n []]|]; destruct C; discriminate.
Qed.

(** X21.  The four setters keep one contract.  Each raises [TypeError]
    and leaves everything as it was when the attribute is deleted or the
    value fails the check ([PyList_Check]; [PyDict_Check] for the frame
    filters); otherwise it returns 0 and the member is the value. *)
Theorem setters_contract (w : py_world) (o : py_ref) (m : pspace_object)
  (value : option py_ref) :
  members_of w o = Some m ->
  setter_contract pspy_set_printers PyList_Check set_printers w o m value
  /\ setter_contract pspy_set_frame_filters PyDict_Check set_frame_filters
       w o m value
  /\ setter_contract pspy_set_frame_unwinders PyList_Check
       set_frame_unwinders w o m value
  /\ setter_contract pspy_set_type_printers PyList_Check set_type_printers
       w o m value.
Proof.
  intros Hm.
  assert (G : forall (tmp : option py_ref)
                     (set : pspace_object -> pspace_object) (v : py_ref),
    o <> v ->
    members_of (Py_XDECREF_plain (assign (Py_INCREF w v) o set) tmp) o
    = Some (set m)
    /\ PyList_Check (Py_XDECREF_plain (assign (Py_INCREF w v) o set) tmp) v
       = PyList_Check w v
    /\ PyDict_Check (Py_XDECREF_plain (assign (Py_INCREF w v) o set) tmp) v
       = PyDict_Check w v).
  { intros tmp set v Hov. split.
    - rewrite (members_of_payload _ _ o (payload_Py_XDECREF_plain _ _ o)).
      apply members_of_assign.
      rewrite (members_of_payload _ _ o (payload_Py_INCREF w v o)). exact Hm.
    - apply check_payload. rewrite payload_Py_XDECREF_plain.
      rewrite payload_assign_other by exact Hov. apply payload_Py_INCREF. }
  unfold setter_contract, pspy_set_printers, pspy_set_frame_filters,
    pspy_set_frame_unwinders, pspy_set_type_printers. rewrite Hm.
  destruct value as [v|].
  2:{ repeat split; left; reflexivity. }
  assert (L : PyList_Check w v = true -> o <> v)
    by (intros C; apply (list_is_no_pspace w v o m Hm); auto).
  assert (D : PyDict_Check w v = true -> o <> v)
    by (intros C; apply (list_is_no_pspace w v o m Hm); auto).
  assert (AL : forall tmp set,
    if negb (PyList_Check w v)
    then w = w /\ (Some v = None
                  \/ exists v0, Some v = Some v0 /\ PyList_Check w v0 = false)
    else exists v0, Some v = Some v0 /\ PyList_Check w v0 = true
         /\ members_of (Py_XDECREF_plain (assign (Py_INCREF w v) o set) tmp) o
            = Some (set m)
         /\ PyList_Check (Py_XDECREF_plain (assign (Py_INCREF w v) o set) tmp)
              v0 = true).
  { intros tmp set. destruct (PyList_Check w v) eqn:C; cbn [negb].
    - destruct (G tmp set v (L eq_refl)) as (G1 & G2 & G3).
      exists v. repeat split; [exact C|exact G1|congruence].
    - split; [reflexivity|]. right. exists v. split; [reflexivity|exact C]. }
  assert (AD : forall tmp set,
    if negb (PyDict_Check w v)
    then w = w /\ (Some v = None
                  \/ exists v0, Some v = Some v0 /\ PyDict_Check w v0 = false)
    else exists v0, Some v = Some v0 /\ PyDict_Check w v0 = true
         /\ members_of (Py_XDECREF_plain (assign (Py_INCREF w v) o set) tmp) o
            = Some (set m)
         /\ PyDict_Check (Py_XDECREF_plain (assign (Py_INCREF w v) o set) tmp)
              v0 = true).
  { intros tmp set. destruct (PyDict_Check w v) eqn:C; cbn [negb].
    - destruct (G tmp set v (D eq_refl)) as (G1 & G2 & G3).
      exists v. repeat split; [exact C|exact G1|congruence].
    - split; [reflexivity|]. right. exists v. split; [reflexivity|exact C]. }
  split; [|split; [|split]].
  - pose proof (AL (printers m) (fun m0 => set_printers m0 (Some v))) as A.
    destruct (negb (PyList_Check w v)); [exact A|].
    destruct A as (v0 & E0 & A1 & A2 & A3). injection E0 as <-.
    exists v. repeat split; assumption.
  - pose proof (AD (frame_filters m)
                  (fun m0 => set_frame_filters m0 (Some v))) as A.
    destruct (negb (PyDict_Check w v)); [exact A|].
    destruct A as (v0 & E0 & A1 & A2 & A3). injection E0 as <-.
    exists v. repeat split; assumption.
  - pose proof (AL (frame_unwinders m)
                  (fun m0 => set_frame_unwinders m0 (Some v))) as A.
    destruct (negb (PyList_Check w v)); [exact A|].
    destruct A as (v0 & E0 & A1 & A2 & A3). injection E0 as <-.
    exists v. repeat split; assumption.
  - pose proof (AL (type_printers m)
                  (fun m0 => set_type_printers m0 (Some v))) as A.
    destruct (negb (PyList_Check w v)); [exact A|].
    destruct A as (v0 & E0 & A1 & A2 & A3). injection E0 as <-.
    exists v. repeat split; assumption.
Qed.

(** X21 on a list for the pretty-printers of an object whose members are
    not set. *)
Lemma setters_contract_witness :
  setter_contract pspy_set_printers PyList_Check set_printers
    (mk_py_world [mk_py_cell 1 (Py_Pspace zero_filled);
                  mk_py_cell 1 (Py_List [])] 0 [])
    0 zero_filled (Some 1)
  /\ setter_contract pspy_set_frame_filters PyDict_Check set_frame_filters
       (mk_py_world [mk_py_cell 1 (Py_Pspace zero_filled);
                     mk_py_cell 1 (Py_List [])] 0 [])
       0 zero_filled (Some 1)
  /\ setter_contract pspy_set_frame_unwinders PyList_Check
       set_frame_unwinders
       (mk_py_world [mk_py_cell 1 (Py_Pspace zero_filled);
                     mk_py_cell 1 (Py_List [])] 0 [])
       0 zero_filled (Some 1)
  /\ setter_contract pspy_set_type_printers PyList_Check set_type_printers
       (mk_py_world [mk_py_cell 1 (Py_Pspace zero_filled);
                     mk_py_cell 1 (Py_List [])] 0 [])
       0 zero_filled (Some 1).
Proof.
  apply (setters_contract
           (mk_py_world [mk_py_cell 1 (Py_Pspace zero_filled);
                         mk_py_cell 1 (Py_List [])] 0 [])
           0 zero_filled (Some 1)).
  reflexivity.
Defined.

(** ** A setter and its getter *)

Lemma refcnt_store (h : list py_cell) (o k n : nat) (p : py_payload)
  (w : py_world) :
  o < List.length h ->
  refcnt (with_heap w (store h o (mk_py_cell n p))) k
  = if o =? k then n else refcnt (with_heap w h) k.
Proof.
  intros H. unfold refcnt. cbn [heap with_heap].
  destruct (Nat.eqb_spec o k) as [<-|Hk].
  - rewrite nth_error_store_same by exact H. reflexivity.
  - rewrite nth_error_store_other by exact Hk. reflexivity.
Qed.

Lemma with_heap_heap (w : py_world) : with_heap w (heap w) = w.
Proof. destruct w; reflexivity. Qed.


Lemma refcnt_Py_DECREF_plain (w : py_world) (o k : py_ref) :
  refcnt (Py_DECREF_plain w o) k
  = refcnt w k - (if o =? k then 1 else 0).
Proof.
  unfold Py_DECREF_plain.
  destruct (nth_error (heap w) o) as [c|] eqn:E.
  - rewrite refcnt_store by (apply nth_error_Some; congruence).
    rewrite with_heap_heap.
    destruct (Nat.eqb_spec o k) as [<-|Hk]; [|lia].
    unfold refcnt. rewrite E. reflexivity.
  - destruct (Nat.eqb_spec o k) as [<-|Hk]; [|lia].
    unfold refcnt. rewrite E. reflexivity.
Qed.

Lemma refcnt_Py_XDECREF_plain (w : py_world) (o : option py_ref)
  (k : py_ref) :
  refcnt (Py_XDECREF_plain w o) k
  = refcnt w k - (if holds o k then 1 else 0).
Proof.
  destruct o as [r|]; cbn [Py_XDECREF_plain holds];
    [apply refcnt_Py_DECREF_plain|lia].
Qed.

Lemma refcnt_assign (w : py_world) (o k : py_ref)
  (set : pspace_object -> pspace_object) :
  refcnt (assign w o set) k = refcnt w k.
Proof.
  unfold assign. destruct (members_of w o); [|reflexivity].
  unfold set_members. destruct (nth_error (heap w) o) as [c|] eqn:E;
    [|reflexivity].
  rewrite refcnt_store by (apply nth_error_Some; congruence).
  rewrite with_heap_heap.
  destruct (Nat.eqb_spec o k) as [<-|Hk]; [|reflexivity].
  unfold refcnt. rewrite E. reflexivity.
Qed.




(** ** A program space that is gone *)

Lemma payload_pspy_dealloc (w : py_world) (m : pspace_object) (k : py_ref) :
  option_map ob_payload (nth_error (heap (pspy_dealloc w m)) k)
  = option_map ob_payload (nth_error (heap w) k).
Proof.
  unfold pspy_dealloc. rewrite !payload_Py_XDECREF_plain. reflexivity.
Qed.

Lemma payload_Py_DECREF (w : py_world) (o k : py_ref) :
  option_map ob_payload (nth_error (heap (Py_DECREF w o)) k)
  = option_map ob_payload (nth_error (heap w) k).
Proof.
  unfold Py_DECREF. destruct (nth_error (heap w) o) as [c|]; [|reflexivity].
  destruct (ob_refcnt c - 1 =? 0); [|apply payload_Py_DECREF_plain].
  destruct (ob_payload c); try apply payload_Py_DECREF_plain.
  rewrite payload_pspy_dealloc. apply payload_Py_DECREF_plain.
Qed.

Lemma refcnt_pspy_dealloc_zero (w : py_world) (m : pspace_object)
  (k : py_ref) :
  refcnt w k = 0 -> refcnt (pspy_dealloc w m) k = 0.
Proof.
  intros H. unfold pspy_dealloc. rewrite !refcnt_Py_XDECREF_plain, H.
  reflexivity.
Qed.

(** X23.  [py_free_pspace] leaves an object that is no longer valid and
    gives up one reference to it.  From then on [is_valid] returns
    [False], the attribute [filename] is [None], and the four methods
    that need the program space raise [RuntimeError] without a call into
    GDB and without a look at their arguments. *)
Theorem program_space_gone (gdb : gdb_side) (w w' : py_world)
  (datum : py_ref) (args : option Z) :
  py_free_pspace w datum = Some w' ->
  refcnt w' datum = refcnt w datum - 1
  /\ pspy_is_valid w' datum = Py_RETURN w' Py_False
  /\ pspy_get_filename gdb w' datum = Py_RETURN w' Py_None
  /\ pspy_get_objfiles gdb w' datum = Some (Raised no_longer_exists, w')
  /\ pspy_solib_name gdb w' datum args = Some (Raised no_longer_exists, w')
  /\ pspy_block_for_pc gdb w' datum args = Some (Raised no_longer_exists, w')
  /\ pspy_find_pc_line gdb w' datum args
     = Some (Raised no_longer_exists, w').
Proof.
  unfold py_free_pspace. destruct (members_of w datum) as [m|] eqn:Hm;
    [|discriminate]. intros H; injection H as <-.
  set (w1 := assign w datum (fun m0 => set_pspace m0 None)).
  assert (M1 : members_of w1 datum = Some (set_pspace m None))
    by (exact (members_of_assign w datum m (fun m0 => set_pspace m0 None) Hm)).
  assert (M : members_of (Py_DECREF w1 datum) datum
              = Some (set_pspace m None)).
  { rewrite (members_of_payload _ _ datum (payload_Py_DECREF w1 datum datum)).
    exact M1. }
  split.
  - unfold Py_DECREF.
    destruct (nth_error (heap w1) datum) as [c|] eqn:E.
    2:{ unfold members_of in M1. rewrite E in M1. discriminate. }
    assert (R : refcnt (Py_DECREF_plain w1 datum) datum = refcnt w datum - 1).
    { rewrite refcnt_Py_DECREF_plain, Nat.eqb_refl. unfold w1.
      rewrite refcnt_assign. reflexivity. }
    assert (Rc : ob_refcnt c = refcnt w datum).
    { unfold w1 in E. pose proof (refcnt_assign w datum datum
        (fun m0 => set_pspace m0 None)) as Q. unfold refcnt in Q at 1.
      rewrite E in Q. exact Q. }
    destruct (ob_refcnt c - 1 =? 0) eqn:Z; [|exact R].
    apply Nat.eqb_eq in Z.
    destruct (ob_payload c); try exact R.
    rewrite refcnt_pspy_dealloc_zero; [lia|]. rewrite R. lia.
  - unfold pspy_is_valid, pspy_get_filename, pspy_get_objfiles,
      pspy_solib_name, pspy_block_for_pc, pspy_find_pc_line.
    rewrite M. cbn [pspace set_pspace]. repeat split.
Qed.

(** X23 on an object that Python still refers to. *)
Lemma program_space_gone_witness :
  refcnt
    (mk_py_world [mk_py_cell 1 Py_NoneType; mk_py_cell 1 (Py_Bool true);
                  mk_py_cell 1 (Py_Bool false);
                  mk_py_cell 1 (Py_Pspace zero_filled)] 0 [(7, 3)]) 3
  = 2 - 1.
Proof.
  apply (proj1 (program_space_gone
           (mk_gdb_side (fun _ => None) (fun _ => []) (fun _ => [])
              (fun _ _ => None) (fun w _ => (None, w))
              (fun _ _ => Gdb_exception) (fun _ => None)
              (fun _ _ => Gdb_exception) (fun w _ _ => (None, w))
              (fun _ _ => Gdb_exception) (fun w _ => (None, w)))
           (mk_py_world [mk_py_cell 1 Py_NoneType; mk_py_cell 1 (Py_Bool true);
                         mk_py_cell 1 (Py_Bool false);
                         mk_py_cell 2 (Py_Pspace (set_pspace zero_filled (Some 7)))]
              0 [(7, 3)])
           (mk_py_world [mk_py_cell 1 Py_NoneType; mk_py_cell 1 (Py_Bool true);
                         mk_py_cell 1 (Py_Bool false);
                         mk_py_cell 1 (Py_Pspace zero_filled)] 0 [(7, 3)])
           3 None eq_refl)).
Defined.

(** ** Initialization *)

Lemma allocations_left_assign (w : py_world) (o : py_ref)
  (set : pspace_object -> pspace_object) :
  allocations_left (assign w o set) = allocations_left w.
Proof.
  unfold assign. destruct (members_of w o); [|reflexivity].
  unfold set_members. destruct (nth_error (heap w) o); reflexivity.
Qed.

Lemma py_new_object_cases (w w' : py_world) (p : py_payload)
  (r : option py_ref) :
  py_new_object w p = (r, w') ->
  (allocations_left w = 0 /\ r = None /\ w' = w)
  \/ (exists k, allocations_left w = S k /\ r <> None
                /\ allocations_left w' = k).
Proof.
  unfold py_new_object. destruct (allocations_left w) as [|k];
    intros H; injection H as <- <-.
  - left. repeat split.
  - right. exists k. repeat split. discriminate.
Qed.

Lemma members_of_at (h t : list py_cell) (n a : nat) (u : pspace_object)
  (d : list (program_space * py_ref)) :
  members_of (mk_py_world (h ++ mk_py_cell n (Py_Pspace u) :: t) a d)
    (List.length h) = Some u.
Proof.
  unfold members_of. cbn [heap].
  rewrite nth_error_app2, Nat.sub_diag by apply le_n. reflexivity.
Qed.

Lemma store_at (h t : list py_cell) (c c' : py_cell) :
  store (h ++ c :: t) (List.length h) c' = h ++ c' :: t.
Proof. induction h as [|x h IH]; cbn; [reflexivity|]. f_equal. exact IH. Qed.

Lemma assign_at (h t : list py_cell) (n a : nat) (u : pspace_object)
  (d : list (program_space * py_ref))
  (set : pspace_object -> pspace_object) :
  assign (mk_py_world (h ++ mk_py_cell n (Py_Pspace u) :: t) a d)
    (List.length h) set
  = mk_py_world (h ++ mk_py_cell n (Py_Pspace (set u)) :: t) a d.
Proof.
  unfold assign. rewrite members_of_at. unfold set_members. cbn [heap].
  rewrite nth_error_app2, Nat.sub_diag by apply le_n. cbn [nth_error].
  unfold with_heap. cbn [heap allocations_left program_space_data ob_refcnt].
  rewrite store_at. reflexivity.
Qed.

Lemma py_new_object_at (h t : list py_cell) (c : py_cell) (a : nat)
  (d : list (program_space * py_ref)) (p : py_payload) :
  py_new_object (mk_py_world (h ++ c :: t) (S a) d) p
  = (Some (List.length h + S (List.length t)),
     mk_py_world (h ++ c :: (t ++ [mk_py_cell 1 p])) a d).
Proof.
  unfold py_new_object. cbn [allocations_left heap program_space_data].
  rewrite length_app. cbn [List.length]. rewrite <- app_assoc. reflexivity.
Qed.

(** [pspy_initialize] on the newest object of the store, with six
    allocations left or more. *)
Lemma pspy_initialize_succeeds (h : list py_cell) (n a : nat)
  (u : pspace_object) (d : list (program_space * py_ref)) :
  pspy_initialize (mk_py_world (h ++ [mk_py_cell n (Py_Pspace u)]) (6 + a) d)
    (List.length h)
  = (true,
     mk_py_world
       (h ++ mk_py_cell n (Py_Pspace (initialized_members (List.length h + 1)))
          :: initialized_objects) a d).
Proof.
  unfold pspy_initialize, PyDict_New, PyList_New.
  cbn [Nat.add].
  repeat (rewrite assign_at; rewrite py_new_object_at; cbv beta iota;
          cbn [app List.length]).
  rewrite !assign_at. unfold initialized_members, initialized_objects.
  cbn [set_pspace set_dict set_printers set_frame_filters set_frame_unwinders
       set_type_printers set_xmethods pspace dict printers frame_filters
       frame_unwinders type_printers xmethods].
  replace (List.length h + 1 + 1) with (List.length h + 2) by lia.
  replace (List.length h + 1 + 2) with (List.length h + 3) by lia.
  replace (List.length h + 1 + 3) with (List.length h + 4) by lia.
  replace (List.length h + 1 + 4) with (List.length h + 5) by lia.
  replace (List.length h + 1 + 5) with (List.length h + 6) by lia.
  reflexivity.
Qed.

Ltac alloc_step :=
  match goal with
  | |- context [py_new_object ?x ?p] =>
      let r := fresh "r" in
      let w1 := fresh "w" in
      let E := fresh "E" in
      let k := fresh "k" in
      destruct (py_new_object x p) as [r w1] eqn:E;
      apply py_new_object_cases in E;
      rewrite ?allocations_left_assign in E;
      destruct E as [(E & ? & ?)|(k & E & ? & ?)];
      [subst r w1|destruct r; [|congruence]]
  end.

Ltac alloc_fails := cbn [fst]; symmetry; apply Nat.leb_gt; lia.

(** X24.  [pspy_initialize] returns 1 exactly when six allocations
    succeed.  When the first one fails, it has assigned two members, the
    program space and the dictionary, both null, and left the other five
    as they were. *)
Theorem pspy_initialize_result (w : py_world) (self : py_ref)
  (u : pspace_object) :
  fst (pspy_initialize w self) = (6 <=? allocations_left w)
  /\ (allocations_left w = 0 ->
      members_of w self = Some u ->
      members_of (snd (pspy_initialize w self)) self
      = Some (set_dict (set_pspace u None) None)).
Proof.
  split.
  - unfold pspy_initialize, PyDict_New, PyList_New.
    alloc_step; [alloc_fails|].
    alloc_step; [alloc_fails|].
    alloc_step; [alloc_fails|].
    alloc_step; [alloc_fails|].
    alloc_step; [alloc_fails|].
    alloc_step; [alloc_fails|].
    cbn [fst]. symmetry. apply Nat.leb_le. lia.
  - intros H0 Hm. unfold pspy_initialize, PyDict_New.
    assert (N : py_new_object (assign w self (fun m => set_pspace m None))
                  Py_Dict
                = (None, assign w self (fun m => set_pspace m None))).
    { unfold py_new_object. rewrite allocations_left_assign, H0.
      reflexivity. }
    rewrite N. cbn [snd].
    apply (members_of_assign _ self (set_pspace u None)
             (fun m => set_dict m None)).
    apply (members_of_assign w self u (fun m => set_pspace m None) Hm).
Qed.

(** X24 on a store that gives out no more objects. *)
Lemma pspy_initialize_result_witness :
  members_of
    (snd (pspy_initialize
            (mk_py_world [mk_py_cell 1 (Py_Pspace (initialized_members 7))] 0 [])
            0)) 0
  = Some (set_dict (set_pspace (initialized_members 7) None) None).
Proof.
  apply (proj2 (pspy_initialize_result
                  (mk_py_world
                     [mk_py_cell 1 (Py_Pspace (initialized_members 7))] 0 [])
                  0 (initialized_members 7))); reflexivity.
Defined.

(** ** The object of a program space *)

Lemma Py_INCREF_at (h t : list py_cell) (n a : nat) (p : py_payload)
  (d : list (program_space * py_ref)) :
  Py_INCREF (mk_py_world (h ++ mk_py_cell n p :: t) a d) (List.length h)
  = mk_py_world (h ++ mk_py_cell (S n) p :: t) a d.
Proof.
  unfold Py_INCREF. cbn [heap].
  rewrite nth_error_app2, Nat.sub_diag by apply le_n. cbn [nth_error].
  unfold with_heap. cbn [heap allocations_left program_space_data ob_refcnt
                         ob_payload].
  rewrite store_at. reflexivity.
Qed.

Lemma refcnt_at (h t : list py_cell) (c : py_cell) (a : nat)
  (d : list (program_space * py_ref)) :
  refcnt (mk_py_world (h ++ c :: t) a d) (List.length h) = ob_refcnt c.
Proof.
  unfold refcnt. cbn [heap].
  rewrite nth_error_app2, Nat.sub_diag by apply le_n. reflexivity.
Qed.

(** X25.  [pspace_to_pspace_object] makes the object of a program space
    once.  With no object on record and seven allocations left, it
    returns a new object that is valid, whose members are the program
    space and six new containers whatever the memory held before, and
    that has two references, one of them held by the program space; from
    then on it returns that object, with one more reference.  An object
    that [pspy_new] makes is not valid. *)
Theorem program_space_object_once (w : py_world) (ps : program_space)
  (u u' : pspace_object) :
  lookup_data (program_space_data w) ps = None ->
  7 <= allocations_left w ->
  (exists w1 : py_world,
     pspace_to_pspace_object w ps u
     = Some (Answer (List.length (heap w)), w1)
     /\ members_of w1 (List.length (heap w))
        = Some (set_pspace (initialized_members (List.length (heap w) + 1))
                  (Some ps))
     /\ refcnt w1 (List.length (heap w)) = 2
     /\ pspy_is_valid w1 (List.length (heap w)) = Py_RETURN w1 Py_True
     /\ pspace_to_pspace_object w1 ps u'
        = Some (Answer (List.length (heap w)),
                Py_INCREF w1 (List.length (heap w))))
  /\ (exists w2 : py_world,
        pspy_new w = Some (Answer (List.length (heap w)), w2)
        /\ pspy_is_valid w2 (List.length (heap w)) = Py_RETURN w2 Py_False).
Proof.
  destruct w as [h a d]. cbn [heap allocations_left program_space_data].
  intros Hl Ha.
  destruct a as [|a]; [lia|].
  assert (Ea : a = 6 + (a - 6)) by lia. revert Ea.
  generalize (a - 6). intros a' ->.
  assert (N : forall p,
    py_new_object (mk_py_world h (S (6 + a')) d) p
    = (Some (List.length h),
       mk_py_world (h ++ [mk_py_cell 1 p]) (6 + a') d)) by reflexivity.
  split.
  - unfold pspace_to_pspace_object.
    cbn [heap allocations_left program_space_data]. rewrite Hl, N.
    rewrite pspy_initialize_succeeds, assign_at.
    unfold set_program_space_data.
    cbn [heap allocations_left program_space_data].
    rewrite Py_INCREF_at. eexists. split; [reflexivity|].
    split; [apply members_of_at|]. split; [apply refcnt_at|].
    split.
    + unfold pspy_is_valid. rewrite members_of_at. reflexivity.
    + unfold pspace_to_pspace_object. cbn [program_space_data lookup_data].
      rewrite Nat.eqb_refl. reflexivity.
  - unfold pspy_new. rewrite N, pspy_initialize_succeeds.
    eexists. split; [reflexivity|].
    unfold pspy_is_valid. rewrite members_of_at. reflexivity.
Qed.

(** X25 on a store of the three singletons. *)
Lemma program_space_object_once_witness :
  (exists w1 : py_world,
     pspace_to_pspace_object
       (mk_py_world [mk_py_cell 1 Py_NoneType; mk_py_cell 1 (Py_Bool true);
                     mk_py_cell 1 (Py_Bool false)] 7 []) 4 zero_filled
     = Some (Answer 3, w1)
     /\ members_of w1 3 = Some (set_pspace (initialized_members 4) (Some 4))
     /\ refcnt w1 3 = 2
     /\ pspy_is_valid w1 3 = Py_RETURN w1 Py_True
     /\ pspace_to_pspace_object w1 4 zero_filled
        = Some (Answer 3, Py_INCREF w1 3))
  /\ (exists w2 : py_world,
        pspy_new
          (mk_py_world [mk_py_cell 1 Py_NoneType; mk_py_cell 1 (Py_Bool true);
                        mk_py_cell 1 (Py_Bool false)] 7 [])
        = Some (Answer 3, w2)
        /\ pspy_is_valid w2 3 = Py_RETURN w2 Py_False).
Proof.
  apply (program_space_object_once
           (mk_py_world [mk_py_cell 1 Py_NoneType; mk_py_cell 1 (Py_Bool true);
                         mk_py_cell 1 (Py_Bool false)] 7 [])
           4 zero_filled zero_filled).
  - reflexivity.
  - cbn. lia.
Defined.

(** ** Initialization that fails at once *)

Lemma refcnt_app (h t : list py_cell) (a a' : nat)
  (d d' : list (program_space * py_ref)) (k : py_ref) :
  k < List.length h ->
  refcnt (mk_py_world (h ++ t) a d) k = refcnt (mk_py_world h a' d') k.
Proof.
  intros H. unfold refcnt. cbn [heap]. rewrite nth_error_app1 by exact H.
  reflexivity.
Qed.

(** X26.  When the store gives out one more object and no other,
    [pspace_to_pspace_object] makes the object, fails in
    [pspy_initialize] at the dictionary and runs [pspy_dealloc] on the
    object, whose last five members were never assigned: it releases one
    reference of whatever object each of them happens to point to.
    [pspy_new], whose object is zero-filled, releases none. *)
Theorem initialization_fails_at_once (w : py_world) (ps : program_space)
  (u : pspace_object) :
  lookup_data (program_space_data w) ps = None ->
  allocations_left w = 1 ->
  (exists w' : py_world,
     pspace_to_pspace_object w ps u = Some (Raised PyExc_MemoryError, w')
     /\ forall k : py_ref,
          k < List.length (heap w) ->
          refcnt w' k
          = refcnt w k - released (printers u) k
            - released (frame_filters u) k - released (frame_unwinders u) k
            - released (type_printers u) k - released (xmethods u) k)
  /\ (exists w' : py_world,
        pspy_new w = Some (Raised PyExc_MemoryError, w')
        /\ forall k : py_ref,
             k < List.length (heap w) -> refcnt w' k = refcnt w k).
Proof.
  destruct w as [h a d]. cbn [heap allocations_left program_space_data].
  intros Hl ->.
  assert (N : forall p,
    py_new_object (mk_py_world h 1 d) p
    = (Some (List.length h), mk_py_world (h ++ [mk_py_cell 1 p]) 0 d))
    by reflexivity.
  assert (I : forall m,
    pspy_initialize (mk_py_world (h ++ [mk_py_cell 1 (Py_Pspace m)]) 0 d)
      (List.length h)
    = (false,
       mk_py_world
         (h ++ [mk_py_cell 1 (Py_Pspace (set_dict (set_pspace m None) None))])
         0 d)).
  { intros m. unfold pspy_initialize, PyDict_New. rewrite assign_at.
    unfold py_new_object at 1. cbn [allocations_left]. cbv beta iota.
    rewrite assign_at. reflexivity. }
  assert (D : forall m (k : py_ref),
    k < List.length h ->
    refcnt (Py_DECREF
              (mk_py_world (h ++ [mk_py_cell 1 (Py_Pspace m)]) 0 d)
              (List.length h)) k
    = refcnt (mk_py_world h 1 d) k - released (dict m) k
      - released (printers m) k
      - released (frame_filters m) k - released (frame_unwinders m) k
      - released (type_printers m) k - released (xmethods m) k).
  { intros m k Hk. unfold Py_DECREF. cbn [heap].
    rewrite nth_error_app2, Nat.sub_diag by apply le_n.
    cbn [nth_error ob_refcnt ob_payload Nat.sub Nat.eqb].
    unfold pspy_dealloc. rewrite !refcnt_Py_XDECREF_plain.
    rewrite refcnt_Py_DECREF_plain.
    assert (Ne : (List.length h =? k) = false) by (apply Nat.eqb_neq; lia).
    rewrite Ne, Nat.sub_0_r.
    rewrite (refcnt_app h _ 0 1 d d k Hk). reflexivity. }
  split.
  - unfold pspace_to_pspace_object. cbn [program_space_data].
    rewrite Hl, N, I. eexists. split; [reflexivity|].
    intros k Hk. rewrite (D _ k Hk). cbn [set_dict set_pspace dict printers
      frame_filters frame_unwinders type_printers xmethods].
    unfold released at 1. cbn [holds]. rewrite Nat.sub_0_r. reflexivity.
  - unfold pspy_new. rewrite N, I. eexists. split; [reflexivity|].
    intros k Hk. rewrite (D _ k Hk). cbn. rewrite !Nat.sub_0_r. reflexivity.
Qed.

(** X26 on uninitialized members of which one points to [Py_None]. *)
Lemma initialization_fails_at_once_witness :
  (exists w' : py_world,
     pspace_to_pspace_object
       (mk_py_world [mk_py_cell 5 Py_NoneType] 1 []) 4
       (set_printers zero_filled (Some Py_None))
     = Some (Raised PyExc_MemoryError, w')
     /\ forall k : py_ref,
          k < 1 ->
          refcnt w' k
          = refcnt (mk_py_world [mk_py_cell 5 Py_NoneType] 1 []) k
            - released (Some Py_None) k
            - released None k - released None k
            - released None k - released None k)
  /\ (exists w' : py_world,
        pspy_new (mk_py_world [mk_py_cell 5 Py_NoneType] 1 [])
        = Some (Raised PyExc_MemoryError, w')
        /\ forall k : py_ref,
             k < 1 ->
             refcnt w' k
             = refcnt (mk_py_world [mk_py_cell 5 Py_NoneType] 1 []) k).
Proof.
  apply (initialization_fails_at_once
           (mk_py_world [mk_py_cell 5 Py_NoneType] 1 []) 4
           (set_printers zero_filled (Some Py_None))); reflexivity.
Defined.
